(** * execo-g5k-tools: the parameter-sweep engine and the storage benchmark

    A shallow embedding of
    - [engines/simgrid_paasage/paassage_simu.py]: the engine [paassage_simu]
      ([replaceWord], [define_parameters], [workflow], [run]);
    - [admin/benchmark_storage5k/prototype.py]: the storage benchmark script.

    The engine talks to three things that live outside the repository:
    the [execo_engine] sweep library ([sweep], [ParamSweeper]), the
    reservation service ([oargridsub], [oargriddel], [deploy], ...)
    and [threading].  The sweep library is modelled from the specification;
    the two others are an environment whose behaviour is an explicit input
    of the model (a script of answers, one per external call). *)

From stdpp Require Import gmap strings list fin_sets pretty.

Open Scope string_scope.
Open Scope list_scope.
Open Scope Z_scope.

(** ** Data model *)

(** A combination: parameter name -> value (a [HashableDict] in the code). *)
Abbreviation Comb := (gmap string Z).

(** A host, as the address string the code splits on ['.']. *)
Abbreviation Host := string.

(** ** The sweep library *)

Module Sweep.

(** [range(lo, hi)] of Python 2: the integers [lo <= x < hi], in order. *)
Definition range (lo hi : Z) : list Z :=
  (fun i : nat => lo + Z.of_nat i) <$> seq 0 (Z.to_nat (hi - lo)).

(** Modelled from the spec: [execo_engine.sweep] is not part of the
    repository.  "Produced once, up front, as the full Cartesian product of
    each parameter's allowed value range": every way of giving each
    parameter one value of its range.  The parameters come as the items of
    the dictionary. *)
Fixpoint sweep (parameters : list (string * list Z)) : list Comb :=
  match parameters with
  | [] => [∅]
  | (name, values) :: rest =>
      v ← values; c ← sweep rest; [<[name := v]> c]
  end.

(** The dictionary literal of [define_parameters] (lines 60-65). *)
Definition parameters : list (string * list Z) :=
  [ ("http_c1.xlarge", range 0 1);
    ("http_m1.large", range 1 4);
    ("app_c1.medium", range 1 6);
    ("db_m2.xlarge", range 0 3);
    ("db_m1.medium", range 0 3) ].

(** Modelled from the spec: [execo_engine.ParamSweeper] is not part of the
    repository.  The "Sweep Queue": the combinations split into remaining,
    in-progress, completed and canceled. *)
Record ParamSweeper := {
  remaining : gset Comb;
  inprogress : gset Comb;
  completed : gset Comb;
  canceled : gset Comb
}.

(** [ParamSweeper(dir, sweeps)]: everything is remaining. *)
Definition new (sweeps : list Comb) : ParamSweeper :=
  {| remaining := list_to_set sweeps; inprogress := ∅;
     completed := ∅; canceled := ∅ |}.

Definition get_remaining (sw : ParamSweeper) : gset Comb := remaining sw.

(** "No ordering guarantee among remaining combinations": the order is a
    parameter of the model, any function that picks a member of a non-empty
    set. *)
Record Order := {
  pick : gset Comb → option Comb;
  pick_elem : ∀ s c, pick s = Some c → c ∈ s;
  pick_none : ∀ s, pick s = None → s = ∅
}.

Section with_order.
Context (ord : Order).

(** Modelled from the spec, [next_combination]: "atomically removes and
    returns one combination from remaining, moving it to in-progress;
    returns none if remaining is empty". *)
Definition get_next (sw : ParamSweeper) : option Comb * ParamSweeper :=
  match pick ord (remaining sw) with
  | None => (None, sw)
  | Some c =>
      (Some c, {| remaining := remaining sw ∖ {[c]};
                  inprogress := inprogress sw ∪ {[c]};
                  completed := completed sw;
                  canceled := canceled sw |})
  end.

End with_order.

(** Modelled from the spec, [mark_done(combination, success)]: "moves a
    combination from in-progress to completed (success) or canceled
    (failure)"; a call for a combination that is not in progress "should
    fail loudly": [None].  [done] is the success case, [cancel] the failure
    case. *)
Definition done (sw : ParamSweeper) (c : Comb) : option ParamSweeper :=
  if decide (c ∈ inprogress sw) then
    Some {| remaining := remaining sw;
            inprogress := inprogress sw ∖ {[c]};
            completed := completed sw ∪ {[c]};
            canceled := canceled sw |}
  else None.

Definition cancel (sw : ParamSweeper) (c : Comb) : option ParamSweeper :=
  if decide (c ∈ inprogress sw) then
    Some {| remaining := remaining sw;
            inprogress := inprogress sw ∖ {[c]};
            completed := completed sw;
            canceled := canceled sw ∪ {[c]} |}
  else None.

(** The least order one can run: the first element of the set's listing. *)
Program Definition first_order : Order :=
  {| pick := λ s, head (elements s) |}.
Next Obligation.
  intros s c H. apply elem_of_elements. apply head_Some_elem_of. exact H.
Qed.
Next Obligation.
  intros s H. apply leibniz_equiv, elements_empty_inv.
  apply head_None in H. by rewrite H.
Qed.

End Sweep.

(** ** The world the engine runs in *)

(** A thread started by [run] on [workflow(comb, host)].  [t_alive] is what
    [Thread.is_alive()] answers. *)
Record Thread := {
  t_comb : Comb;
  t_host : Host;
  t_alive : bool
}.

(** The calls that leave the engine, in the order they return.  A call that
    raises is recorded under [Raised]. *)
Inductive Event :=
| IsJobAlive (answer : bool)
| Sleep (seconds : Z)
| GetNext (comb : option Comb)
| Start (t : nat) (comb : Comb) (host : Host)
| Oargridsub (job : Z)
| WaitOargridJobStart (job : option Z)
| GetOargridJobNodes (job : option Z)
| Deploy (hosts : list Host)
| Oargriddel (job : Z)
| Raised (call : Event).

(** The engine object and what surrounds it: [self.sweeper],
    [self.oargrid_job_id], every thread started so far (a thread is known by
    its position in [pool]), the workflows that reached their end (thread,
    [comb_ok]) and the record of the calls made. *)
Record World := {
  sweeper : Sweep.ParamSweeper;
  pool : list Thread;
  reports : list (nat * bool);
  oargrid_job_id : option Z;
  log : list Event
}.

Definition init : World :=
  {| sweeper := Sweep.new []; pool := []; reports := [];
     oargrid_job_id := None; log := [] |}.

(** What the environment does at one external call: the workflows that came
    to their end since the previous call (thread, [comb_ok]), whether the
    call raises, and what it answers: [alive] to [is_job_alive()], [job] to
    [oargridsub], [nodes] to [deploy] (each deployed host with the
    [smt_size] that [get_host_attributes] reports for it). *)
Record Tick := {
  finished : list (nat * bool);
  raises : bool;
  alive : bool;
  job : Z;
  nodes : list (Host * nat)
}.

Abbreviation Script := (list Tick).

(** The command line: [-n], [-j], [-k]. *)
Record Options := {
  n_nodes : Z;
  opt_oargrid_job_id : option Z;
  keep_alive : bool
}.

(** ** A monad for [run]: state, environment script, exceptions *)

(** [Blocked]: the script is over (or the fuel of a loop is), the call has
    not returned. *)
Inductive Res (A : Type) :=
| Ret (a : A)
| Raise
| Blocked.
Arguments Ret {A} a.
Arguments Raise {A}.
Arguments Blocked {A}.

Definition M (A : Type) : Type := World → Script → Res A * World * Script.

#[global] Instance M_ret : MRet M := λ A a w s, (Ret a, w, s).

#[global] Instance M_bind : MBind M := λ A B k m w s,
  match m w s with
  | (Ret a, w', s') => k a w' s'
  | (Raise, w', s') => (Raise, w', s')
  | (Blocked, w', s') => (Blocked, w', s')
  end.

Definition raise {A} : M A := λ w s, (Raise, w, s).
Definition blocked {A} : M A := λ w s, (Blocked, w, s).
Definition gets {A} (f : World → A) : M A := λ w s, (Ret (f w), w, s).
Definition modify (f : World → World) : M unit := λ w s, (Ret tt, f w, s).

(** [try: body finally: final]. *)
Definition try_finally {A} (body : M A) (final : M unit) : M A := λ w s,
  match body w s with
  | (Blocked, w', s') => (Blocked, w', s')
  | (r, w', s') =>
      match final w' s' with
      | (Ret _, w'', s'') => (r, w'', s'')
      | (Raise, w'', s'') => (Raise, w'', s'')
      | (Blocked, w'', s'') => (Blocked, w'', s'')
      end
  end.

Definition set_log (l : list Event) (w : World) : World :=
  {| sweeper := sweeper w; pool := pool w; reports := reports w;
     oargrid_job_id := oargrid_job_id w; log := l |}.

Definition record (e : Event) (w : World) : World := set_log (log w ++ [e]) w.

(** ** [workflow] (lines 92-168) *)

(** The [finally] clause of [workflow] (lines 158-166): [sweeper.done(comb)]
    when [comb_ok], [sweeper.cancel(comb)] otherwise.  Everything before it
    (lines 99-157) is remote execution and file transfer; what the model
    keeps of it is its outcome [comb_ok], given by the environment.  (As the
    file stands, the body refers to names that the module does not define,
    [ET] at line 103 first, so that it cannot reach line 157 and [comb_ok]
    is false; the model keeps both outcomes, as the [finally] clause does.)
    A sweeper that refuses the call raises in the thread, which ends all the
    same. *)
Definition workflow (comb : Comb) (comb_ok : bool)
    (sw : Sweep.ParamSweeper) : Sweep.ParamSweeper :=
  default sw (if comb_ok then Sweep.done sw comb else Sweep.cancel sw comb).

(** Thread [t] reaches the end of [workflow] with [comb_ok]. *)
Definition finish (w : World) (f : nat * bool) : World :=
  match pool w !! f.1 with
  | Some th =>
      if t_alive th then
        {| sweeper := workflow (t_comb th) f.2 (sweeper w);
           pool := <[f.1 := {| t_comb := t_comb th; t_host := t_host th;
                               t_alive := false |}]> (pool w);
           reports := reports w ++ [f];
           oargrid_job_id := oargrid_job_id w;
           log := log w |}
      else w
  | None => w
  end.

(** An external call: the workflows that ended meanwhile are accounted for,
    then the call raises or returns its answer. *)
Definition call {A} (answer : Tick → A) (event : A → Event) : M A := λ w s,
  match s with
  | [] => (Blocked, w, [])
  | t :: s' =>
      let w' := foldl finish w (finished t) in
      if raises t then (Raise, record (Raised (event (answer t))) w', s')
      else (Ret (answer t), record (event (answer t)) w', s')
  end.

(** The calls of [run] to the reservation service and to [execo].
    [is_job_alive] is not defined in the file; it is taken as a method that
    asks the reservation service whether the job is alive (a call that
    raises covers its absence).  [get_host_attributes] (line 204) answers
    together with [deploy]. *)
Definition is_job_alive : M bool := call alive IsJobAlive.
Definition sleep (seconds : Z) : M unit := call (λ _, tt) (λ _, Sleep seconds).
Definition oargridsub : M Z := call job Oargridsub.
Definition wait_oargrid_job_start (j : option Z) : M unit :=
  call (λ _, tt) (λ _, WaitOargridJobStart j).
Definition get_oargrid_job_nodes (j : option Z) : M unit :=
  call (λ _, tt) (λ _, GetOargridJobNodes j).
Definition deploy : M (list (Host * nat)) := call nodes (λ hs, Deploy hs.*1).
Definition oargriddel (j : Z) : M unit := call (λ _, tt) (λ _, Oargriddel j).

(** [t.is_alive()] *)
Definition is_alive (p : list Thread) (t : nat) : bool :=
  match p !! t with
  | Some th => t_alive th
  | None => false
  end.

Definition set_job_id (j : option Z) : M unit :=
  modify (λ w, {| sweeper := sweeper w; pool := pool w;
                  reports := reports w;
                  oargrid_job_id := j; log := log w |}).

Definition set_sweeper (sw : Sweep.ParamSweeper) (w : World) : World :=
  {| sweeper := sw; pool := pool w; reports := reports w;
     oargrid_job_id := oargrid_job_id w; log := log w |}.

(** [Thread(target=self.workflow, args=(comb, host))] ... [t.start()]
    (lines 238-242); the new thread's identity is returned. *)
Definition start (comb : Comb) (host : Host) : M nat := λ w s,
  let t := length (pool w) in
  (Ret t,
   record (Start t comb host)
     {| sweeper := sweeper w;
        pool := pool w ++ [{| t_comb := comb; t_host := host; t_alive := true |}];
        reports := reports w;
        oargrid_job_id := oargrid_job_id w; log := log w |},
   s).

(** The [threads] dictionary of [run]: thread -> host, in insertion order. *)
Abbreviation Threads := (list (nat * Host)).

(** [del threads[t]] *)
Definition del (t : nat) (threads : Threads) : Threads :=
  filter (λ x, x.1 ≠ t) threads.

(** Lines 211-215: [for t in tmp_threads: if not t.is_alive(): ...]: the
    host of a thread that ended is appended to [available_hosts] and the
    thread leaves [threads]. *)
Fixpoint reclaim (p : list Thread) (tmp_threads threads : Threads)
    (available_hosts : list Host) : Threads * list Host :=
  match tmp_threads with
  | [] => (threads, available_hosts)
  | (t, host) :: rest =>
      if is_alive p t then reclaim p rest threads available_hosts
      else reclaim p rest (del t threads) (available_hosts ++ [host])
  end.

(** Lines 227-230: the same loop without the host. *)
Fixpoint forget (p : list Thread) (tmp_threads threads : Threads) : Threads :=
  match tmp_threads with
  | [] => threads
  | (t, _) :: rest =>
      if is_alive p t then forget p rest threads
      else forget p rest (del t threads)
  end.

(** Where a loop body leaves the loop: at its end or at a [break]. *)
Inductive Ctl (A : Type) :=
| Continue (a : A)
| Break (a : A).
Arguments Continue {A} a.
Arguments Break {A} a.

(** The local variables of the control loop of [run]. *)
Record Locals := {
  job_is_dead : bool;
  threads : Threads;
  available_hosts : list Host
}.

(** Equality of the observable data is decidable, so that concrete runs
    can be checked by evaluation. *)
#[global] Instance Thread_eq_dec : EqDecision Thread.
Proof. solve_decision. Defined.

#[global] Instance Event_eq_dec : EqDecision Event.
Proof. solve_decision. Defined.

#[global] Instance Res_eq_dec {A} `{EqDecision A} : EqDecision (Res A).
Proof. solve_decision. Defined.

#[global] Instance Ctl_eq_dec {A} `{EqDecision A} : EqDecision (Ctl A).
Proof. solve_decision. Defined.

#[global] Instance Locals_eq_dec : EqDecision Locals.
Proof. solve_decision. Defined.

(** [if not comb] (line 225): [None], or a dictionary without entries. *)
Definition not_comb (comb : option Comb) : bool :=
  match comb with
  | None => true
  | Some c => bool_decide (c = ∅)
  end.

Section engine.
Context (ord : Sweep.Order) (options : Options).
Context (parameters : list (string * list Z)).

(** [define_parameters] (lines 56-69), with the dictionary as a parameter. *)
Definition define_parameters : M unit :=
  modify (set_sweeper (Sweep.new (Sweep.sweep parameters))).

(** [make_reservation] (lines 72-89): the planning is the environment's,
    the identifier that [oargridsub] returns is kept. *)
Definition make_reservation : M unit :=
  j ← oargridsub; set_job_id (Some j).

(** [self.sweeper.get_next()] *)
Definition sweeper_get_next : M (option Comb) := λ w s,
  let '(c, sw) := Sweep.get_next ord (sweeper w) in
  (Ret c, record (GetNext c) (set_sweeper sw w), s).

(** Lines 210-219: [while self.options.n_nodes > len(available_hosts)]. *)
Fixpoint wait_for_hosts (fuel : nat) (threads : Threads)
    (available_hosts : list Host) : M Locals :=
  match fuel with
  | O => blocked
  | S fuel' =>
      if bool_decide (n_nodes options > Z.of_nat (length available_hosts)) then
        p ← gets pool;
        let '(threads, available_hosts) :=
          reclaim p threads threads available_hosts in
        _ ← sleep 5;
        a ← is_job_alive;
        if negb a then
          mret {| job_is_dead := true; threads := threads;
                  available_hosts := available_hosts |}
        else wait_for_hosts fuel' threads available_hosts
      else
        mret {| job_is_dead := false; threads := threads;
                available_hosts := available_hosts |}
  end.

(** Lines 226-232: [while len(threads.keys()) > 0]. *)
Fixpoint drain (fuel : nat) (threads : Threads) : M Threads :=
  match fuel with
  | O => blocked
  | S fuel' =>
      if bool_decide (0 < length threads)%nat then
        p ← gets pool;
        let threads := forget p threads threads in
        _ ← sleep 20;
        drain fuel' threads
      else mret threads
  end.

(** One turn of [while self.is_job_alive() or len(threads.keys()) > 0]
    (lines 208-242), the test included. *)
Definition dispatch (fuel : nat) (l : Locals) : M (Ctl Locals) :=
  a ← is_job_alive;
  if a || bool_decide (0 < length (threads l))%nat then
    l ← wait_for_hosts fuel (threads l) (available_hosts l);
    if job_is_dead l then mret (Break l)
    else
      comb ← sweeper_get_next;
      if not_comb comb then
        threads ← drain fuel (threads l);
        mret (Break {| job_is_dead := false; threads := threads;
                       available_hosts := available_hosts l |})
      else
        match comb, available_hosts l with
        | Some c, host :: rest =>
            t ← start c host;
            mret (Continue {| job_is_dead := false;
                              threads := threads l ++ [(t, host)];
                              available_hosts := rest |})
        | _, _ => raise
        end
  else mret (Break l).

Fixpoint dispatch_loop (fuel : nat) (l : Locals) : M Locals :=
  match fuel with
  | O => blocked
  | S fuel' =>
      c ← dispatch fuel l;
      match c with
      | Continue l' => dispatch_loop fuel' l'
      | Break l' => mret l'
      end
  end.

(** Lines 203-204. *)
Definition slots (hosts : list (Host * nat)) : list Host :=
  hosts ≫= λ h, replicate h.2 h.1.

(** One turn of [while len(self.sweeper.get_remaining()) > 0]
    (lines 184-248); the result is [job_is_dead]. *)
Definition reserve_and_dispatch (fuel : nat) (dead : bool) : M (Ctl bool) :=
  sw ← gets sweeper;
  if bool_decide (0 < size (Sweep.get_remaining sw))%nat then
    j ← gets oargrid_job_id;
    _ ← (if j is None then make_reservation else mret tt);
    j ← gets oargrid_job_id;
    _ ← wait_oargrid_job_start j;
    _ ← get_oargrid_job_nodes j;
    hosts ← deploy;
    if bool_decide (length hosts = 0)%nat then mret (Break dead)
    else
      l ← dispatch_loop fuel {| job_is_dead := dead; threads := [];
                                available_hosts := slots hosts |};
      a ← is_job_alive;
      let dead := if negb a then true else job_is_dead l in
      _ ← (if dead then set_job_id None else mret tt);
      mret (Continue dead)
  else mret (Break dead).

Fixpoint sweep_loop (fuel : nat) (dead : bool) : M unit :=
  match fuel with
  | O => blocked
  | S fuel' =>
      c ← reserve_and_dispatch fuel dead;
      match c with
      | Continue dead' => sweep_loop fuel' dead'
      | Break _ => mret tt
      end
  end.

(** The [finally] clause of [run] (lines 251-257). *)
Definition release : M unit :=
  j ← gets oargrid_job_id;
  match j with
  | Some j => if negb (keep_alive options) then oargriddel j else mret tt
  | None => mret tt
  end.

(** [if self.options.oargrid_job_id] (line 173): [None] and [0] are false. *)
Definition given_job : option Z :=
  match opt_oargrid_job_id options with
  | Some j => if bool_decide (j = 0) then None else Some j
  | None => None
  end.

(** [run] (lines 171-257).  Each loop of the model takes [fuel]; every
    turn of every loop makes at least one call, so a run stops with
    [Blocked] where the script stops ([run_blocked_script_over]) or, with
    less fuel, earlier: a run cut after any number of calls is a run of the
    model, and what holds of the world in which every run ends holds
    wherever a run stands. *)
Definition run (fuel : nat) : M unit :=
  _ ← set_job_id given_job;
  try_finally (_ ← define_parameters; sweep_loop fuel false) release.

End engine.

(** ** Predicates on the sweep queue and on the world *)

Module SweepSpec.
Import Sweep.

(** The four sets are pairwise disjoint and cover [U]. *)
Definition wf (U : gset Comb) (sw : ParamSweeper) : Prop :=
  remaining sw ∪ inprogress sw ∪ completed sw ∪ canceled sw = U ∧
  (remaining sw ## inprogress sw) ∧ (remaining sw ## completed sw) ∧
  (remaining sw ## canceled sw) ∧ (inprogress sw ## completed sw) ∧
  (inprogress sw ## canceled sw) ∧ (completed sw ## canceled sw).

(** [c] is in exactly one of the four sets. *)
Definition in_exactly_one (c : Comb) (sw : ParamSweeper) : Prop :=
  ((c ∈ remaining sw) ∧ (c ∉ inprogress sw) ∧ (c ∉ completed sw) ∧ (c ∉ canceled sw)) ∨
  ((c ∉ remaining sw) ∧ (c ∈ inprogress sw) ∧ (c ∉ completed sw) ∧ (c ∉ canceled sw)) ∨
  ((c ∉ remaining sw) ∧ (c ∉ inprogress sw) ∧ (c ∈ completed sw) ∧ (c ∉ canceled sw)) ∨
  ((c ∉ remaining sw) ∧ (c ∉ inprogress sw) ∧ (c ∉ completed sw) ∧ (c ∈ canceled sw)).

End SweepSpec.

(** The combinations that [get_next] handed out, in the order of the calls. *)
Definition pull (e : Event) : option Comb :=
  match e with
  | GetNext (Some c) => Some c
  | _ => None
  end.

Definition pulled (l : list Event) : list Comb := omap pull l.

(** The invariant of a run over the combinations [U]: the queue is a
    partition of [U]; no two threads were started on one combination; a
    thread that runs holds a combination in progress; a workflow that ended
    with [comb_ok] left its combination completed, canceled otherwise; no
    combination was handed out twice. *)
Record Inv (U : gset Comb) (w : World) : Prop := {
  inv_wf : SweepSpec.wf U (sweeper w);
  inv_nodup : NoDup (t_comb <$> pool w);
  inv_alive : ∀ t th, pool w !! t = Some th → t_alive th = true →
    t_comb th ∈ Sweep.inprogress (sweeper w);
  inv_started : ∀ c, c ∈ t_comb <$> pool w → c ∉ Sweep.remaining (sweeper w);
  inv_reports : ∀ t ok, (t, ok) ∈ reports w →
    ∃ th, pool w !! t = Some th ∧ t_alive th = false ∧
          t_comb th ∈ (if ok : bool then Sweep.completed (sweeper w)
                       else Sweep.canceled (sweeper w));
  inv_pulled : NoDup (pulled (log w));
  inv_pulled_rem : ∀ c, c ∈ pulled (log w) → c ∉ Sweep.remaining (sweeper w)
}.
Arguments inv_wf {U w} _.
Arguments inv_nodup {U w} _.
Arguments inv_alive {U w} _ _ _ _ _.
Arguments inv_started {U w} _ _ _.
Arguments inv_reports {U w} _ _ _ _.
Arguments inv_pulled {U w} _.
Arguments inv_pulled_rem {U w} _ _ _.

(** ** Shapes of the record of calls *)

(** [k] turns of the wait loop (lines 210-219) that found the job alive. *)
Definition rounds (k : nat) : list Event :=
  mjoin (replicate k [Sleep 5; IsJobAlive true]).

(** The two calls by which the wait loop learns that the job is dead. *)
Definition death : list Event := [Sleep 5; IsJobAlive false].

Definition is_sleep5 (e : Event) : bool :=
  match e with
  | Sleep z => bool_decide (z = 5)
  | _ => false
  end.

Definition is_dead (e : Event) : bool :=
  match e with
  | IsJobAlive false => true
  | _ => false
  end.

(** [death] occurs nowhere in [tr]. *)
Fixpoint quiet (tr : list Event) : bool :=
  match tr with
  | [] => true
  | e :: rest =>
      match rest with
      | e' :: _ => negb (is_sleep5 e && is_dead e')
      | [] => true
      end && quiet rest
  end.

(** The threads of [threads] that ended. *)
Definition ended (p : list Thread) (threads : Threads) : Threads :=
  filter (λ x, is_alive p x.1 = false) threads.

(** From [p] to [p'] no thread was started and none came back to life. *)
Definition pool_ends (p p' : list Thread) : Prop :=
  length p' = length p ∧ ∀ t, is_alive p' t = true → is_alive p t = true.

(** How the record of the wait loop ends, by result. *)
Inductive wait_end : Res Locals → list Event → Prop :=
| wait_ready l : job_is_dead l = false → wait_end (Ret l) []
| wait_dead l : job_is_dead l = true → wait_end (Ret l) death
| wait_raise_sleep : wait_end Raise [Raised (Sleep 5)]
| wait_raise_alive b : wait_end Raise [Sleep 5; Raised (IsJobAlive b)]
| wait_blocked : wait_end Blocked []
| wait_blocked_alive : wait_end Blocked [Sleep 5].

(** How the record of the drain loop ends, by result. *)
Inductive drain_end : Res Threads → list Event → Prop :=
| drain_done : drain_end (Ret []) []
| drain_raise : drain_end Raise [Raised (Sleep 20)]
| drain_blocked : drain_end Blocked [].

(** One turn of the control loop of [run], from locals [l] in world [w] to
    world [w']: its result and the calls it made.  [rounds k] is the wait
    for free hosts. *)
Inductive turn (options : Options) (l : Locals) (w w' : World) :
    Res (Ctl Locals) → list Event → Prop :=
| turn_blocked : turn options l w w' Blocked []
| turn_raise b : turn options l w w' Raise [Raised (IsJobAlive b)]
| turn_exit :
    threads l = [] →
    turn options l w w' (Ret (Break l)) [IsJobAlive false]
| turn_wait_blocked a k tl :
    tl = [] ∨ tl = [Sleep 5] →
    turn options l w w' Blocked ([IsJobAlive a] ++ rounds k ++ tl)
| turn_wait_raise a k tl :
    tl = [Raised (Sleep 5)] ∨ (∃ b, tl = [Sleep 5; Raised (IsJobAlive b)]) →
    turn options l w w' Raise ([IsJobAlive a] ++ rounds k ++ tl)
| turn_dead a k l' :
    job_is_dead l' = true →
    (∀ y, y ∈ threads l' → y ∈ threads l) →
    turn options l w w' (Ret (Break l')) ([IsJobAlive a] ++ rounds k ++ death)
| turn_drained a k comb j l' :
    not_comb comb = true →
    job_is_dead l' = false → threads l' = [] →
    (∀ y, y ∈ threads l → is_alive (pool w') y.1 = false) →
    (comb = None → Sweep.remaining (sweeper w') = ∅) →
    n_nodes options ≤ Z.of_nat (length (available_hosts l')) →
    (n_nodes options > Z.of_nat (length (available_hosts l)) → (0 < k)%nat) →
    turn options l w w' (Ret (Break l'))
      ([IsJobAlive a] ++ rounds k ++ [GetNext comb] ++ replicate j (Sleep 20))
| turn_drain_blocked a k comb j :
    not_comb comb = true →
    turn options l w w' Blocked
      ([IsJobAlive a] ++ rounds k ++ [GetNext comb] ++ replicate j (Sleep 20))
| turn_drain_raise a k comb j :
    not_comb comb = true →
    turn options l w w' Raise
      ([IsJobAlive a] ++ rounds k ++ [GetNext comb] ++ replicate j (Sleep 20)
       ++ [Raised (Sleep 20)])
| turn_index_error a k c :
    n_nodes options ≤ 0 →
    turn options l w w' Raise ([IsJobAlive a] ++ rounds k ++ [GetNext (Some c)])
| turn_started a k c t host l' added kept :
    c ≠ ∅ →
    job_is_dead l' = false →
    available_hosts l ++ added = host :: available_hosts l' →
    added ⊆ (threads l).*2 →
    threads l' = kept ++ [(t, host)] →
    (∀ y, y ∈ kept → y ∈ threads l) →
    n_nodes options ≤ 1 + Z.of_nat (length (available_hosts l')) →
    t = length (pool w) →
    pool w' !! t = Some {| t_comb := c; t_host := host; t_alive := true |} →
    (n_nodes options > Z.of_nat (length (available_hosts l)) → (0 < k)%nat) →
    turn options l w w' (Ret (Continue l'))
      ([IsJobAlive a] ++ rounds k ++ [GetNext (Some c); Start t c host]).

(** The jobs on which [oargriddel] was invoked, whether it returned or
    raised. *)
Definition release_of (e : Event) : option Z :=
  match e with
  | Oargriddel j => Some j
  | Raised (Oargriddel j) => Some j
  | _ => None
  end.

Definition releases (l : list Event) : list Z := omap release_of l.

(** The record [tr] of a control loop is either free of [death], or ends
    with it, and then the loop returned with [job_is_dead]. *)
Definition stops_at_death (r : Res Locals) (tr : list Event) : Prop :=
  quiet tr = true ∨
  ∃ q l', tr = q ++ death ∧ quiet (q ++ [Sleep 5]) = true ∧
          r = Ret l' ∧ job_is_dead l' = true.

(** From [w] to [w'] the engine made calls [tr], none of them [oargriddel];
    the job it holds in [w'] is the one it held in [w] or one that
    [oargridsub] returned meanwhile. *)
Definition body_step (w w' : World) : Prop :=
  ∃ tr, log w' = log w ++ tr ∧ releases tr = [] ∧
    ∀ j, oargrid_job_id w' = Some j →
         oargrid_job_id w = Some j ∨ Oargridsub j ∈ tr.

(** Every combination of [U] that left the remaining set was given a
    thread (the empty dictionary apart, which line 225 takes for none). *)
Definition all_started (U : gset Comb) (w : World) : Prop :=
  ∀ c, c ∈ U → c ∉ Sweep.remaining (sweeper w) → c ≠ ∅ →
       c ∈ t_comb <$> pool w.

(** The number of free hosts when [get_next] was called, read from the
    locals a turn returns: a turn that goes on has taken one host since. *)
Definition hosts_at_pull (c : Ctl Locals) : nat :=
  match c with
  | Continue l' => S (length (available_hosts l'))
  | Break l' => length (available_hosts l')
  end.


(** A call by which the engine only waits or asks after the job. *)
Definition is_poll (e : Event) : bool :=
  match e with
  | IsJobAlive _ | Sleep _ => true
  | Raised (IsJobAlive _) | Raised (Sleep _) => true
  | _ => false
  end.

(** From [w] to [w'] the engine only polled: no thread was started, no
    combination left the remaining set and [get_next] was not called. *)
Definition polls (w w' : World) : Prop :=
  length (pool w') = length (pool w) ∧
  Sweep.remaining (sweeper w') = Sweep.remaining (sweeper w) ∧
  ∃ tr, log w' = log w ++ tr ∧ Forall (λ e, is_poll e = true) tr.

(** The slots that the locals of the control loop account for: the free
    ones and those of the threads listed. *)
Definition slots_of (l : Locals) : list Host :=
  available_hosts l ++ (threads l).*2.

(** The hosts on which the threads started since the pool had [n0] threads
    still run, one entry per thread. *)
Definition busy (p : list Thread) (n0 : nat) : list Host :=
  t_host <$> filter (λ th, t_alive th = true) (drop n0 p).

(** What the control loop entered with a pool of [n0] threads and the slots
    [cap] keeps true of [threads] and [available_hosts]: a thread is listed
    once, under the host it runs on; every thread started since that still
    runs is listed; no slot is counted twice. *)
Record Listed (n0 : nat) (cap : list Host) (thr : Threads) (av : list Host)
    (p : list Thread) : Prop := {
  listed_nodup : NoDup thr.*1;
  listed_host : ∀ t h, (t, h) ∈ thr →
    (n0 ≤ t)%nat ∧ ∃ th, p !! t = Some th ∧ t_host th = h;
  listed_running : ∀ t, (n0 ≤ t)%nat → is_alive p t = true → t ∈ thr.*1;
  listed_slots : av ++ thr.*2 ⊆+ cap;
  listed_pool : (n0 ≤ length p)%nat
}.

(** No thread of the pool runs. *)
Definition all_dead (p : list Thread) : Prop := ∀ i, is_alive p i = false.

(** An environment in which nothing goes wrong, seen at one call: the call
    does not raise, the job is alive, every workflow among the first [N]
    threads has come to its end, and [deploy] would bring at least
    [n_nodes] slots. *)
Definition friendly (options : Options) (N : nat) (t : Tick) : bool :=
  negb (raises t) && alive t &&
  bool_decide (Forall (λ i, i ∈ (finished t).*1) (seq 0 N)) &&
  bool_decide (n_nodes options ≤ Z.of_nat (length (slots (nodes t)))).

(** The jobs that [oargridsub] returned, in the order of the calls. *)
Definition reservation_of (e : Event) : option Z :=
  match e with
  | Oargridsub j => Some j
  | _ => None
  end.

Definition reserved (l : list Event) : list Z := omap reservation_of l.

(** The job that the last [oargridsub] returned or, when no call to it
    returned, the one given with [-j]. *)
Definition latest_job (given : option Z) (l : list Event) : option Z :=
  match last (reserved l) with
  | Some j => Some j
  | None => given
  end.

(** The engine holds no other job than the latest one. *)
Definition holds_latest (given : option Z) (w : World) : Prop :=
  ∀ j, oargrid_job_id w = Some j → latest_job given (log w) = Some j.

(** The world after the two calls of a round of the wait (lines 216-217). *)
Definition polled (t1 t2 : Tick) (w : World) : World :=
  record (IsJobAlive (alive t2))
    (foldl finish (record (Sleep 5) (foldl finish w (finished t1)))
       (finished t2)).

(** ** The body of [workflow] (lines 99-157) and the names it looks up *)

Module Workflow.

(** The names that the module binds: its imports (lines 4-15) and the class
    (line 19).  The attributes of the class ([JVM], [SGCBJAR], [PJDUMP],
    [RSCRIPT], [replaceWord]) are not names of the module: a method reaches
    them through [self] only. *)
Definition module_names : list string :=
  ["os"; "time"; "datetime"; "Thread"; "Put"; "Remote"; "Get"; "sleep";
   "style"; "timedelta_to_seconds"; "get_host_attributes"; "get_planning";
   "compute_slots"; "find_first_slot"; "distribute_hosts"; "get_jobs_specs";
   "wait_oargrid_job_start"; "oargridsub"; "oargriddel";
   "get_oargrid_job_nodes"; "Deployment"; "deploy"; "Engine"; "logger";
   "ParamSweeper"; "sweep"; "slugify"; "paassage_simu"].

(** The builtins that the body uses. *)
Definition builtins : list string := ["str"; "exit"].

(** Where a name that is not local to [workflow] is looked up. *)
Definition namespace : list string := module_names ++ builtins.

(** The names that the body uses and that nothing binds. *)
Definition missing : list string :=
  ["ET"; "XML"; "name"; "shutil"; "replaceWord"; "JAVA"; "SGCBJAR"; "PJDUMP"].

Inductive Exn :=
| NameError (name : string)
| Failed (line : nat)
| SystemExit.

Inductive Outcome (A : Type) :=
| Done (a : A)
| Exc (e : Exn).
Arguments Done {A} a.
Arguments Exc {A} e.

#[global] Instance Outcome_ret : MRet Outcome := λ A a, Done a.

#[global] Instance Outcome_bind : MBind Outcome := λ A B k m,
  match m with
  | Done a => k a
  | Exc e => Exc e
  end.

#[global] Instance Exn_eq_dec : EqDecision Exn.
Proof. solve_decision. Defined.

#[global] Instance Outcome_eq_dec {A} `{EqDecision A} :
  EqDecision (Outcome A).
Proof. solve_decision. Defined.

(** What the environment decides: whether the call made at a line raises,
    whether [os.mkdir] finds the directory there, and [p.ok] for the
    processes of [get_results]. *)
Record Env := {
  fails : nat → bool;
  mkdir_fails : bool;
  get_ok : list bool
}.

(** The evaluation of a name that [workflow] does not assign. *)
Definition global (ns : list string) (name : string) : Outcome unit :=
  if bool_decide (name ∈ ns) then Done tt else Exc (NameError name).

(** A call that leaves the engine, at [line]. *)
Definition external (env : Env) (line : nat) : Outcome unit :=
  if fails env line then Exc (Failed line) else Done tt.

(** Lines 101-157, statement by statement: the names looked up, in the
    order of evaluation, and the calls made.  The result is the value
    assigned to [comb_ok] at line 157. *)
Definition body (ns : list string) (env : Env) (comb : Comb) : Outcome bool :=
  _ ← global ns "Put"; _ ← external env 101;
  _ ← global ns "ET"; _ ← external env 103;
  _ ← external env 104;
  _ ← global ns "logger";
  _ ← (if bool_decide (comb = ∅) then mret tt
       else _ ← global ns "str"; global ns "logger");
  _ ← global ns "XML"; _ ← external env 112;
  _ ← global ns "logger"; _ ← global ns "name";
  _ ← global ns "name";
  _ ← global ns "name";
  _ ← global ns "shutil"; _ ← external env 125;
  _ ← global ns "replaceWord"; _ ← external env 127;
  _ ← global ns "replaceWord"; _ ← external env 128;
  _ ← global ns "shutil"; _ ← external env 130;
  _ ← global ns "Remote"; _ ← global ns "JAVA"; _ ← global ns "SGCBJAR";
  _ ← external env 132;
  _ ← global ns "Remote"; _ ← global ns "PJDUMP"; _ ← external env 133;
  _ ← global ns "Remote"; _ ← external env 138;
  _ ← global ns "slugify";
  _ ← global ns "os";
  _ ← (if mkdir_fails env then
         _ ← global ns "logger"; _ ← global ns "os"; external env 146
       else mret tt);
  _ ← global ns "Get"; _ ← external env 149;
  _ ← (if forallb id (get_ok env) then mret tt
       else _ ← global ns "logger"; _ ← global ns "slugify";
            _ ← global ns "exit"; Exc SystemExit);
  mret true.

(** [comb_ok] when the [finally] clause is entered: [False] (line 95)
    unless line 157 was reached. *)
Definition comb_ok (o : Outcome bool) : bool :=
  match o with
  | Done b => b
  | Exc _ => false
  end.

(** [workflow], body and [finally] clause, on the sweeper. *)
Definition run_workflow (ns : list string) (env : Env) (comb : Comb)
    (sw : Sweep.ParamSweeper) : Sweep.ParamSweeper :=
  workflow comb (comb_ok (body ns env comb)) sw.

End Workflow.

(** ** Python byte strings *)

(** The [str] of Python 2: a sequence of bytes.  The methods that the two
    programs use, as the language reference gives them. *)
Module Str.
Import Stdlib.Strings.Ascii.

Abbreviation str := (list Ascii.ascii).

Definition of_string (s : string) : str := String.list_ascii_of_string s.

(** ['\n'] and ['='] *)
Definition nl : Ascii.ascii := "010"%char.
Definition equals : Ascii.ascii := "="%char.

(** [s.startswith(p)] *)
Fixpoint startswith (p s : str) : bool :=
  match p, s with
  | [], _ => true
  | a :: p', b :: s' => bool_decide (a = b) && startswith p' s'
  | _ :: _, [] => false
  end.

(** [p in s] *)
Fixpoint contains (p s : str) : bool :=
  startswith p s ||
  match s with
  | [] => false
  | _ :: s' => contains p s'
  end.

(** [s.replace(old, new)] for a non-empty [old]: the text is read from the
    left, each occurrence of [old] found is replaced by [new] and the
    search resumes after it.  [skip] counts the bytes of the occurrence
    just replaced that are still to be passed over. *)
Fixpoint replace_from (skip : nat) (old new s : str) : str :=
  match s with
  | [] => []
  | c :: s' =>
      match skip with
      | S k => replace_from k old new s'
      | O =>
          if startswith old s then
            new ++ replace_from (length old - 1) old new s'
          else c :: replace_from 0 old new s'
      end
  end.

(** [s.replace(old, new)]; an empty [old] matches before every byte and at
    the end. *)
Definition replace (old new s : str) : str :=
  match old with
  | [] => new ++ (s ≫= λ c, c :: new)
  | _ :: _ => replace_from 0 old new s
  end.

(** [f.readlines()]: the lines of the text, each with its ['\n'] (the last
    one without, if the text does not end with one). *)
Fixpoint readlines (s : str) : list str :=
  match s with
  | [] => []
  | c :: s' =>
      if bool_decide (c = nl) then [c] :: readlines s'
      else
        match readlines s' with
        | [] => [[c]]
        | line :: lines => (c :: line) :: lines
        end
  end.

(** The fields of [s] between the bytes that satisfy [sep]; there is always
    one field at least. *)
Fixpoint fields (sep : Ascii.ascii → bool) (s : str) : list str :=
  match s with
  | [] => [[]]
  | c :: s' =>
      if sep c then [] :: fields sep s'
      else
        match fields sep s' with
        | [] => [[c]]
        | f :: fs => (c :: f) :: fs
        end
  end.

(** [s.split(sep)] for a separator of one byte. *)
Definition split (sep : Ascii.ascii) (s : str) : list str :=
  fields (λ c, bool_decide (c = sep)) s.

(** [s.split()]: the words between runs of whitespace. *)
Definition split_ws (s : str) : list str :=
  filter (λ f, f ≠ []) (fields Ascii.is_space s).

Fixpoint lstrip (s : str) : str :=
  match s with
  | [] => []
  | c :: s' => if Ascii.is_space c then lstrip s' else s
  end.

(** [s.strip()] *)
Definition strip (s : str) : str := reverse (lstrip (reverse (lstrip s))).

(** The value of a sequence of decimal digits, [acc] being the value of
    those already read. *)
Fixpoint digits (acc : Z) (s : str) : option Z :=
  match s with
  | [] => Some acc
  | c :: s' => d ← Ascii.is_nat c; digits (10 * acc + Z.of_nat d) s'
  end.

(** [int(s)] in base 10: whitespace around, an optional sign, then one
    digit at least and digits only; [None] is [ValueError]. *)
Definition int (s : str) : option Z :=
  match strip s with
  | [] => None
  | c :: ds =>
      if bool_decide (c = "-"%char) then
        if ds is [] then None else Z.opp <$> digits 0 ds
      else if bool_decide (c = "+"%char) then
        if ds is [] then None else digits 0 ds
      else digits 0 (c :: ds)
  end.

(** ** Files *)

(** The files, by path. *)
Abbreviation Files := (gmap string str).

End Str.

(** [replaceWord] (lines 49-54).  [open(src, "r")] raises [IOError] when
    the file is not there: [None].  [open(dst, "w")] creates the file or
    empties it, before anything is read; the lines of [src] are then read,
    and written to [dst] with every occurrence of [word1] replaced by
    [word2].  ([outFile] is not closed by the function; it is when the
    function returns and the file object is reclaimed.) *)
Definition replaceWord (src dst : string) (word1 word2 : Str.str)
    (fs : Str.Files) : option Str.Files :=
  match fs !! src with
  | None => None
  | Some _ =>
      let fs := <[dst := []]> fs in
      lines ← Str.readlines <$> fs !! src;
      Some (<[dst := mjoin (Str.replace word1 word2 <$> lines)]> fs)
  end.
(** ** The storage benchmark ([prototype.py]) *)

Module Benchmark.

(** Line 17, [number = 50 / chunk_size], on Python 2 integers: the floor of
    the quotient; a zero divisor raises [ZeroDivisionError]. *)
Definition number (chunk_size : Z) : option Z :=
  if bool_decide (chunk_size = 0) then None else Some (50 `div` chunk_size).

(** Line 18: the command sent to the storage site. *)
Definition get_storage (chunk_size : Z) : option string :=
  n ← number chunk_size;
  Some ("storage5k -a add -l chunks=" +:+ pretty n +:+ ",walltime=2:00:00").

End Benchmark.

(** ** Concrete runs *)

Module Scenario.

(** Two parameters with ranges {0,1} and {0,1,2}. *)
Definition two_params : list (string * list Z) :=
  [ ("a", [0; 1]); ("b", [0; 1; 2]) ].

(** One parameter with one value. *)
Definition one_param : list (string * list Z) := [ ("a", [0]) ].

Definition comb (a b : Z) : Comb := {[ "a" := a; "b" := b ]}.

(** The environment at one call: the workflows [fs] ended, the job is
    [al]ive, [oargridsub] would return 42 and [deploy] two hosts. *)
Definition tick (fs : list (nat * bool)) (al : bool) : Tick :=
  {| finished := fs; raises := false; alive := al; job := 42;
     nodes := [("node-1", 1%nat); ("node-2", 1%nat)] |}.

(** A deployment that leaves no host. *)
Definition no_host : Tick :=
  {| finished := []; raises := false; alive := true; job := 43; nodes := [] |}.

(** Every workflow started so far has ended, with [comb_ok] false as the
    body of [workflow] has it; one host with one slot. *)
Definition all_end : Tick :=
  {| finished := (λ t, (t, false)) <$> seq 0 6; raises := false;
     alive := true; job := 42; nodes := [("node-1", 1%nat)] |}.

Definition opts (n : Z) (keep : bool) : Options :=
  {| n_nodes := n; opt_oargrid_job_id := None; keep_alive := keep |}.

(** The world after [define_parameters], and the locals at line 206. *)
Definition defined (parameters : list (string * list Z)) : World :=
  set_sweeper (Sweep.new (Sweep.sweep parameters)) init.

Definition fresh (hosts : list Host) : Locals :=
  {| job_is_dead := false; threads := []; available_hosts := hosts |}.

(** A run that goes through the six combinations on one slot. *)
Definition full_run : Res unit * World * Script :=
  run Sweep.first_order (opts 1 false) two_params 100 init
    (replicate 40 all_end).

(** The job dies while the loop waits for a host, combinations remaining. *)
Definition job_dies : Res Locals * World * Script :=
  dispatch_loop Sweep.first_order (opts 2 false) 10
    (fresh ["node-1"; "node-2"]) (defined two_params)
    [tick [] true; tick [] true; tick [] true; tick [] false].

(** The same with a single combination: none remains when the job dies. *)
Definition job_dies_at_the_end : Res Locals * World * Script :=
  dispatch_loop Sweep.first_order (opts 2 false) 10
    (fresh ["node-1"; "node-2"]) (defined one_param)
    [tick [] true; tick [] true; tick [] true; tick [] false].

(** Two hosts of two slots each, [-n 2], no workflow ends. *)
Definition four_slots : Res Locals * World * Script :=
  dispatch_loop Sweep.first_order (opts 2 false) 10
    (fresh ["node-1"; "node-1"; "node-2"; "node-2"]) (defined two_params)
    [tick [] true; tick [] true; tick [] true].

(** [-k]: a reservation is made, no host is deployed. *)
Definition kept_alive : Res unit * World * Script :=
  run Sweep.first_order (opts 2 true) two_params 10 init
    [tick [] true; tick [] true; tick [] true; no_host].

(** Without [-k]: job 42 is found dead, job 43 replaces it, no host is
    deployed. *)
Definition job_replaced : Res unit * World * Script :=
  run Sweep.first_order (opts 2 false) two_params 10 init
    [tick [] true; tick [] true; tick [] true; tick [] true;
     tick [] false; tick [] false;
     no_host; no_host; no_host; no_host; no_host].

(** One turn of the loop that takes the head of four free hosts. *)
Definition one_turn : Res (Ctl Locals) * World * Script :=
  dispatch Sweep.first_order (opts 2 false) 10
    (fresh ["node-1"; "node-1"; "node-2"; "node-2"]) (defined two_params)
    [tick [] true].

(** A turn that finds nothing to hand out and waits for thread 0. *)
Definition draining : Res (Ctl Locals) * World * Script :=
  dispatch Sweep.first_order (opts 1 false) 10
    {| job_is_dead := false; threads := [(0%nat, "node-1")];
       available_hosts := ["node-2"] |}
    {| sweeper := {| Sweep.remaining := ∅; Sweep.inprogress := {[ comb 0 0 ]};
                     Sweep.completed := ∅; Sweep.canceled := ∅ |};
       pool := [{| t_comb := comb 0 0; t_host := "node-1"; t_alive := true |}];
       reports := []; oargrid_job_id := Some 42; log := [] |}
    [tick [] true; tick [] true; tick [(0%nat, false)] true; tick [] true].

(** [-n 1], two free hosts: the job is dead at the test of line 208 while
    thread 0 runs. *)
Definition dead_at_the_test : Res Locals * World * Script :=
  dispatch_loop Sweep.first_order (opts 1 false) 10
    (fresh ["node-1"; "node-2"]) (defined two_params)
    [tick [] true; tick [] false].

(** A whole run in which the job dies while a workflow runs. *)
Definition job_dies_script : Script :=
  [tick [] true; tick [] true; tick [] true; tick [] true; tick [] true;
   tick [] true; tick [] false].

Definition job_dies_run : Res unit * World * Script :=
  run Sweep.first_order (opts 2 false) two_params 10 init job_dies_script.

End Scenario.


(** ** Runs at the edges *)

Module Edge.

(** A call that raises. *)
Definition failing : Tick :=
  {| finished := []; raises := true; alive := true; job := 42; nodes := [] |}.

(** One free slot and [-n 2]: the loop polls until the job dies. *)
Definition starved : Res Locals * World * Script :=
  dispatch_loop Sweep.first_order (Scenario.opts 2 false) 10
    (Scenario.fresh ["node-1"]) (Scenario.defined Scenario.two_params)
    [Scenario.tick [] true; Scenario.tick [] true; Scenario.tick [] true;
     Scenario.tick [] true; Scenario.tick [] false].

(** [-n 0] and no free slot. *)
Definition no_limit : Res (Ctl Locals) * World * Script :=
  dispatch Sweep.first_order (Scenario.opts 0 false) 1
    (Scenario.fresh []) (Scenario.defined Scenario.two_params)
    [Scenario.tick [] true].

(** The first call of a turn raises. *)
Definition call_raises : Res (Ctl Locals) * World * Script :=
  dispatch Sweep.first_order (Scenario.opts 2 false) 10
    (Scenario.fresh ["node-1"; "node-2"])
    (Scenario.defined Scenario.two_params) [failing].

(** A body of [workflow] in which no call raises and every file comes
    back. *)
Definition all_well : Workflow.Env :=
  {| Workflow.fails := λ _, false; Workflow.mkdir_fails := false;
     Workflow.get_ok := [true; true] |}.

(** One turn of the outer loop in which the job is found dead. *)
Definition job_lost : Res (Ctl bool) * World * Script :=
  reserve_and_dispatch Sweep.first_order (Scenario.opts 2 false) 10 false
    (Scenario.defined Scenario.two_params)
    [Scenario.tick [] true; Scenario.tick [] true; Scenario.tick [] true;
     Scenario.tick [] true; Scenario.tick [] false; Scenario.tick [] false].

(** [-n 0] and one slot: the first workflow fails before the second
    turn. *)
Definition slot_lost : Res Locals * World * Script :=
  dispatch_loop Sweep.first_order (Scenario.opts 0 false) 10
    (Scenario.fresh ["node-1"]) (Scenario.defined Scenario.two_params)
    [Scenario.tick [] true; Scenario.tick [(0%nat, false)] true].



Definition one_started : Locals :=
  {| job_is_dead := false; threads := [(0%nat, "node-1")];
     available_hosts := ["node-2"] |}.

End Edge.

(** The files around [replaceWord]: a template with the two words that
    [workflow] replaces. *)
Module Conf.

Definition template : Str.str :=
  Str.of_string "trace = TRACE_FILE
xml = XML_FILE
out = TRACE_FILE.out".

Definition files : Str.Files :=
  {[ "sgcb_ntier_1.conf.tmp" := template ]}.

Definition word : Str.str := Str.of_string "TRACE_FILE".

Definition trace : Str.str := Str.of_string "ntier_1".

(** A word that reaches across the end of a line. *)
Definition two_lines : Str.str := Str.of_string "TRACE_FILE
xml".

End Conf.

(** ** The storage benchmark as a whole ([prototype.py]) *)

Module Prototype.

(** Lines 9-10. *)
Definition storage_site : string := "rennes".
Definition distant_site : string := "nancy".

(** The calls that leave the script, with their arguments. *)
Inductive Call :=
| SshProcess (cmd : string) (host : string)
| Oarsub (site : string)
| GetOarJobNodes (job : option Z) (site : string)
| DeployNodes (hosts : list string)
| Oardel (jobs : list (option Z * string)).

(** How the script may end other than at its last line.  [CallError]
    stands for whatever a call that leaves the script raises. *)
Inductive Exn :=
| ValueError
| ZeroDivisionError
| NameError
| IndexError
| SystemExit
| CallError.

Inductive Result (A : Type) :=
| Ok (a : A)
| Error (e : Exn).
Arguments Ok {A} a.
Arguments Error {A} e.

(** The script threads the record of the calls it made. *)
Definition Run (A : Type) : Type := list Call → Result A * list Call.

#[global] Instance Run_ret : MRet Run := λ A a calls, (Ok a, calls).

#[global] Instance Run_bind : MBind Run := λ A B k m calls,
  match m calls with
  | (Ok a, calls) => k a calls
  | (Error e, calls) => (Error e, calls)
  end.

#[global] Instance Call_eq_dec : EqDecision Call.
Proof. solve_decision. Defined.

#[global] Instance Exn_eq_dec : EqDecision Exn.
Proof. solve_decision. Defined.

#[global] Instance Result_eq_dec {A} `{EqDecision A} : EqDecision (Result A).
Proof. solve_decision. Defined.

(** What the environment answers to each call of the script, in the order
    of the calls; [None]: the call raises.  [oarsub_job] is [jobs[0][0]],
    which [oarsub] leaves at [None] when the submission failed. *)
Record Env := {
  user : string;
  chunk_size_out : option Str.str;
  get_storage_out : option Str.str;
  oarsub_job : option (option Z);
  job_nodes : option (list string);
  deployed : option (list string);
  mount_out : option Str.str;
  bench_write_out : option Str.str;
  bench_read_out : option Str.str;
  oardel_ok : option unit
}.

(** A call that leaves the script. *)
Definition ext {A} (c : Call) (answer : option A) : Run A := λ calls,
  (match answer with Some a => Ok a | None => Error CallError end,
   calls ++ [c]).

(** An operation of the language that raises [e] when it has no value. *)
Definition check {A} (e : Exn) (o : option A) : Run A := λ calls,
  (match o with Some a => Ok a | None => Error e end, calls).

Definition throw {A} (e : Exn) : Run A := λ calls, (Error e, calls).

Definition lift {A} (r : Result A) : Run A := λ calls, (r, calls).

(** [try: body finally: final] *)
Definition try_finally {A} (body : Run A) (final : Run unit) : Run A :=
  λ calls,
  let '(r, calls) := body calls in
  match final calls with
  | (Ok _, calls) => (r, calls)
  | (Error e, calls) => (Error e, calls)
  end.

(** The command lines of lines 14, 46, 51 and 58 (that of line 18 is
    [Benchmark.get_storage]). *)
Definition chunk_size_cmd : string :=
  "storage5k -a chunk_size | cut -f 4 -d ' '".

Definition mount_cmd (user : string) (storage_job_id : Z) : string :=
  "mount storage5k." +:+ storage_site +:+ ".grid5000.fr:data/" +:+ user
  +:+ "_" +:+ pretty storage_job_id +:+ " /mnt/".

Definition dd_write : string :=
  "dd if=/dev/zero of=/mnt/test.out bs=64M count=200 conv=fdatasync oflag=direct".

Definition dd_read : string :=
  "dd if=/mnt/test.out of=/dev/null bs=64M count=200 conv=fdatasync iflag=direct".

(** Line 21: [int(s.split('=')[1])]. *)
Definition job_id_of (s : Str.str) : Result Z :=
  match Str.split Str.equals s !! 1%nat with
  | None => Error IndexError
  | Some f =>
      match Str.int f with
      | None => Error ValueError
      | Some z => Ok z
      end
  end.

(** Lines 19-22: the loop over the lines of the answer; [storage_job_id]
    is bound by the first line that holds [OAR_JOB_ID], and stays unbound
    ([None]) when there is none. *)
Fixpoint find_job_id (lines : list Str.str) : Result (option Z) :=
  match lines with
  | [] => Ok None
  | s :: rest =>
      if Str.contains (Str.of_string "OAR_JOB_ID") s then
        match job_id_of s with
        | Ok z => Ok (Some z)
        | Error e => Error e
        end
      else find_job_id rest
  end.

(** Lines 53 and 60: [stdout.strip().split('\n')[-1].split()[7]], the
    eighth word of the last line. *)
Definition throughput (out : Str.str) : option Str.str :=
  line ← last (Str.split Str.nl (Str.strip out));
  Str.split_ws line !! 7%nat.

(** Lines 14-35: the two reservations.  The result is [storage_job_id],
    [jobs[0][0]] and [hosts]. *)
Definition reservations (env : Env) : Run (Z * option Z * list string) :=
  out ← ext (SshProcess chunk_size_cmd storage_site) (chunk_size_out env);
  chunk_size ← check ValueError (Str.int (drop 1 out));
  cmd ← check ZeroDivisionError (Benchmark.get_storage chunk_size);
  out ← ext (SshProcess cmd storage_site) (get_storage_out env);
  found ← lift (find_job_id (Str.split Str.nl out));
  storage_job_id ← check NameError found;
  job ← ext (Oarsub distant_site) (oarsub_job env);
  hosts ← ext (GetOarJobNodes job distant_site) (job_nodes env);
  _ ← check IndexError (head hosts);
  mret (storage_job_id, job, hosts).

(** Lines 40-62: the body of the [try]. *)
Definition benchmark (env : Env) (storage_job_id : Z)
    (hosts : list string) : Run unit :=
  hosts ← ext (DeployNodes hosts) (deployed env);
  match hosts with
  | [] => throw SystemExit
  | host :: _ =>
      _ ← ext (SshProcess (mount_cmd (user env) storage_job_id) host)
              (mount_out env);
      out ← ext (SshProcess dd_write host) (bench_write_out env);
      _ ← check IndexError (throughput out);
      out ← ext (SshProcess dd_read host) (bench_read_out env);
      _ ← check IndexError (throughput out);
      mret tt
  end.

(** Lines 64-67: the [finally] clause. *)
Definition teardown (env : Env) (storage_job_id : Z) (job : option Z) :
    Run unit :=
  ext (Oardel [(Some storage_job_id, storage_site); (job, distant_site)])
      (oardel_ok env).

(** The script. *)
Definition main (env : Env) : Run unit :=
  r ← reservations env;
  let '(storage_job_id, job, hosts) := r in
  try_finally (benchmark env storage_job_id hosts)
              (teardown env storage_job_id job).

Definition is_oardel (c : Call) : bool :=
  match c with
  | Oardel _ => true
  | _ => false
  end.

End Prototype.

(** Runs of the benchmark. *)
Module Bench.
Import Prototype.

(** What [dd] reports at its end. *)
Definition dd_summary : Str.str := Str.of_string "200+0 records in
200+0 records out
13421772800 bytes (13 GB) copied, 120.5 s, 111 MB/s
".

(** A run in which everything answers. *)
Definition well : Env :=
  {| user := "alice";
     chunk_size_out := Some (Str.of_string "=10
");
     get_storage_out := Some (Str.of_string "[ADMISSION RULE] Modify resource description
OAR_JOB_ID=4242
");
     oarsub_job := Some (Some 77);
     job_nodes := Some ["graphene-1.nancy.grid5000.fr"];
     deployed := Some ["graphene-1.nancy.grid5000.fr"];
     mount_out := Some [];
     bench_write_out := Some dd_summary;
     bench_read_out := Some dd_summary;
     oardel_ok := Some tt |}.

(** The node job has no node. *)
Definition no_node : Env :=
  {| user := user well; chunk_size_out := chunk_size_out well;
     get_storage_out := get_storage_out well;
     oarsub_job := Some None; job_nodes := Some [];
     deployed := deployed well; mount_out := mount_out well;
     bench_write_out := bench_write_out well;
     bench_read_out := bench_read_out well; oardel_ok := oardel_ok well |}.

(** Both jobs are there and [get_oar_job_nodes] raises. *)
Definition nodes_unknown : Env :=
  {| user := user well; chunk_size_out := chunk_size_out well;
     get_storage_out := get_storage_out well;
     oarsub_job := oarsub_job well; job_nodes := None;
     deployed := deployed well; mount_out := mount_out well;
     bench_write_out := bench_write_out well;
     bench_read_out := bench_read_out well; oardel_ok := oardel_ok well |}.

(** The deployment leaves no host. *)
Definition none_deployed : Env :=
  {| user := user well; chunk_size_out := chunk_size_out well;
     get_storage_out := get_storage_out well;
     oarsub_job := oarsub_job well; job_nodes := job_nodes well;
     deployed := Some []; mount_out := mount_out well;
     bench_write_out := bench_write_out well;
     bench_read_out := bench_read_out well; oardel_ok := oardel_ok well |}.

(** The storage site reports a chunk size of zero. *)
Definition zero_size : Env :=
  {| user := user well; chunk_size_out := Some (Str.of_string "=0
");
     get_storage_out := get_storage_out well;
     oarsub_job := oarsub_job well; job_nodes := job_nodes well;
     deployed := deployed well; mount_out := mount_out well;
     bench_write_out := bench_write_out well;
     bench_read_out := bench_read_out well; oardel_ok := oardel_ok well |}.

(** The storage request is refused: no line of the answer holds
    [OAR_JOB_ID]. *)
Definition refused : Env :=
  {| user := user well; chunk_size_out := chunk_size_out well;
     get_storage_out := Some (Str.of_string "[ADMISSION RULE] Modify resource description
There are not enough resources for your request
");
     oarsub_job := oarsub_job well; job_nodes := job_nodes well;
     deployed := deployed well; mount_out := mount_out well;
     bench_write_out := bench_write_out well;
     bench_read_out := bench_read_out well; oardel_ok := oardel_ok well |}.

End Bench.
(** ** Properties of the sweep queue *)

Module SweepFacts.
Import Sweep SweepSpec.

Lemma wf_new sweeps : wf (list_to_set sweeps) (new sweeps).
Proof. unfold wf, new; simpl. set_solver. Qed.

Lemma wf_in_exactly_one U sw c : wf U sw → c ∈ U → in_exactly_one c sw.
Proof.
  unfold wf, in_exactly_one. intros (HU & H1 & H2 & H3 & H4 & H5 & H6) Hc.
  rewrite <- HU in Hc. rewrite !elem_of_union in Hc.
  destruct Hc as [[[Hc|Hc]|Hc]|Hc].
  - left. repeat split; [done|..]; intros Hx; [eapply H1|eapply H2|eapply H3]; eauto.
  - right; left. repeat split; [|done|..]; intros Hx; [eapply H1|eapply H4|eapply H5]; eauto.
  - do 2 right; left. repeat split; [| |done|]; intros Hx; [eapply H2|eapply H4|eapply H6]; eauto.
  - do 3 right. repeat split; [| | |done]; intros Hx; [eapply H3|eapply H5|eapply H6]; eauto.
Qed.

Lemma get_next_some ord sw c sw' :
  get_next ord sw = (Some c, sw') →
  c ∈ remaining sw ∧
  sw' = {| remaining := remaining sw ∖ {[c]};
           inprogress := inprogress sw ∪ {[c]};
           completed := completed sw; canceled := canceled sw |}.
Proof.
  unfold get_next. destruct (pick ord (remaining sw)) as [c'|] eqn:E; [|done].
  intros [= -> <-]. split; [by apply pick_elem in E|done].
Qed.

Lemma get_next_none ord sw sw' :
  get_next ord sw = (None, sw') → remaining sw = ∅ ∧ sw' = sw.
Proof.
  unfold get_next. destruct (pick ord (remaining sw)) as [c'|] eqn:E; [done|].
  intros [= <-]. split; [by apply pick_none in E|done].
Qed.

Lemma wf_get_next ord U sw c sw' :
  wf U sw → get_next ord sw = (c, sw') → wf U sw'.
Proof.
  intros Hwf H. destruct c as [c|].
  - apply get_next_some in H as [Hc ->]. unfold wf in *; simpl.
    destruct Hwf as (HU & H1 & H2 & H3 & H4 & H5 & H6).
    split; [|set_solver]. rewrite <- HU.
    apply set_eq. intros x. destruct (decide (x = c)); set_solver.
  - apply get_next_none in H as [_ ->]. done.
Qed.

Lemma wf_done U sw c sw' : wf U sw → done sw c = Some sw' → wf U sw'.
Proof.
  unfold done. case_decide; [|done]. intros Hwf [= <-].
  unfold wf in *; simpl. destruct Hwf as (HU & H1 & H2 & H3 & H4 & H5 & H6).
  split; [|set_solver]. rewrite <- HU.
  apply set_eq. intros x. destruct (decide (x = c)); set_solver.
Qed.

Lemma wf_cancel U sw c sw' : wf U sw → cancel sw c = Some sw' → wf U sw'.
Proof.
  unfold cancel. case_decide; [|done]. intros Hwf [= <-].
  unfold wf in *; simpl. destruct Hwf as (HU & H1 & H2 & H3 & H4 & H5 & H6).
  split; [|set_solver]. rewrite <- HU.
  apply set_eq. intros x. destruct (decide (x = c)); set_solver.
Qed.

(** The count that [define_parameters] logs (line 69) for the dictionary of
    lines 60-65: 1 * 3 * 5 * 3 * 3 combinations. *)
Example sweep_parameters_count : length (sweep parameters) = 135%nat.
Proof. by vm_compute. Qed.

End SweepFacts.

(** ** Reasoning about computations in [M] *)

Lemma bind_inv {A B} (m : M A) (k : A → M B) w s r w' s' :
  (m ≫= k) w s = (r, w', s') →
  (∃ a w1 s1, m w s = (Ret a, w1, s1) ∧ k a w1 s1 = (r, w', s')) ∨
  (m w s = (Raise, w', s') ∧ r = Raise) ∨
  (m w s = (Blocked, w', s') ∧ r = Blocked).
Proof.
  unfold mbind, M_bind. destruct (m w s) as [[[a| |] w1] s1]; intros H.
  - left. eauto.
  - right; left. by inversion H.
  - right; right. by inversion H.
Qed.

Lemma call_inv {A} (answer : Tick → A) (event : A → Event) w s r w' s' :
  call answer event w s = (r, w', s') →
  (s = [] ∧ r = Blocked ∧ w' = w ∧ s' = []) ∨
  (∃ t, s = t :: s' ∧ raises t = true ∧ r = Raise ∧
        w' = record (Raised (event (answer t))) (foldl finish w (finished t))) ∨
  (∃ t, s = t :: s' ∧ raises t = false ∧ r = Ret (answer t) ∧
        w' = record (event (answer t)) (foldl finish w (finished t))).
Proof.
  unfold call. destruct s as [|t s0]; [intros [= <- <- <-]; by left|].
  destruct (raises t) eqn:E; intros [= <- <- <-]; right; [left|right]; eauto.
Qed.

Lemma gets_inv {A} (f : World → A) w s r w' s' :
  gets f w s = (r, w', s') → r = Ret (f w) ∧ w' = w ∧ s' = s.
Proof. by intros [= <- <- <-]. Qed.

Lemma gets_ret_inv {A} (f : World → A) w s a w' s' :
  gets f w s = (Ret a, w', s') → a = f w ∧ w' = w ∧ s' = s.
Proof. by intros [= <- <- <-]. Qed.

Lemma modify_inv f w s r w' s' :
  modify f w s = (r, w', s') → r = Ret tt ∧ w' = f w ∧ s' = s.
Proof. by intros [= <- <- <-]. Qed.

Lemma ret_inv {A} (a : A) w s r w' s' :
  mret (M := M) a w s = (r, w', s') → r = Ret a ∧ w' = w ∧ s' = s.
Proof. by intros [= <- <- <-]. Qed.

(** Splits a hypothesis [(m ≫= k) w s = (r, w', s')]. *)
Ltac bind_cases H a w1 s1 H1 :=
  let E := fresh "E" in
  apply bind_inv in H as [(a & w1 & s1 & H1 & H) | [[H E] | [H E]]];
  [ | try discriminate E; first [subst | idtac] .. ].

(** Splits a hypothesis [call answer event w s = (r, w', s')]. *)
Ltac call_cases H t :=
  apply call_inv in H as
    [(-> & -> & -> & ->) | [(t & -> & ? & -> & ->) | (t & -> & ? & -> & ->)]].

(** ** The invariant is kept by every step of the engine *)

Section invariant.
Context (U : gset Comb).
Import Sweep SweepSpec SweepFacts.

Lemma workflow_in_progress c ok sw :
  c ∈ inprogress sw →
  workflow c ok sw =
    {| remaining := remaining sw;
       inprogress := inprogress sw ∖ {[c]};
       completed := if ok then completed sw ∪ {[c]} else completed sw;
       canceled := if ok then canceled sw else canceled sw ∪ {[c]} |}.
Proof.
  intros Hc. unfold workflow, done, cancel.
  destruct ok; rewrite decide_True by done; done.
Qed.

Lemma wf_workflow c ok sw : wf U sw → wf U (workflow c ok sw).
Proof.
  intros Hwf. unfold workflow.
  destruct ok.
  - destruct (done sw c) eqn:E; [by eapply wf_done|done].
  - destruct (cancel sw c) eqn:E; [by eapply wf_cancel|done].
Qed.

Lemma Inv_finish w f : Inv U w → Inv U (finish w f).
Proof.
  intros HI. destruct f as [t ok]. unfold finish; simpl.
  destruct (pool w !! t) as [th|] eqn:Ht; [|done].
  destruct (t_alive th) eqn:Hal; [|done].
  pose proof (inv_alive HI _ _ Ht Hal) as Hin.
  assert (Hsame : t_comb <$> <[t:={| t_comb := t_comb th; t_host := t_host th;
                                    t_alive := false |}]> (pool w)
                  = t_comb <$> pool w).
  { rewrite list_fmap_insert. simpl. apply list_insert_id.
    by rewrite list_lookup_fmap, Ht. }
  split; simpl.
  - apply wf_workflow, HI.
  - rewrite Hsame. apply HI.
  - intros t' th' Ht' Hal'.
    destruct (decide (t' = t)) as [->|Hne].
    { rewrite list_lookup_insert_eq in Ht' by (by eapply lookup_lt_Some).
      inversion Ht'; subst. done. }
    rewrite list_lookup_insert_ne in Ht' by done.
    rewrite workflow_in_progress by done. simpl.
    apply elem_of_difference. split; [by eapply (inv_alive HI)|].
    rewrite elem_of_singleton. intros Heq.
    apply Hne. eapply NoDup_lookup; [apply (inv_nodup HI)|..].
    + rewrite list_lookup_fmap, Ht'. simpl. by rewrite Heq.
    + by rewrite list_lookup_fmap, Ht.
  - rewrite Hsame, workflow_in_progress by done. simpl. apply HI.
  - intros t' ok' Hr. apply elem_of_app in Hr as [Hr|Hr].
    + destruct (inv_reports HI _ _ Hr) as (th' & Ht' & Hd & Hc).
      assert (t' ≠ t) by (intros ->; congruence).
      exists th'. rewrite list_lookup_insert_ne by done.
      split; [done|]. split; [done|].
      rewrite workflow_in_progress by done. simpl.
      destruct ok', ok; set_solver.
    + apply list_elem_of_singleton in Hr. inversion Hr; subst.
      eexists. rewrite list_lookup_insert_eq by (by eapply lookup_lt_Some).
      split; [done|]. simpl. split; [done|].
      rewrite workflow_in_progress by done. simpl.
      destruct ok; set_solver.
  - apply HI.
  - rewrite workflow_in_progress by done. simpl. apply HI.
Qed.

Lemma Inv_finishes w fs : Inv U w → Inv U (foldl finish w fs).
Proof.
  revert w. induction fs as [|f fs IH]; intros w HI; simpl; [done|].
  apply IH, Inv_finish, HI.
Qed.

Lemma pulled_snoc l e : pulled (l ++ [e]) = pulled l ++ option_list (pull e).
Proof.
  unfold pulled. rewrite omap_app. simpl. by destruct (pull e).
Qed.

Lemma Inv_record w e : pull e = None → Inv U w → Inv U (record e w).
Proof.
  intros He HI. split; simpl; try apply HI.
  - rewrite pulled_snoc, He. simpl. rewrite app_nil_r. apply HI.
  - rewrite pulled_snoc, He. simpl. rewrite app_nil_r. apply HI.
Qed.

Lemma Inv_call {A} (answer : Tick → A) event w s r w' s' :
  (∀ a, pull (event a) = None) →
  Inv U w → call answer event w s = (r, w', s') → Inv U w'.
Proof.
  intros He HI H. call_cases H t; [done|..];
    (apply Inv_record; [done || apply He|apply Inv_finishes, HI]).
Qed.

Lemma Inv_set_job_id j w s r w' s' :
  Inv U w → set_job_id j w s = (r, w', s') → Inv U w'.
Proof. intros HI [= <- <- <-]. split; simpl; apply HI. Qed.

Lemma Inv_get_next ord w s r w' s' :
  Inv U w → sweeper_get_next ord w s = (r, w', s') →
  Inv U w' ∧ s' = s ∧ pool w' = pool w ∧
  ∃ c, r = Ret c ∧
    ∀ c', c = Some c' →
      c' ∈ inprogress (sweeper w') ∧ c' ∉ t_comb <$> pool w'.
Proof.
  intros HI. unfold sweeper_get_next.
  destruct (Sweep.get_next ord (sweeper w)) as [c sw] eqn:E.
  intros [= <- <- <-].
  assert (Hnext : ∀ c', c = Some c' →
    c' ∈ remaining (sweeper w) ∧
    remaining sw = remaining (sweeper w) ∖ {[c']} ∧
    inprogress sw = inprogress (sweeper w) ∪ {[c']} ∧
    completed sw = completed (sweeper w) ∧ canceled sw = canceled (sweeper w)).
  { intros c' ->. apply get_next_some in E as [? ->]. done. }
  assert (Hnone : c = None → sw = sweeper w).
  { intros ->. by apply get_next_none in E as [_ ->]. }
  split; [|split; [done|split; [done|]]].
  - split; simpl.
    + eapply wf_get_next; [apply HI|done].
    + apply HI.
    + intros t th Ht Hal. destruct c as [c'|].
      * destruct (Hnext c' eq_refl) as (_ & _ & -> & _).
        apply elem_of_union_l. by eapply (inv_alive HI).
      * rewrite Hnone by done. by eapply (inv_alive HI).
    + intros c0 Hc0. destruct c as [c'|].
      * destruct (Hnext c' eq_refl) as (_ & -> & _).
        intros Hx. apply elem_of_difference in Hx as [Hx _].
        by eapply (inv_started HI).
      * rewrite Hnone by done. by eapply (inv_started HI).
    + intros t ok Hr. destruct (inv_reports HI _ _ Hr) as (th & ? & ? & Hc).
      exists th. split; [done|]. split; [done|].
      destruct c as [c'|].
      * destruct (Hnext c' eq_refl) as (_ & _ & _ & -> & ->). done.
      * rewrite Hnone by done. done.
    + rewrite pulled_snoc. destruct c as [c'|]; simpl.
      * apply NoDup_app. split; [apply HI|]. split; [|apply NoDup_singleton].
        intros x Hx Hx'. apply list_elem_of_singleton in Hx'. subst x.
        destruct (Hnext c' eq_refl) as (Hrem & _).
        by eapply (inv_pulled_rem HI).
      * rewrite app_nil_r. apply HI.
    + intros c0. rewrite pulled_snoc. destruct c as [c'|]; simpl.
      * destruct (Hnext c' eq_refl) as (_ & -> & _).
        intros Hx Hy. apply elem_of_difference in Hy as [Hy Hne].
        apply elem_of_app in Hx as [Hx|Hx].
        -- by eapply (inv_pulled_rem HI).
        -- apply list_elem_of_singleton in Hx. subst. apply Hne.
           by apply elem_of_singleton.
      * rewrite app_nil_r, Hnone by done. by apply (inv_pulled_rem HI).
  - exists c. split; [done|]. intros c' ->. simpl.
    destruct (Hnext c' eq_refl) as (Hrem & _ & -> & _).
    split; [set_solver|]. intros Hx. by eapply (inv_started HI).
Qed.

Lemma Inv_start c host w s r w' s' :
  Inv U w → c ∈ inprogress (sweeper w) → c ∉ t_comb <$> pool w →
  start c host w s = (r, w', s') → Inv U w'.
Proof.
  intros HI Hc Hnew [= <- <- <-].
  assert (Hrem : c ∉ remaining (sweeper w)).
  { destruct (inv_wf HI) as (_ & Hd & _). intros Hx. by eapply Hd. }
  split; simpl.
  - apply HI.
  - rewrite fmap_app. simpl. apply NoDup_app. split; [apply HI|].
    split; [|apply NoDup_singleton].
    intros x Hx Hx'. apply list_elem_of_singleton in Hx'. by subst.
  - intros t th Ht Hal.
    apply lookup_app_Some in Ht as [Ht|[_ Ht]]; [by eapply (inv_alive HI)|].
    apply list_lookup_singleton_Some in Ht as [_ <-]. done.
  - intros c0. rewrite fmap_app. simpl. intros Hx.
    apply elem_of_app in Hx as [Hx|Hx]; [by eapply (inv_started HI)|].
    apply list_elem_of_singleton in Hx. by subst.
  - intros t ok Hr. destruct (inv_reports HI _ _ Hr) as (th & Ht & ? & ?).
    exists th. split; [|done]. by apply lookup_app_l_Some.
  - rewrite pulled_snoc. simpl. rewrite app_nil_r. apply HI.
  - intros c0. rewrite pulled_snoc. simpl. rewrite app_nil_r. apply HI.
Qed.

End invariant.

(** Closes a goal [Inv U w'] from a call [H] made under the invariant. *)
Ltac by_call H := eapply Inv_call in H; [exact H|done..].

Section engine_invariant.
Context (U : gset Comb) (ord : Sweep.Order) (options : Options).

Lemma Inv_wait_for_hosts fuel thr av w s r w' s' :
  Inv U w → wait_for_hosts options fuel thr av w s = (r, w', s') → Inv U w'.
Proof.
  revert thr av w s. induction fuel as [|fuel IH]; intros thr av w s HI H.
  { by inversion H; subst. }
  cbn [wait_for_hosts] in H. case_bool_decide.
  - bind_cases H p w1 s1 H1; [|done..].
    apply gets_inv in H1 as (_ & -> & ->).
    destruct (reclaim _ _ _ _) as [thr1 av1].
    bind_cases H u w2 s2 H2; [|by_call H..].
    eapply Inv_call in H2; [|done..].
    bind_cases H a w3 s3 H3; [|by_call H..].
    eapply Inv_call in H3; [|done..].
    destruct (negb a).
    + by apply ret_inv in H as (_ & -> & _).
    + by eapply IH.
  - by apply ret_inv in H as (_ & -> & _).
Qed.

Lemma Inv_drain fuel thr w s r w' s' :
  Inv U w → drain fuel thr w s = (r, w', s') → Inv U w'.
Proof.
  revert thr w s. induction fuel as [|fuel IH]; intros thr w s HI H.
  { by inversion H; subst. }
  cbn [drain] in H. case_bool_decide.
  - bind_cases H p w1 s1 H1; [|done..].
    apply gets_inv in H1 as (_ & -> & ->).
    bind_cases H u w2 s2 H2; [|by_call H..].
    eapply Inv_call in H2; [|done..].
    by eapply IH.
  - by apply ret_inv in H as (_ & -> & _).
Qed.

Lemma Inv_dispatch fuel l w s r w' s' :
  Inv U w → dispatch ord options fuel l w s = (r, w', s') → Inv U w'.
Proof.
  intros HI H. unfold dispatch in H.
  bind_cases H a w1 s1 H1; [|by_call H..].
  eapply Inv_call in H1; [|done..].
  destruct (a || _); [|by apply ret_inv in H as (_ & -> & _)].
  bind_cases H l1 w2 s2 H2; [|by eapply Inv_wait_for_hosts..].
  eapply Inv_wait_for_hosts in H2; [|done].
  destruct (job_is_dead l1); [by apply ret_inv in H as (_ & -> & _)|].
  bind_cases H comb w3 s3 H3.
  - eapply Inv_get_next in H3 as (HI3 & -> & Hpool & c & [= <-] & Hc); [|done].
    destruct (not_comb comb).
    + bind_cases H thr w4 s4 H4; [|by eapply Inv_drain..].
      eapply Inv_drain in H4; [|done].
      by apply ret_inv in H as (_ & -> & _).
    + destruct comb as [c'|]; [|by inversion H; subst].
      destruct (available_hosts l1) as [|host rest]; [by inversion H; subst|].
      destruct (Hc c' eq_refl) as [Hin Hnew].
      bind_cases H t w4 s4 H4.
      * eapply Inv_start in H4; [|done..].
        by apply ret_inv in H as (_ & -> & _).
      * by eapply Inv_start.
      * by eapply Inv_start.
  - by eapply Inv_get_next in H as (? & _).
  - by eapply Inv_get_next in H as (? & _).
Qed.

Lemma Inv_dispatch_loop fuel l w s r w' s' :
  Inv U w → dispatch_loop ord options fuel l w s = (r, w', s') → Inv U w'.
Proof.
  revert l w s. induction fuel as [|fuel IH]; intros l w s HI H.
  { by inversion H; subst. }
  cbn [dispatch_loop] in H.
  bind_cases H c w1 s1 H1; [|by eapply Inv_dispatch..].
  eapply Inv_dispatch in H1; [|done].
  destruct c as [l1|l1].
  - by eapply IH.
  - by apply ret_inv in H as (_ & -> & _).
Qed.

Lemma Inv_make_reservation w s r w' s' :
  Inv U w → make_reservation w s = (r, w', s') → Inv U w'.
Proof.
  intros HI H. unfold make_reservation in H.
  bind_cases H j w1 s1 H1; [|by_call H..].
  eapply Inv_call in H1; [|done..].
  by eapply Inv_set_job_id.
Qed.

Lemma Inv_reserve_and_dispatch fuel dead w s r w' s' :
  Inv U w →
  reserve_and_dispatch ord options fuel dead w s = (r, w', s') → Inv U w'.
Proof.
  intros HI H. unfold reserve_and_dispatch in H.
  bind_cases H sw w1 s1 H1; [|done..].
  apply gets_inv in H1 as (_ & -> & ->).
  case_bool_decide; [|by apply ret_inv in H as (_ & -> & _)].
  bind_cases H j w1 s1 H1; [|done..].
  apply gets_ret_inv in H1 as (-> & -> & ->).
  assert (∀ r w1 s1,
    (if oargrid_job_id w is None then make_reservation else mret ()) w s
      = (r, w1, s1) → Inv U w1) as Hres.
  { intros r0 w1 s1. destruct (oargrid_job_id w).
    - by intros (_ & -> & _)%ret_inv.
    - by apply Inv_make_reservation. }
  bind_cases H u w1 s1 H1; [|by eapply Hres..].
  apply Hres in H1. clear Hres HI.
  bind_cases H j w2 s2 H2; [|done..].
  apply gets_ret_inv in H2 as (-> & -> & ->).
  bind_cases H u2 w2 s2 H2; [|by_call H..].
  eapply Inv_call in H2; [|done..].
  bind_cases H u3 w3 s3 H3; [|by_call H..].
  eapply Inv_call in H3; [|done..].
  bind_cases H hosts w4 s4 H4; [|by_call H..].
  eapply Inv_call in H4; [|done..].
  case_bool_decide; [by apply ret_inv in H as (_ & -> & _)|].
  bind_cases H l w5 s5 Hl; [|by eapply Inv_dispatch_loop..].
  eapply Inv_dispatch_loop in Hl; [|done].
  bind_cases H a w6 s6 Ha; [|by_call H..].
  eapply Inv_call in Ha; [|done..].
  bind_cases H u7 w7 s7 Hj.
  - apply ret_inv in H as (_ & -> & _).
    destruct (if negb a then true else job_is_dead l).
    + by eapply Inv_set_job_id.
    + by apply ret_inv in Hj as (_ & -> & _).
  - destruct (if negb a then true else job_is_dead l); by inversion H.
  - destruct (if negb a then true else job_is_dead l); by inversion H.
Qed.

Lemma Inv_sweep_loop fuel dead w s r w' s' :
  Inv U w → sweep_loop ord options fuel dead w s = (r, w', s') → Inv U w'.
Proof.
  revert dead w s. induction fuel as [|fuel IH]; intros dead w s HI H.
  { by inversion H; subst. }
  cbn [sweep_loop] in H.
  bind_cases H c w1 s1 H1; [|by eapply Inv_reserve_and_dispatch..].
  eapply Inv_reserve_and_dispatch in H1; [|done].
  destruct c as [d|d].
  - by eapply IH.
  - by apply ret_inv in H as (_ & -> & _).
Qed.

Lemma Inv_release w s r w' s' :
  Inv U w → release options w s = (r, w', s') → Inv U w'.
Proof.
  intros HI H. unfold release in H.
  bind_cases H j w1 s1 H1; [|done..].
  apply gets_ret_inv in H1 as (-> & -> & ->).
  destruct (oargrid_job_id w); [|by apply ret_inv in H as (_ & -> & _)].
  destruct (negb _); [by_call H|by apply ret_inv in H as (_ & -> & _)].
Qed.

Lemma try_finally_inv {A} (body : M A) final w s r w' s' :
  try_finally body final w s = (r, w', s') →
  (body w s = (Blocked, w', s') ∧ r = Blocked) ∨
  ∃ r1 w1 s1 r2, body w s = (r1, w1, s1) ∧ r1 ≠ Blocked ∧
    final w1 s1 = (r2, w', s') ∧
    r = match r2 with Ret _ => r1 | Raise => Raise | Blocked => Blocked end.
Proof.
  unfold try_finally. destruct (body w s) as [[r1 w1] s1].
  destruct r1 as [a| |].
  - destruct (final w1 s1) as [[r2 w2] s2] eqn:E.
    intros H. right. exists (Ret a), w1, s1, r2.
    destruct r2; inversion H; subst; done.
  - destruct (final w1 s1) as [[r2 w2] s2] eqn:E.
    intros H. right. exists Raise, w1, s1, r2.
    destruct r2; inversion H; subst; done.
  - intros [= <- <- <-]. by left.
Qed.

End engine_invariant.

Lemma Inv_define_parameters parameters w :
  pool w = [] → reports w = [] → log w = [] →
  Inv (list_to_set (Sweep.sweep parameters))
      (set_sweeper (Sweep.new (Sweep.sweep parameters)) w).
Proof.
  intros Hp Hr Hl. split; simpl; rewrite ?Hp, ?Hr, ?Hl; simpl.
  - apply SweepFacts.wf_new.
  - constructor.
  - intros t th Ht. done.
  - intros c Hc. by apply elem_of_nil in Hc.
  - intros t ok Hc. by apply elem_of_nil in Hc.
  - constructor.
  - intros c Hc. by apply elem_of_nil in Hc.
Qed.

(** The invariant holds wherever a run stands. *)
Lemma Inv_run ord options parameters fuel s r w' s' :
  run ord options parameters fuel init s = (r, w', s') →
  Inv (list_to_set (Sweep.sweep parameters)) w'.
Proof.
  intros H. unfold run in H.
  bind_cases H u w1 s1 H1; [|done..].
  apply modify_inv in H1 as (_ & -> & ->).
  apply try_finally_inv in H as [[H _]|(r1 & w1 & s1 & r2 & H & _ & Hf & _)].
  - bind_cases H u1 w1 s1 H1; [|done..].
    apply modify_inv in H1 as (_ & -> & ->).
    eapply Inv_sweep_loop; [|done]. by apply Inv_define_parameters.
  - eapply Inv_release; [|done].
    bind_cases H u1 w2 s2 H2; [|done..].
    apply modify_inv in H2 as (_ & -> & ->).
    eapply Inv_sweep_loop; [|done]. by apply Inv_define_parameters.
Qed.

(** ** The polling loops over [threads] *)

Lemma reclaim_hosts p tmp thr av :
  (reclaim p tmp thr av).2 = av ++ (ended p tmp).*2.
Proof.
  revert thr av. induction tmp as [|[t h] tmp IH]; intros thr av; simpl.
  { by rewrite app_nil_r. }
  unfold ended. rewrite filter_cons. simpl.
  destruct (is_alive p t) eqn:E.
  - rewrite decide_False by done. apply IH.
  - rewrite decide_True by done. rewrite IH. simpl.
    by rewrite <- app_assoc.
Qed.

Lemma elem_of_del t thr (y : nat * Host) : y ∈ del t thr ↔ y ∈ thr ∧ y.1 ≠ t.
Proof. unfold del. rewrite list_elem_of_filter. tauto. Qed.

Lemma reclaim_threads p tmp thr av y :
  y ∈ (reclaim p tmp thr av).1 ↔ y ∈ thr ∧ y.1 ∉ (ended p tmp).*1.
Proof.
  revert thr av. induction tmp as [|[t h] tmp IH]; intros thr av; simpl.
  { split; [|tauto]. intros Hy. split; [done|]. apply not_elem_of_nil. }
  unfold ended. rewrite filter_cons. simpl.
  destruct (is_alive p t) eqn:E.
  - rewrite decide_False by done. apply IH.
  - rewrite decide_True by done. rewrite IH, elem_of_del. simpl.
    rewrite not_elem_of_cons. unfold ended. tauto.
Qed.

Lemma reclaim_running p thr av y :
  y ∈ (reclaim p thr thr av).1 ↔ y ∈ thr ∧ is_alive p y.1 = true.
Proof.
  rewrite reclaim_threads. split; intros [Hy H]; (split; [done|]).
  - destruct (is_alive p y.1) eqn:E; [done|]. exfalso. apply H.
    apply list_elem_of_fmap. exists y. split; [done|].
    apply list_elem_of_filter. done.
  - intros Hx. apply list_elem_of_fmap in Hx as (x & Hx1 & Hx).
    apply list_elem_of_filter in Hx as [Hd _]. congruence.
Qed.

Lemma forget_reclaim p tmp thr av :
  forget p tmp thr = (reclaim p tmp thr av).1.
Proof.
  revert thr av. induction tmp as [|[t h] tmp IH]; intros thr av; simpl; [done|].
  destruct (is_alive p t); apply IH.
Qed.

Lemma forget_running p thr y :
  y ∈ forget p thr thr ↔ y ∈ thr ∧ is_alive p y.1 = true.
Proof. rewrite (forget_reclaim p thr thr []). apply reclaim_running. Qed.

Lemma forget_all_ended p thr :
  (∀ y, y ∈ thr → is_alive p y.1 = false) → forget p thr thr = [].
Proof.
  intros H. destruct (forget p thr thr) as [|y l] eqn:E; [done|].
  assert (Hy : y ∈ forget p thr thr) by (rewrite E; left).
  apply forget_running in Hy as [Hy Hal]. rewrite H in Hal; done.
Qed.

(** ** What a call does to the threads *)

Lemma pool_ends_refl p : pool_ends p p.
Proof. by split. Qed.

Lemma pool_ends_trans p1 p2 p3 :
  pool_ends p1 p2 → pool_ends p2 p3 → pool_ends p1 p3.
Proof. intros [L1 H1] [L2 H2]. split; [congruence|auto]. Qed.

Lemma pool_ends_finish w f : pool_ends (pool w) (pool (finish w f)).
Proof.
  unfold finish. destruct (pool w !! f.1) as [th|] eqn:E; [|apply pool_ends_refl].
  destruct (t_alive th) eqn:Hal; [|apply pool_ends_refl]. simpl.
  split; [by rewrite length_insert|].
  intros t. unfold is_alive.
  destruct (decide (t = f.1)) as [->|Hne].
  - rewrite list_lookup_insert_eq by (by eapply lookup_lt_Some). done.
  - by rewrite list_lookup_insert_ne.
Qed.

Lemma pool_ends_finishes w fs : pool_ends (pool w) (pool (foldl finish w fs)).
Proof.
  revert w. induction fs as [|f fs IH]; intros w; simpl; [apply pool_ends_refl|].
  eapply pool_ends_trans; [apply pool_ends_finish|apply IH].
Qed.

Lemma pool_ends_call {A} (answer : Tick → A) event w s r w' s' :
  call answer event w s = (r, w', s') → pool_ends (pool w) (pool w').
Proof.
  intros H. call_cases H t; [apply pool_ends_refl|..]; apply pool_ends_finishes.
Qed.

Lemma pool_ends_dead p p' t :
  pool_ends p p' → is_alive p t = false → is_alive p' t = false.
Proof.
  intros [_ H] Hd. destruct (is_alive p' t) eqn:E; [|done].
  apply H in E. congruence.
Qed.

(** ** What the calls and the loops do *)

Lemma log_finishes w fs : log (foldl finish w fs) = log w.
Proof.
  revert w. induction fs as [|f fs IH]; intros w; simpl; [done|].
  rewrite IH. unfold finish.
  destruct (pool w !! f.1) as [th|]; [|done]. by destruct (t_alive th).
Qed.

Lemma job_finishes w fs :
  oargrid_job_id (foldl finish w fs) = oargrid_job_id w.
Proof.
  revert w. induction fs as [|f fs IH]; intros w; simpl; [done|].
  rewrite IH. unfold finish.
  destruct (pool w !! f.1) as [th|]; [|done]. by destruct (t_alive th).
Qed.

Lemma remaining_finishes w fs :
  Sweep.remaining (sweeper (foldl finish w fs)) = Sweep.remaining (sweeper w).
Proof.
  revert w. induction fs as [|f fs IH]; intros w; simpl; [done|].
  rewrite IH. unfold finish.
  destruct (pool w !! f.1) as [th|]; [|done].
  destruct (t_alive th); [|done]. simpl. unfold workflow.
  destruct f.2.
  - unfold Sweep.done. by case_decide.
  - unfold Sweep.cancel. by case_decide.
Qed.

Lemma remaining_call {A} (answer : Tick → A) (event : A → Event) w s r w' s' :
  call answer event w s = (r, w', s') →
  Sweep.remaining (sweeper w') = Sweep.remaining (sweeper w).
Proof. intros H. call_cases H t; [done|..]; simpl; apply remaining_finishes. Qed.

Lemma call_spec {A} (answer : Tick → A) (event : A → Event) w s r w' s' :
  call answer event w s = (r, w', s') →
  pool_ends (pool w) (pool w') ∧ oargrid_job_id w' = oargrid_job_id w ∧
  ((s = [] ∧ r = Blocked ∧ log w' = log w) ∨
   (∃ t, s = t :: s' ∧ raises t = true ∧ r = Raise ∧
         log w' = log w ++ [Raised (event (answer t))]) ∨
   (∃ t, s = t :: s' ∧ raises t = false ∧ r = Ret (answer t) ∧
         log w' = log w ++ [event (answer t)])).
Proof.
  intros H. split; [by eapply pool_ends_call|].
  call_cases H t.
  - split; [done|]. by left.
  - simpl. rewrite job_finishes, log_finishes. split; [done|].
    right; left. eauto.
  - simpl. rewrite job_finishes, log_finishes. split; [done|].
    right; right. eauto.
Qed.

(** A call that returned. *)
Lemma call_ret {A} (answer : Tick → A) (event : A → Event) w s a w' s' :
  call answer event w s = (Ret a, w', s') →
  pool_ends (pool w) (pool w') ∧ oargrid_job_id w' = oargrid_job_id w ∧
  log w' = log w ++ [event a] ∧
  ∃ t, s = t :: s' ∧ raises t = false ∧ a = answer t.
Proof.
  intros H. apply call_spec in H as (Hp & Hj & [H|[H|H]]).
  - by destruct H as (_ & ? & _).
  - by destruct H as (t & _ & _ & ? & _).
  - destruct H as (t & -> & Hr & [= ->] & Hl). eauto 10.
Qed.

(** A call that did not return. *)
Lemma call_fail {A} (answer : Tick → A) (event : A → Event) w s r w' s' :
  call answer event w s = (r, w', s') → (∀ a, r ≠ Ret a) →
  pool_ends (pool w) (pool w') ∧ oargrid_job_id w' = oargrid_job_id w ∧
  ((r = Blocked ∧ log w' = log w) ∨
   (∃ a, r = Raise ∧ log w' = log w ++ [Raised (event a)])).
Proof.
  intros H Hr. apply call_spec in H as (Hp & Hj & [H|[H|H]]).
  - destruct H as (_ & -> & ?). eauto.
  - destruct H as (t & _ & _ & -> & ?). eauto 10.
  - destruct H as (t & _ & _ & -> & _). by destruct (Hr (answer t)).
Qed.

Lemma rounds_S k : rounds (S k) = [Sleep 5; IsJobAlive true] ++ rounds k.
Proof. done. Qed.

Section loops.
Context (options : Options).

Lemma wait_for_hosts_spec fuel thr av w s r w' s' :
  wait_for_hosts options fuel thr av w s = (r, w', s') →
  pool_ends (pool w) (pool w') ∧ oargrid_job_id w' = oargrid_job_id w ∧
  (∃ k tl, log w' = log w ++ rounds k ++ tl ∧ wait_end r tl ∧
     ∀ l, r = Ret l → k = 0%nat → job_is_dead l = false →
          threads l = thr ∧ available_hosts l = av) ∧
  ∀ l, r = Ret l →
    (job_is_dead l = false →
       n_nodes options ≤ Z.of_nat (length (available_hosts l))) ∧
    (∃ added, available_hosts l = av ++ added ∧ added ⊆ thr.*2) ∧
    (∀ y, y ∈ threads l → y ∈ thr) ∧
    (∀ y, y ∈ thr → y ∉ threads l → is_alive (pool w') y.1 = false).
Proof.
  revert thr av w s. induction fuel as [|fuel IH]; intros thr av w s H.
  { inversion H; subst. split; [apply pool_ends_refl|]. split; [done|]. split.
    - exists 0%nat, []. rewrite !app_nil_r. split; [done|].
      split; [constructor|done].
    - intros l [=]. }
  cbn [wait_for_hosts] in H. case_bool_decide as Hn.
  - bind_cases H p w1 s1 H1; [|done..].
    apply gets_ret_inv in H1 as (-> & -> & ->).
    destruct (reclaim (pool w) thr thr av) as [thr1 av1] eqn:Er.
    assert (Hav : av1 = av ++ (ended (pool w) thr).*2).
    { by rewrite <- (reclaim_hosts _ thr thr), Er. }
    assert (Hthr : ∀ y, y ∈ thr1 ↔ y ∈ thr ∧ is_alive (pool w) y.1 = true).
    { intros y. by rewrite <- (reclaim_running _ thr av), Er. }
    assert (Hsub : (ended (pool w) thr).*2 ⊆ thr.*2).
    { intros h Hh. apply list_elem_of_fmap in Hh as (y & -> & Hy).
      apply list_elem_of_filter in Hy as [_ Hy].
      apply list_elem_of_fmap. eauto. }
    bind_cases H u w2 s2 H2.
    + apply call_ret in H2 as (Hp2 & Hj2 & Hl2 & _).
      bind_cases H a w3 s3 H3.
      * apply call_ret in H3 as (Hp3 & Hj3 & Hl3 & _).
        assert (Hp13 : pool_ends (pool w) (pool w3))
          by (by eapply pool_ends_trans).
        destruct a; simpl in H.
        -- apply IH in H as (Hp & Hj & (k & tl & Hl & He & Hk0) & Hret).
           split; [by eapply pool_ends_trans|]. split; [congruence|]. split.
           ++ exists (S k), tl. rewrite Hl, Hl3, Hl2, rounds_S.
              rewrite <- !app_assoc. split; [done|]. split; [done|].
              intros l _ [=].
           ++ intros l ->. destruct (Hret l eq_refl) as (Hn' & (ad & Had1 & Had) & Hin & Hout).
              split; [done|]. split; [|split].
              ** exists ((ended (pool w) thr).*2 ++ ad). rewrite Had1, Hav, <- app_assoc.
                 split; [done|]. intros h Hh.
                 apply elem_of_app in Hh as [Hh|Hh]; [by apply Hsub|].
                 apply Had in Hh. apply list_elem_of_fmap in Hh as (y & -> & Hy).
                 apply Hthr in Hy as [Hy _]. apply list_elem_of_fmap. eauto.
              ** intros y Hy. by apply Hin, Hthr in Hy as [? _].
              ** intros y Hy Hny.
                 destruct (decide (y ∈ thr1)) as [Hy1|Hy1]; [by apply Hout|].
                 eapply pool_ends_dead; [by eapply pool_ends_trans|].
                 destruct (is_alive (pool w) y.1) eqn:E; [|done].
                 destruct Hy1. by apply Hthr.
        -- apply ret_inv in H as (-> & -> & ->).
           split; [done|]. split; [congruence|]. split.
           ++ exists 0%nat, death. rewrite Hl3, Hl2. simpl.
              rewrite <- !app_assoc. split; [done|]. split; [by constructor|].
              intros l [= <-] _. done.
           ++ intros l [= <-]. simpl. split; [done|]. split; [|split].
              ** exists ((ended (pool w) thr).*2). done.
              ** intros y Hy. by apply Hthr in Hy as [? _].
              ** intros y Hy Hny. eapply pool_ends_dead; [done|].
                 destruct (is_alive (pool w) y.1) eqn:E; [|done].
                 destruct Hny. by apply Hthr.
      * apply call_fail in H as (Hp3 & Hj3 & Hl3); [|done].
        split; [by eapply pool_ends_trans|]. split; [congruence|]. split.
        -- exists 0%nat. destruct Hl3 as [[E Hl3]|(b & E & Hl3)];
             try discriminate E; rewrite Hl3, Hl2; simpl;
             rewrite <- ?app_assoc; eexists; (split; [reflexivity|]);
             (split; [constructor|done]).
        -- intros l E. discriminate E.
      * apply call_fail in H as (Hp3 & Hj3 & Hl3); [|done].
        split; [by eapply pool_ends_trans|]. split; [congruence|]. split.
        -- exists 0%nat. destruct Hl3 as [[E Hl3]|(b & E & Hl3)];
             try discriminate E; rewrite Hl3, Hl2; simpl;
             rewrite <- ?app_assoc; eexists; (split; [reflexivity|]);
             (split; [constructor|done]).
        -- intros l E. discriminate E.
    + apply call_fail in H as (Hp3 & Hj3 & Hl3); [|done].
      split; [done|]. split; [done|]. split.
      * exists 0%nat. destruct Hl3 as [[E Hl3]|(b & E & Hl3)];
          try discriminate E; rewrite Hl3; simpl;
          first [ exists []; rewrite app_nil_r; split; [done|];
                  split; [constructor|done]
                | eexists; split; [reflexivity|]; split; [constructor|done] ].
      * intros l E. discriminate E.
    + apply call_fail in H as (Hp3 & Hj3 & Hl3); [|done].
      split; [done|]. split; [done|]. split.
      * exists 0%nat. destruct Hl3 as [[E Hl3]|(b & E & Hl3)];
          try discriminate E; rewrite Hl3; simpl;
          first [ exists []; rewrite app_nil_r; split; [done|];
                  split; [constructor|done]
                | eexists; split; [reflexivity|]; split; [constructor|done] ].
      * intros l E. discriminate E.
  - apply ret_inv in H as (-> & -> & ->).
    split; [apply pool_ends_refl|]. split; [done|]. split.
    + exists 0%nat, []. rewrite !app_nil_r. split; [done|].
      split; [by constructor|]. by intros l [= <-] _ _.
    + intros l [= <-]. simpl. split; [lia|]. split; [|split].
      * exists []. rewrite app_nil_r. split; [done|]. intros h Hh.
        by apply elem_of_nil in Hh.
      * done.
      * by intros y Hy Hny.
Qed.

Lemma drain_spec fuel thr w s r w' s' :
  drain fuel thr w s = (r, w', s') →
  pool_ends (pool w) (pool w') ∧ oargrid_job_id w' = oargrid_job_id w ∧
  (∃ j tl, log w' = log w ++ replicate j (Sleep 20) ++ tl ∧ drain_end r tl ∧
     (thr ≠ [] → r = Ret [] → (0 < j)%nat)) ∧
  (∀ thr', r = Ret thr' → ∀ y, y ∈ thr → is_alive (pool w') y.1 = false).
Proof.
  revert thr w s. induction fuel as [|fuel IH]; intros thr w s H.
  { inversion H; subst. split; [apply pool_ends_refl|]. split; [done|]. split.
    - exists 0%nat, []. rewrite !app_nil_r. split; [done|].
      split; [constructor|done].
    - intros l [=]. }
  cbn [drain] in H. case_bool_decide as Hn.
  - bind_cases H p w1 s1 H1; [|done..].
    apply gets_ret_inv in H1 as (-> & -> & ->).
    pose proof (forget_running (pool w) thr) as Hthr.
    bind_cases H u w2 s2 H2.
    + apply call_ret in H2 as (Hp2 & Hj2 & Hl2 & _).
      apply IH in H as (Hp & Hj & (j & tl & Hl & He & Hj0) & Hret).
      split; [by eapply pool_ends_trans|]. split; [congruence|]. split.
      * exists (S j), tl. rewrite Hl, Hl2. simpl. rewrite <- !app_assoc.
        split; [done|]. split; [done|]. lia.
      * intros thr' -> y Hy.
        destruct (is_alive (pool w) y.1) eqn:E.
        -- eapply Hret; [done|]. by apply Hthr.
        -- eapply (pool_ends_dead (pool w)); [|done].
           eapply pool_ends_trans; [exact Hp2|exact Hp].
    + apply call_fail in H as (Hp3 & Hj3 & Hl3); [|done].
      split; [done|]. split; [done|]. split.
      * exists 0%nat. destruct Hl3 as [[E Hl3]|(b & E & Hl3)];
          try discriminate E; rewrite Hl3; simpl;
          first [ exists []; rewrite app_nil_r; split; [done|];
                  split; [constructor|done]
                | eexists; split; [reflexivity|]; split; [constructor|done] ].
      * intros l E. discriminate E.
    + apply call_fail in H as (Hp3 & Hj3 & Hl3); [|done].
      split; [done|]. split; [done|]. split.
      * exists 0%nat. destruct Hl3 as [[E Hl3]|(b & E & Hl3)];
          try discriminate E; rewrite Hl3; simpl;
          first [ exists []; rewrite app_nil_r; split; [done|];
                  split; [constructor|done]
                | eexists; split; [reflexivity|]; split; [constructor|done] ].
      * intros l E. discriminate E.
  - apply ret_inv in H as (-> & -> & ->).
    assert (thr = []) as -> by (destruct thr; [done|simpl in Hn; lia]).
    split; [apply pool_ends_refl|]. split; [done|]. split.
    + exists 0%nat, []. rewrite !app_nil_r. split; [done|].
      split; [by constructor|done].
    + intros l _ y Hy. by apply elem_of_nil in Hy.
Qed.

Lemma remaining_drain fuel thr w s r w' s' :
  drain fuel thr w s = (r, w', s') →
  Sweep.remaining (sweeper w') = Sweep.remaining (sweeper w).
Proof.
  revert thr w s. induction fuel as [|fuel IH]; intros thr w s H.
  { by inversion H; subst. }
  cbn [drain] in H. case_bool_decide as Hn.
  - bind_cases H p w1 s1 H1; [|done..].
    apply gets_ret_inv in H1 as (-> & -> & ->).
    bind_cases H u w2 s2 H2; [|by apply remaining_call in H..].
    apply remaining_call in H2. apply IH in H. congruence.
  - by apply ret_inv in H as (-> & -> & ->).
Qed.

Lemma sweeper_get_next_spec ord w s r w' s' :
  sweeper_get_next ord w s = (r, w', s') →
  ∃ comb, r = Ret comb ∧ s' = s ∧ pool w' = pool w ∧
    oargrid_job_id w' = oargrid_job_id w ∧ log w' = log w ++ [GetNext comb] ∧
    (comb = None → Sweep.remaining (sweeper w') = ∅).
Proof.
  unfold sweeper_get_next.
  destruct (Sweep.get_next ord (sweeper w)) as [c sw] eqn:E.
  intros [= <- <- <-]. exists c. repeat (split; [done|]).
  intros ->. simpl. by apply SweepFacts.get_next_none in E as [? ->].
Qed.

Lemma start_spec c host w s r w' s' :
  start c host w s = (r, w', s') →
  r = Ret (length (pool w)) ∧ s' = s ∧
  pool w' = pool w ++ [{| t_comb := c; t_host := host; t_alive := true |}] ∧
  oargrid_job_id w' = oargrid_job_id w ∧
  log w' = log w ++ [Start (length (pool w)) c host].
Proof. by intros [= <- <- <-]. Qed.

Lemma dispatch_spec ord fuel l w s r w' s' :
  dispatch ord options fuel l w s = (r, w', s') →
  oargrid_job_id w' = oargrid_job_id w ∧
  ∃ tr, log w' = log w ++ tr ∧ turn options l w w' r tr.
Proof.
  intros H. unfold dispatch in H.
  bind_cases H a w1 s1 H1.
  - apply call_ret in H1 as (Hp1 & Hj1 & Hl1 & _).
    destruct (a || _) eqn:Ea.
    + bind_cases H l1 w2 s2 H2.
      * apply wait_for_hosts_spec in H2
          as (Hp2 & Hj2 & (k & tl & Hl2 & He & Hk0) & Hret).
        destruct (Hret l1 eq_refl) as (Hn & (added & Hadd & Hsub) & Hin & Hout).
        clear Hret.
        destruct (job_is_dead l1) eqn:Hd.
        { apply ret_inv in H as (-> & -> & ->).
          split; [congruence|]. eexists. split.
          - rewrite Hl2, Hl1, <- app_assoc. reflexivity.
          - inversion He; subst; [congruence|]. by apply turn_dead. }
        assert (tl = []) as -> by (inversion He; subst; [done|congruence]).
        rewrite app_nil_r in Hl2. specialize (Hn eq_refl).
        assert (Hk : n_nodes options > Z.of_nat (length (available_hosts l)) →
                     (0 < k)%nat).
        { intros Hgt. destruct k; [|lia].
          destruct (Hk0 l1 eq_refl eq_refl Hd) as [_ Hsame].
          rewrite Hsame in Hn. lia. }
        bind_cases H comb w3 s3 H3;
          [|by apply sweeper_get_next_spec in H as (? & ? & _)..].
        apply sweeper_get_next_spec in H3
          as (? & [= <-] & -> & Hp3 & Hj3 & Hl3 & Hnone).
        destruct (not_comb comb) eqn:Hc.
        -- bind_cases H thr w4 s4 H4.
           ++ pose proof (remaining_drain _ _ _ _ _ _ _ H4) as Hrem4.
              apply drain_spec in H4 as (Hp4 & Hj4 & (j & tl & Hl4 & He4 & _) & Hdead).
              apply ret_inv in H as (-> & -> & ->).
              split; [congruence|]. eexists. split.
              ** rewrite Hl4, Hl3, Hl2, Hl1, <- !app_assoc. reflexivity.
              ** inversion He4; subst. rewrite app_nil_r.
                 apply turn_drained; [done..| | |done|done].
                 --- intros y Hy.
                     destruct (decide (y ∈ threads l1)) as [Hy1|Hy1].
                     +++ by eapply Hdead.
                     +++ eapply (pool_ends_dead (pool w3)); [done|].
                         rewrite Hp3. by apply Hout.
                 --- intros Hc0. rewrite Hrem4. by apply Hnone.
           ++ apply drain_spec in H as (Hp4 & Hj4 & (j & tl & Hl4 & He4 & _) & _).
              split; [congruence|]. eexists. split.
              ** rewrite Hl4, Hl3, Hl2, Hl1, <- !app_assoc. reflexivity.
              ** inversion He4; subst. by apply turn_drain_raise.
           ++ apply drain_spec in H as (Hp4 & Hj4 & (j & tl & Hl4 & He4 & _) & _).
              split; [congruence|]. eexists. split.
              ** rewrite Hl4, Hl3, Hl2, Hl1, <- !app_assoc. reflexivity.
              ** inversion He4; subst. rewrite app_nil_r.
                 by apply turn_drain_blocked.
        -- destruct comb as [c|]; [|done].
           destruct (available_hosts l1) as [|host rest] eqn:Eav.
           { inversion H; subst. split; [congruence|]. eexists. split.
             - rewrite Hl3, Hl2, Hl1, <- !app_assoc. reflexivity.
             - apply turn_index_error. simpl in Hn. lia. }
           bind_cases H t w4 s4 H4;
             [|by apply start_spec in H as (? & _)..].
           apply start_spec in H4 as ([= ->] & -> & Hp4 & Hj4 & Hl4).
           apply ret_inv in H as (-> & -> & ->).
           split; [congruence|]. eexists. split.
           ++ rewrite Hl4, Hl3, Hl2, Hl1, <- !app_assoc. reflexivity.
           ++ assert (Hlen : length (pool w3) = length (pool w)).
              { rewrite Hp3. destruct Hp1 as [L1 _], Hp2 as [L2 _]. congruence. }
              simpl. rewrite Hlen.
              eapply (turn_started _ _ _ _ a k c _ host _ added (threads l1));
                simpl; try done.
              ** simpl in Hc. intros ->. by rewrite bool_decide_true in Hc.
              ** simpl in Hn. lia.
              ** rewrite Hp4, <- Hlen. by rewrite lookup_app_r, Nat.sub_diag.
      * apply wait_for_hosts_spec in H as (Hp2 & Hj2 & (k & tl & Hl2 & He & _) & _).
        split; [congruence|]. eexists. split.
        -- rewrite Hl2, Hl1, <- app_assoc. reflexivity.
        -- inversion He; subst; apply turn_wait_raise; eauto.
      * apply wait_for_hosts_spec in H as (Hp2 & Hj2 & (k & tl & Hl2 & He & _) & _).
        split; [congruence|]. eexists. split.
        -- rewrite Hl2, Hl1, <- app_assoc. reflexivity.
        -- inversion He; subst; apply turn_wait_blocked; eauto.
    + apply ret_inv in H as (-> & -> & ->).
      apply orb_false_iff in Ea as [-> Ht].
      split; [done|]. eexists. split; [exact Hl1|].
      apply turn_exit. destruct (threads l); [done|].
      rewrite bool_decide_true in Ht; [done|simpl; lia].
  - apply call_fail in H as (_ & Hj & Hl); [|done].
    destruct Hl as [[E Hl]|(b & E & Hl)]; try discriminate E.
    split; [done|]. exists [Raised (IsJobAlive b)]. split; [done|constructor].
  - apply call_fail in H as (_ & Hj & Hl); [|done].
    destruct Hl as [[E Hl]|(b & E & Hl)]; try discriminate E.
    split; [done|]. exists []. rewrite app_nil_r. split; [done|constructor].
Qed.

End loops.


(** Once every thread of [threads] has ended, the drain loop forgets them,
    sleeps once more and returns. *)
Lemma drain_returns fuel thr w t s :
  thr ≠ [] → (∀ y, y ∈ thr → is_alive (pool w) y.1 = false) →
  raises t = false →
  drain (S (S fuel)) thr w (t :: s)
    = (Ret [], record (Sleep 20) (foldl finish w (finished t)), s).
Proof.
  intros Hne Hdead Hr. cbn [drain].
  rewrite bool_decide_true by (destruct thr; [done|simpl; lia]).
  unfold mbind, M_bind, gets. rewrite forget_all_ended by done.
  unfold sleep, call. rewrite Hr. simpl. done.
Qed.
(** ** Records of calls *)

Lemma quiet_cons e tr : is_sleep5 e = false → quiet (e :: tr) = quiet tr.
Proof. intros He. simpl. rewrite He. by destruct tr. Qed.

Lemma quiet_sleep_alive tr :
  quiet (Sleep 5 :: IsJobAlive true :: tr) = quiet tr.
Proof. simpl. by destruct tr. Qed.

Lemma quiet_rounds k tr : quiet (rounds k ++ tr) = quiet tr.
Proof.
  induction k as [|k IH]; [done|].
  rewrite rounds_S. simpl app. by rewrite quiet_sleep_alive.
Qed.

Lemma quiet_sleeps j tr : quiet (replicate j (Sleep 20) ++ tr) = quiet tr.
Proof.
  induction j as [|j IH]; [done|]. simpl replicate. simpl app.
  by rewrite quiet_cons.
Qed.

Lemma quiet_occurs pre post : quiet (pre ++ death ++ post) = false.
Proof.
  induction pre as [|e pre IH].
  - simpl. done.
  - change ((e :: pre) ++ death ++ post) with (e :: (pre ++ death ++ post)).
    cbn [quiet]. rewrite IH. apply andb_false_r.
Qed.

Lemma quiet_app tr1 tr2 :
  quiet tr1 = true → quiet tr2 = true →
  (∀ e, last tr1 = Some e → is_sleep5 e = false) →
  quiet (tr1 ++ tr2) = true.
Proof.
  induction tr1 as [|e tr1 IH]; intros H1 H2 Hlast; [done|].
  destruct tr1 as [|e' tr1].
  - simpl app. rewrite quiet_cons; [done|]. by apply Hlast.
  - change ((e :: e' :: tr1) ++ tr2) with (e :: e' :: (tr1 ++ tr2)).
    cbn [quiet] in H1 |- *. apply andb_true_iff in H1 as [H1 H1'].
    rewrite H1. simpl. apply IH; [done|done|].
    intros e0 He0. apply Hlast. by rewrite last_cons_cons.
Qed.

Lemma death_is_last q pre post :
  quiet (q ++ [Sleep 5]) = true → q ++ death = pre ++ death ++ post →
  post = [].
Proof.
  intros Hq. destruct post as [|x post _] using rev_ind; [done|].
  intros E. exfalso.
  replace (q ++ death) with ((q ++ [Sleep 5]) ++ [IsJobAlive false]) in E
    by (by rewrite <- app_assoc).
  replace (pre ++ death ++ post ++ [x]) with ((pre ++ death ++ post) ++ [x]) in E
    by (by rewrite <- !app_assoc).
  apply app_inj_tail in E as [E _].
  rewrite E, quiet_occurs in Hq. done.
Qed.

Lemma releases_app l1 l2 : releases (l1 ++ l2) = releases l1 ++ releases l2.
Proof. apply omap_app. Qed.

Lemma releases_rounds k : releases (rounds k) = [].
Proof. induction k as [|k IH]; [done|]. by rewrite rounds_S, releases_app, IH. Qed.

Lemma releases_sleeps j : releases (replicate j (Sleep 20)) = [].
Proof. induction j as [|j IH]; [done|]. simpl. exact IH. Qed.

Lemma last_app_cons {A} (l1 l2 : list A) x :
  last (l1 ++ l2 ++ [x]) = Some x.
Proof. by rewrite app_assoc, last_snoc. Qed.

Section turns.
Context (ord : Sweep.Order) (options : Options).

Lemma turn_releases l w w' r tr : turn options l w w' r tr → releases tr = [].
Proof.
  intros H. inversion H; subst;
    repeat (rewrite ?releases_app, ?releases_rounds, ?releases_sleeps; simpl);
    try done.
  - by destruct H0 as [->| ->].
  - by destruct H0 as [->|[b ->]].
Qed.

Lemma turn_quiet l w w' r tr :
  turn options l w w' r tr →
  (quiet tr = true ∧
   ∀ l', r = Ret (Continue l') → ∃ e, last tr = Some e ∧ is_sleep5 e = false) ∨
  (∃ q l', tr = q ++ death ∧ quiet (q ++ [Sleep 5]) = true ∧
           r = Ret (Break l') ∧ job_is_dead l' = true).
Proof.
  intros H. inversion H; subst.
  - left. done.
  - left. done.
  - left. done.
  - left. split; [|done]. simpl app. rewrite quiet_cons, quiet_rounds by done.
    by destruct H0 as [->| ->].
  - left. split; [|done]. simpl app. rewrite quiet_cons, quiet_rounds by done.
    by destruct H0 as [->|[b ->]].
  - right. exists ([IsJobAlive a] ++ rounds k), l'.
    rewrite <- !app_assoc. split; [done|]. split; [|done].
    simpl app. by rewrite quiet_cons, quiet_rounds.
  - left. split; [|done]. simpl app.
    rewrite quiet_cons, quiet_rounds, quiet_cons by done.
    rewrite <- (app_nil_r (replicate _ _)). by rewrite quiet_sleeps.
  - left. split; [|done]. simpl app.
    rewrite quiet_cons, quiet_rounds, quiet_cons by done.
    rewrite <- (app_nil_r (replicate _ _)). by rewrite quiet_sleeps.
  - left. split; [|done]. simpl app.
    rewrite quiet_cons, quiet_rounds, quiet_cons by done.
    by rewrite quiet_sleeps.
  - left. split; [|done]. simpl app. by rewrite quiet_cons, quiet_rounds.
  - left. split.
    + simpl app. by rewrite quiet_cons, quiet_rounds.
    + intros l0 _. exists (Start (length (pool w)) c host). split; [|done].
      apply (last_app_cons ([IsJobAlive a] ++ rounds k) [GetNext (Some c)]).
Qed.

Lemma dispatch_loop_spec fuel l w s r w' s' :
  dispatch_loop ord options fuel l w s = (r, w', s') →
  oargrid_job_id w' = oargrid_job_id w ∧
  ∃ tr, log w' = log w ++ tr ∧ releases tr = [] ∧ stops_at_death r tr.
Proof.
  revert l w s. induction fuel as [|fuel IH]; intros l w s H.
  { inversion H; subst. split; [done|]. exists []. rewrite app_nil_r.
    split; [done|]. split; [done|]. by left. }
  cbn [dispatch_loop] in H.
  bind_cases H c w1 s1 H1.
  - apply dispatch_spec in H1 as (Hj1 & tr1 & Hl1 & Ht1).
    pose proof (turn_releases _ _ _ _ _ Ht1) as Hr1.
    apply turn_quiet in Ht1 as [[Hq1 Hlast]|(q & l' & -> & Hq & [= ->] & Hd)].
    + destruct c as [l1|l1].
      * apply IH in H as (Hj & tr2 & Hl2 & Hr2 & Hs).
        split; [congruence|]. exists (tr1 ++ tr2).
        split; [by rewrite Hl2, Hl1, <- app_assoc|].
        split; [by rewrite releases_app, Hr1, Hr2|].
        destruct (Hlast l1 eq_refl) as (e & He & He5).
        assert (Hl : ∀ e0, last tr1 = Some e0 → is_sleep5 e0 = false)
          by (intros e0; rewrite He; by intros [= <-]).
        destruct Hs as [Hq2|(q & l' & -> & Hq & -> & Hd)].
        -- left. by apply quiet_app.
        -- right. exists (tr1 ++ q), l'. rewrite <- !app_assoc.
           split; [done|]. split; [|done]. by apply quiet_app.
      * apply ret_inv in H as (-> & -> & ->).
        split; [done|]. exists tr1. split; [done|]. split; [done|]. by left.
    + apply ret_inv in H as (-> & -> & ->).
      split; [done|]. eexists. split; [done|]. split; [done|].
      right. by exists q, l'.
  - apply dispatch_spec in H as (Hj1 & tr1 & Hl1 & Ht1).
    pose proof (turn_releases _ _ _ _ _ Ht1) as Hr1.
    apply turn_quiet in Ht1 as [[Hq1 _]|(q & l' & _ & _ & [=] & _)].
    split; [done|]. exists tr1. split; [done|]. split; [done|]. by left.
  - apply dispatch_spec in H as (Hj1 & tr1 & Hl1 & Ht1).
    pose proof (turn_releases _ _ _ _ _ Ht1) as Hr1.
    apply turn_quiet in Ht1 as [[Hq1 _]|(q & l' & _ & _ & [=] & _)].
    split; [done|]. exists tr1. split; [done|]. split; [done|]. by left.
Qed.

End turns.

Lemma get_next_not_in_rounds comb k : GetNext comb ∉ rounds k.
Proof.
  induction k as [|k IH]; [apply not_elem_of_nil|].
  rewrite rounds_S. simpl. rewrite !not_elem_of_cons. done.
Qed.

(** The calls of a turn that returned and called [get_next]. *)
Lemma turn_pulled options l w w' c tr comb :
  turn options l w w' (Ret c) tr → GetNext comb ∈ tr →
  (∃ a k rest, tr = [IsJobAlive a] ++ rounds k ++ [GetNext comb] ++ rest ∧
     (n_nodes options > Z.of_nat (length (available_hosts l)) → (0 < k)%nat)) ∧
  n_nodes options ≤ Z.of_nat (hosts_at_pull c).
Proof.
  intros H Hin. inversion H; subst.
  - apply list_elem_of_singleton in Hin. done.
  - exfalso. rewrite !elem_of_app in Hin. destruct Hin as [Hin|[Hin|Hin]].
    + apply list_elem_of_singleton in Hin. done.
    + by apply get_next_not_in_rounds in Hin.
    + unfold death in Hin. rewrite !elem_of_cons in Hin.
      destruct Hin as [?|[?|Hin]]; [done..|]. by apply elem_of_nil in Hin.
  - rewrite !elem_of_app in Hin. destruct Hin as [Hin|[Hin|[Hin|Hin]]].
    + apply list_elem_of_singleton in Hin. done.
    + by apply get_next_not_in_rounds in Hin.
    + apply list_elem_of_singleton in Hin. injection Hin as ->.
      split; [eauto 10|]. done.
    + apply elem_of_replicate in Hin as [? _]. done.
  - rewrite !elem_of_app in Hin. destruct Hin as [Hin|[Hin|Hin]].
    + apply list_elem_of_singleton in Hin. done.
    + by apply get_next_not_in_rounds in Hin.
    + rewrite !elem_of_cons in Hin.
      destruct Hin as [Hin|[?|Hin]]; [|done|by apply elem_of_nil in Hin].
      injection Hin as ->. split.
      * exists a, k, [Start (length (pool w)) c0 host]. done.
      * simpl. lia.
Qed.

(** ** The outer loop and [run] *)

Lemma body_step_refl w : body_step w w.
Proof. exists []. rewrite app_nil_r. split; [done|]. split; [done|]. by left. Qed.

Lemma body_step_trans w1 w2 w3 :
  body_step w1 w2 → body_step w2 w3 → body_step w1 w3.
Proof.
  intros (tr1 & Hl1 & Hr1 & Hj1) (tr2 & Hl2 & Hr2 & Hj2).
  exists (tr1 ++ tr2). split; [by rewrite Hl2, Hl1, <- app_assoc|].
  split; [by rewrite releases_app, Hr1, Hr2|].
  intros j Hj. rewrite elem_of_app.
  destruct (Hj2 j Hj) as [H|H]; [|tauto].
  destruct (Hj1 j H); tauto.
Qed.

Lemma body_step_same w w' tr :
  oargrid_job_id w' = oargrid_job_id w → log w' = log w ++ tr →
  releases tr = [] → body_step w w'.
Proof.
  intros Hj Hl Hr. exists tr. split; [done|]. split; [done|].
  intros j. rewrite Hj. by left.
Qed.

Lemma body_step_call {A} (answer : Tick → A) (event : A → Event) w s r w' s' :
  (∀ a, release_of (event a) = None) →
  (∀ a, release_of (Raised (event a)) = None) →
  call answer event w s = (r, w', s') → body_step w w'.
Proof.
  intros He He' H. apply call_spec in H as (_ & Hj & [H|[H|H]]).
  - destruct H as (_ & _ & Hl). eapply (body_step_same _ _ []); [done| |done].
    by rewrite app_nil_r.
  - destruct H as (t & _ & _ & _ & Hl).
    eapply body_step_same; [done|done|].
    unfold releases. cbn -[release_of]. by rewrite He'.
  - destruct H as (t & _ & _ & _ & Hl).
    eapply body_step_same; [done|done|].
    unfold releases. cbn -[release_of]. by rewrite He.
Qed.

Lemma body_step_make_reservation w s r w' s' :
  make_reservation w s = (r, w', s') → body_step w w'.
Proof.
  intros H. unfold make_reservation in H.
  bind_cases H j w1 s1 H1; [|by eapply body_step_call in H..].
  apply call_ret in H1 as (_ & Hj1 & Hl1 & _).
  apply modify_inv in H as (_ & -> & _).
  exists [Oargridsub j]. simpl. split; [done|]. split; [done|].
  intros j' [= <-]. right. by left.
Qed.

Section outer.
Context (ord : Sweep.Order) (options : Options).

Lemma body_step_dispatch_loop fuel l w s r w' s' :
  dispatch_loop ord options fuel l w s = (r, w', s') → body_step w w'.
Proof.
  intros H. apply dispatch_loop_spec in H as (Hj & tr & Hl & Hr & _).
  by eapply body_step_same.
Qed.

Lemma body_step_reserve_and_dispatch fuel dead w s r w' s' :
  reserve_and_dispatch ord options fuel dead w s = (r, w', s') →
  body_step w w'.
Proof.
  intros H. unfold reserve_and_dispatch in H.
  bind_cases H sw w1 s1 H1; [|done..].
  apply gets_ret_inv in H1 as (-> & -> & ->).
  case_bool_decide; [|apply ret_inv in H as (_ & -> & _); apply body_step_refl].
  bind_cases H j w1 s1 H1; [|done..].
  apply gets_ret_inv in H1 as (-> & -> & ->).
  assert (∀ r w1 s1,
    (if oargrid_job_id w is None then make_reservation else mret ()) w s
      = (r, w1, s1) → body_step w w1) as Hres.
  { intros r0 w1 s1. destruct (oargrid_job_id w).
    - intros (_ & -> & _)%ret_inv. apply body_step_refl.
    - apply body_step_make_reservation. }
  bind_cases H u w1 s1 H1; [|by eapply Hres..].
  apply Hres in H1. clear Hres.
  eapply body_step_trans; [exact H1|]. clear H1.
  bind_cases H j w2 s2 H2; [|done..].
  apply gets_ret_inv in H2 as (-> & -> & ->).
  bind_cases H u2 w2 s2 H2; [|by eapply body_step_call in H..].
  eapply body_step_call in H2; [|done..].
  eapply body_step_trans; [exact H2|]. clear H2.
  bind_cases H u3 w3 s3 H3; [|by eapply body_step_call in H..].
  eapply body_step_call in H3; [|done..].
  eapply body_step_trans; [exact H3|]. clear H3.
  bind_cases H hosts w4 s4 H4; [|by eapply body_step_call in H..].
  eapply body_step_call in H4; [|done..].
  eapply body_step_trans; [exact H4|]. clear H4.
  case_bool_decide; [apply ret_inv in H as (_ & -> & _); apply body_step_refl|].
  bind_cases H l w5 s5 Hl; [|by eapply body_step_dispatch_loop..].
  eapply body_step_dispatch_loop in Hl.
  eapply body_step_trans; [exact Hl|]. clear Hl.
  bind_cases H a w6 s6 Ha; [|by eapply body_step_call in H..].
  eapply body_step_call in Ha; [|done..].
  eapply body_step_trans; [exact Ha|]. clear Ha.
  assert (∀ r w7 s7,
    (if (if negb a then true else job_is_dead l) then set_job_id None
     else mret ()) w6 s6 = (r, w7, s7) → body_step w6 w7) as Hset.
  { intros r0 w7 s7. destruct (if negb a then true else job_is_dead l).
    - intros (_ & -> & _)%modify_inv. exists []. simpl.
      rewrite app_nil_r. done.
    - intros (_ & -> & _)%ret_inv. apply body_step_refl. }
  bind_cases H u7 w7 s7 Hj; [|by eapply Hset..].
  apply ret_inv in H as (_ & -> & _). by eapply Hset.
Qed.

Lemma body_step_sweep_loop fuel dead w s r w' s' :
  sweep_loop ord options fuel dead w s = (r, w', s') → body_step w w'.
Proof.
  revert dead w s. induction fuel as [|fuel IH]; intros dead w s H.
  { inversion H; subst. apply body_step_refl. }
  cbn [sweep_loop] in H.
  bind_cases H c w1 s1 H1; [|by eapply body_step_reserve_and_dispatch..].
  eapply body_step_reserve_and_dispatch in H1.
  eapply body_step_trans; [exact H1|].
  destruct c as [d|d].
  - by eapply IH.
  - apply ret_inv in H as (_ & -> & _). apply body_step_refl.
Qed.

End outer.

(** ** Every combination handed out is started *)

Lemma combs_finishes w fs :
  t_comb <$> pool (foldl finish w fs) = t_comb <$> pool w.
Proof.
  revert w. induction fs as [|f fs IH]; intros w; simpl; [done|].
  rewrite IH. unfold finish.
  destruct (pool w !! f.1) as [th|] eqn:Ht; [|done].
  destruct (t_alive th); [|done]. simpl.
  rewrite list_fmap_insert. simpl. apply list_insert_id.
  by rewrite list_lookup_fmap, Ht.
Qed.

Section started.
Context (U : gset Comb) (ord : Sweep.Order) (options : Options).

Lemma all_started_same w w' :
  Sweep.remaining (sweeper w') = Sweep.remaining (sweeper w) →
  t_comb <$> pool w' = t_comb <$> pool w →
  all_started U w → all_started U w'.
Proof. intros Hr Hc H c. rewrite Hr, Hc. apply H. Qed.

Lemma all_started_call {A} (answer : Tick → A) event w s r w' s' :
  all_started U w → call answer event w s = (r, w', s') → all_started U w'.
Proof.
  intros HK H. eapply all_started_same; [by eapply remaining_call| |done].
  call_cases H t; [done|..]; simpl; apply combs_finishes.
Qed.

Lemma all_started_wait_for_hosts fuel thr av w s r w' s' :
  all_started U w → wait_for_hosts options fuel thr av w s = (r, w', s') →
  all_started U w'.
Proof.
  revert thr av w s. induction fuel as [|fuel IH]; intros thr av w s HK H.
  { by inversion H; subst. }
  cbn [wait_for_hosts] in H. case_bool_decide.
  - bind_cases H p w1 s1 H1; [|done..].
    apply gets_ret_inv in H1 as (_ & -> & ->).
    destruct (reclaim _ _ _ _) as [thr1 av1].
    bind_cases H u w2 s2 H2; [|by eapply all_started_call..].
    eapply all_started_call in H2; [|done].
    bind_cases H a w3 s3 H3; [|by eapply all_started_call..].
    eapply all_started_call in H3; [|done].
    destruct (negb a).
    + by apply ret_inv in H as (_ & -> & _).
    + by eapply IH.
  - by apply ret_inv in H as (_ & -> & _).
Qed.

Lemma all_started_drain fuel thr w s r w' s' :
  all_started U w → drain fuel thr w s = (r, w', s') → all_started U w'.
Proof.
  revert thr w s. induction fuel as [|fuel IH]; intros thr w s HK H.
  { by inversion H; subst. }
  cbn [drain] in H. case_bool_decide.
  - bind_cases H p w1 s1 H1; [|done..].
    apply gets_ret_inv in H1 as (_ & -> & ->).
    bind_cases H u w2 s2 H2; [|by eapply all_started_call..].
    eapply all_started_call in H2; [|done].
    by eapply IH.
  - by apply ret_inv in H as (_ & -> & _).
Qed.

Lemma all_started_dispatch fuel l w s r w' s' :
  all_started U w → dispatch ord options fuel l w s = (r, w', s') →
  r ≠ Raise → all_started U w'.
Proof.
  intros HK H Hr. unfold dispatch in H.
  bind_cases H a w1 s1 H1; [|by eapply all_started_call..].
  eapply all_started_call in H1; [|done].
  destruct (a || _); [|by apply ret_inv in H as (_ & -> & _)].
  bind_cases H l1 w2 s2 H2; [|by eapply all_started_wait_for_hosts..].
  eapply all_started_wait_for_hosts in H2; [|done].
  destruct (job_is_dead l1); [by apply ret_inv in H as (_ & -> & _)|].
  bind_cases H comb w3 s3 H3;
    [|by apply sweeper_get_next_spec in H as (? & ? & _)..].
  unfold sweeper_get_next in H3.
  destruct (Sweep.get_next ord (sweeper w2)) as [c sw] eqn:E.
  injection H3 as <- <- <-.
  destruct (not_comb c) eqn:Hc.
  - assert (all_started U (record (GetNext c) (set_sweeper sw w2))) as HK3.
    { destruct c as [c|].
      - apply SweepFacts.get_next_some in E as [_ ->].
        intros c0 Hc0 Hrem Hne. simpl in *.
        apply bool_decide_eq_true in Hc. subst c.
        apply H2; [done| |done]. intros Hx. apply Hrem.
        apply elem_of_difference. split; [done|].
        rewrite elem_of_singleton. done.
      - apply SweepFacts.get_next_none in E as [_ ->]. exact H2. }
    bind_cases H thr w4 s4 H4; [|by eapply all_started_drain..].
    eapply all_started_drain in H4; [|done].
    by apply ret_inv in H as (_ & -> & _).
  - destruct c as [c|]; [|done].
    destruct (available_hosts l1) as [|host rest]; [by inversion H; subst|].
    apply SweepFacts.get_next_some in E as [_ ->].
    bind_cases H t w4 s4 H4; [|by apply start_spec in H as (? & _)..].
    injection H4 as <- <- <-.
    apply ret_inv in H as (_ & -> & _).
    intros c0 Hc0 Hrem Hne. simpl in *. rewrite fmap_app, elem_of_app. simpl.
    destruct (decide (c0 = c)) as [->|Hneq].
    + right. by left.
    + left. apply H2; [done| |done]. intros Hx. apply Hrem.
      apply elem_of_difference. split; [done|]. by rewrite elem_of_singleton.
Qed.

Lemma all_started_dispatch_loop fuel l w s r w' s' :
  all_started U w → dispatch_loop ord options fuel l w s = (r, w', s') →
  r ≠ Raise → all_started U w'.
Proof.
  revert l w s. induction fuel as [|fuel IH]; intros l w s HK H Hr.
  { by inversion H; subst. }
  cbn [dispatch_loop] in H.
  bind_cases H c w1 s1 H1; [|done|by eapply all_started_dispatch].
  eapply all_started_dispatch in H1; [|done..].
  destruct c as [l1|l1].
  - by eapply IH.
  - by apply ret_inv in H as (_ & -> & _).
Qed.

Lemma all_started_reserve_and_dispatch fuel dead w s r w' s' :
  all_started U w →
  reserve_and_dispatch ord options fuel dead w s = (r, w', s') →
  r ≠ Raise → all_started U w'.
Proof.
  intros HK H Hr. unfold reserve_and_dispatch in H.
  bind_cases H sw w1 s1 H1; [|done..].
  apply gets_ret_inv in H1 as (-> & -> & ->).
  case_bool_decide; [|by apply ret_inv in H as (_ & -> & _)].
  bind_cases H j w1 s1 H1; [|done..].
  apply gets_ret_inv in H1 as (-> & -> & ->).
  assert (∀ r w1 s1,
    (if oargrid_job_id w is None then make_reservation else mret ()) w s
      = (r, w1, s1) → all_started U w1) as Hres.
  { intros r0 w1 s1. destruct (oargrid_job_id w).
    - by intros (_ & -> & _)%ret_inv.
    - unfold make_reservation. intros Hm.
      bind_cases Hm j w2 s2 Hm2; [|by eapply all_started_call..].
      eapply all_started_call in Hm2; [|done].
      by apply modify_inv in Hm as (_ & -> & _). }
  bind_cases H u w1 s1 H1; [|by eapply Hres..].
  apply Hres in H1. clear Hres HK.
  bind_cases H j w2 s2 H2; [|done..].
  apply gets_ret_inv in H2 as (-> & -> & ->).
  bind_cases H u2 w2 s2 H2; [|by eapply all_started_call..].
  eapply all_started_call in H2; [|done].
  bind_cases H u3 w3 s3 H3; [|by eapply all_started_call..].
  eapply all_started_call in H3; [|done].
  bind_cases H hosts w4 s4 H4; [|by eapply all_started_call..].
  eapply all_started_call in H4; [|done].
  case_bool_decide; [by apply ret_inv in H as (_ & -> & _)|].
  bind_cases H l w5 s5 Hl; [|done|by eapply all_started_dispatch_loop].
  eapply all_started_dispatch_loop in Hl; [|done..].
  bind_cases H a w6 s6 Ha; [|by eapply all_started_call..].
  eapply all_started_call in Ha; [|done].
  assert (∀ r w7 s7,
    (if (if negb a then true else job_is_dead l) then set_job_id None
     else mret ()) w6 s6 = (r, w7, s7) → all_started U w7) as Hset.
  { intros r0 w7 s7. destruct (if negb a then true else job_is_dead l).
    - by intros (_ & -> & _)%modify_inv.
    - by intros (_ & -> & _)%ret_inv. }
  bind_cases H u7 w7 s7 Hj; [|by eapply Hset..].
  apply ret_inv in H as (_ & -> & _). by eapply Hset.
Qed.

Lemma all_started_sweep_loop fuel dead w s r w' s' :
  all_started U w → sweep_loop ord options fuel dead w s = (r, w', s') →
  r ≠ Raise → all_started U w'.
Proof.
  revert dead w s. induction fuel as [|fuel IH]; intros dead w s HK H Hr.
  { by inversion H; subst. }
  cbn [sweep_loop] in H.
  bind_cases H c w1 s1 H1;
    [|done|by eapply all_started_reserve_and_dispatch].
  eapply all_started_reserve_and_dispatch in H1; [|done..].
  destruct c as [d|d].
  - by eapply IH.
  - by apply ret_inv in H as (_ & -> & _).
Qed.

End started.

Lemma all_started_run ord options parameters fuel s w' s' :
  run ord options parameters fuel init s = (Ret tt, w', s') →
  all_started (list_to_set (Sweep.sweep parameters)) w'.
Proof.
  intros H. unfold run in H.
  bind_cases H u w1 s1 H1.
  apply modify_inv in H1 as (_ & -> & ->).
  apply try_finally_inv in H as [[_ [=]]|(r1 & w1 & s1 & r2 & H & _ & Hf & Hr)].
  assert (r1 = Ret tt) as -> by (by destruct r2, r1 as [[]| |]).
  bind_cases H u1 w2 s2 H2.
  apply modify_inv in H2 as (_ & -> & ->).
  eapply all_started_sweep_loop in H; [|by intros c Hc Hn; destruct Hn|done].
  unfold release in Hf.
  bind_cases Hf j w3 s3 H3; [|done..].
  apply gets_ret_inv in H3 as (-> & -> & ->).
  destruct (oargrid_job_id w1); [|by apply ret_inv in Hf as (_ & -> & _)].
  destruct (negb _); [by eapply all_started_call|].
  by apply ret_inv in Hf as (_ & -> & _).
Qed.

Lemma filter_absent {A B} `{EqDecision B} (f : A → B) (l : list A) (x : B) :
  x ∉ f <$> l → filter (λ y, f y = x) l = [].
Proof.
  induction l as [|a l IH]; intros Hx; [done|].
  rewrite fmap_cons in Hx. apply not_elem_of_cons in Hx as [Hne Hx].
  rewrite filter_cons. rewrite decide_False by done. by apply IH.
Qed.

Lemma filter_unique {A B} `{EqDecision B} (f : A → B) (l : list A) (x : B) :
  NoDup (f <$> l) → x ∈ f <$> l →
  length (filter (λ y, f y = x) l) = 1%nat.
Proof.
  induction l as [|a l IH]; intros Hnd Hx; [by apply elem_of_nil in Hx|].
  rewrite fmap_cons in Hnd, Hx. apply NoDup_cons in Hnd as [Hna Hnd].
  rewrite filter_cons. case_decide as Ha.
  - simpl. f_equal. rewrite filter_absent; [done|]. by rewrite <- Ha.
  - apply elem_of_cons in Hx as [Hx|Hx]; [done|]. by apply IH.
Qed.

(** A run that ends normally with nothing remaining started exactly one
    thread on every combination. *)
Lemma run_once ord options parameters fuel s w' s' c :
  run ord options parameters fuel init s = (Ret tt, w', s') →
  Sweep.remaining (sweeper w') = ∅ →
  c ∈ Sweep.sweep parameters → c ≠ ∅ →
  length (filter (λ th, t_comb th = c) (pool w')) = 1%nat.
Proof.
  intros H Hrem Hc Hne.
  pose proof (Inv_run _ _ _ _ _ _ _ _ H) as HI.
  apply all_started_run in H.
  apply filter_unique; [apply (inv_nodup HI)|].
  apply H; [by apply elem_of_list_to_set| |done].
  rewrite Hrem. apply not_elem_of_empty.
Qed.
(** ** Fuel: a run with enough fuel stops only where the script does *)

(** [m] reads the script forward, and is blocked only at its end. *)
Abbreviation reads m :=
  (∀ w s r w' s', m w s = (r, w', s') →
     (length s' ≤ length s)%nat ∧ (r = Blocked → s' = [])).

Lemma reads_ret {A} (a : A) : reads (mret (M := M) a).
Proof. intros w s r w' s' [= <- <- <-]. done. Qed.

Lemma reads_gets {A} (f : World → A) : reads (gets f).
Proof. intros w s r w' s' [= <- <- <-]. done. Qed.

Lemma reads_modify f : reads (modify f).
Proof. intros w s r w' s' [= <- <- <-]. done. Qed.

Lemma reads_raise {A} : reads (raise (A := A)).
Proof. intros w s r w' s' [= <- <- <-]. done. Qed.

Lemma reads_call {A} (answer : Tick → A) event : reads (call answer event).
Proof.
  intros w s r w' s' H. call_cases H t; simpl; [done|split; [lia|done]..].
Qed.

Lemma reads_bind {A B} (m : M A) (k : A → M B) :
  reads m → (∀ a, reads (k a)) → reads (m ≫= k).
Proof.
  intros Hm Hk w s r w' s' H.
  bind_cases H a w1 s1 H1.
  - apply Hm in H1 as [L1 _]. apply Hk in H as [L2 Hb]. split; [lia|done].
  - apply Hm in H as [L _]. done.
  - apply Hm in H as [L Hb]. split; [done|]. intros _. by apply Hb.
Qed.

Lemma reads_get_next ord : reads (sweeper_get_next ord).
Proof.
  intros w s r w' s' H.
  apply sweeper_get_next_spec in H as (c & -> & -> & _). done.
Qed.

Lemma reads_start c host : reads (start c host).
Proof. intros w s r w' s' H. apply start_spec in H as (-> & -> & _). done. Qed.

Lemma reads_set_job_id j : reads (set_job_id j).
Proof. intros w s r w' s' [= <- <- <-]. done. Qed.

Lemma reads_make_reservation : reads make_reservation.
Proof.
  unfold make_reservation. apply reads_bind; [apply reads_call|].
  intros j. apply reads_set_job_id.
Qed.

(** A call that returned took one tick. *)
Lemma call_ret_length {A} (answer : Tick → A) event w s a w' s' :
  call answer event w s = (Ret a, w', s') → length s = S (length s').
Proof. intros H. apply call_ret in H as (_ & _ & _ & t & -> & _). done. Qed.

(** Closes a goal on the script left from the facts gathered so far. *)
Ltac reads_done :=
  repeat match goal with H : _ ∧ _ |- _ => destruct H end;
  repeat split; intros;
  first [ lia | congruence
        | match goal with
          | Hb : _ = Blocked → _ = [] |- _ =>
              apply Hb; first [reflexivity | assumption]
          end ].

Section fuel.
Context (ord : Sweep.Order) (options : Options).

Lemma reads_wait_for_hosts fuel thr av w s r w' s' :
  (length s < fuel)%nat →
  wait_for_hosts options fuel thr av w s = (r, w', s') →
  (length s' ≤ length s)%nat ∧ (r = Blocked → s' = []).
Proof.
  revert thr av w s. induction fuel as [|fuel IH]; intros thr av w s Hf H;
    [lia|].
  cbn [wait_for_hosts] in H. case_bool_decide.
  - bind_cases H p w1 s1 H1; [|done..].
    apply gets_ret_inv in H1 as (-> & -> & ->).
    destruct (reclaim _ _ _ _) as [thr1 av1].
    bind_cases H u w2 s2 H2; [|apply reads_call in H; reads_done..].
    apply call_ret_length in H2.
    bind_cases H a w3 s3 H3;
      [|apply reads_call in H; reads_done..].
    apply call_ret_length in H3.
    destruct (negb a).
    + apply reads_ret in H. reads_done.
    + apply IH in H; [|lia]. reads_done.
  - apply reads_ret in H. reads_done.
Qed.

Lemma reads_drain fuel thr w s r w' s' :
  (length s < fuel)%nat → drain fuel thr w s = (r, w', s') →
  (length s' ≤ length s)%nat ∧ (r = Blocked → s' = []).
Proof.
  revert thr w s. induction fuel as [|fuel IH]; intros thr w s Hf H; [lia|].
  cbn [drain] in H. case_bool_decide.
  - bind_cases H p w1 s1 H1; [|done..].
    apply gets_ret_inv in H1 as (-> & -> & ->).
    bind_cases H u w2 s2 H2; [|apply reads_call in H; reads_done..].
    apply call_ret_length in H2.
    apply IH in H; [|lia]. reads_done.
  - apply reads_ret in H. reads_done.
Qed.

Lemma reads_dispatch fuel l w s r w' s' :
  (length s < fuel)%nat → dispatch ord options fuel l w s = (r, w', s') →
  (length s' ≤ length s)%nat ∧ (r = Blocked → s' = []) ∧
  (∀ l', r = Ret (Continue l') → (length s' < length s)%nat).
Proof.
  intros Hf H. unfold dispatch in H.
  bind_cases H a w1 s1 H1;
    [|apply reads_call in H; reads_done..].
  apply call_ret_length in H1.
  assert (∀ r w' s',
    (l1 ← wait_for_hosts options fuel (threads l) (available_hosts l);
     if job_is_dead l1 then mret (Break l1)
     else comb ← sweeper_get_next ord;
          if not_comb comb then
            threads ← drain fuel (threads l1);
            mret (Break {| job_is_dead := false; threads := threads;
                           available_hosts := available_hosts l1 |})
          else match comb, available_hosts l1 with
               | Some c, host :: rest =>
                   t ← start c host;
                   mret (Continue {| job_is_dead := false;
                                     threads := threads l1 ++ [(t, host)];
                                     available_hosts := rest |})
               | _, _ => raise
               end) w1 s1 = (r, w', s') →
    (length s' ≤ length s1)%nat ∧ (r = Blocked → s' = [])) as Hbody.
  { intros r0 w0 s0 H0.
    bind_cases H0 l1 w2 s2 H2;
      [|apply reads_wait_for_hosts in H0; [reads_done|lia]..].
    apply reads_wait_for_hosts in H2 as [L2 _]; [|lia].
    destruct (job_is_dead l1).
    { apply reads_ret in H0. reads_done. }
    bind_cases H0 comb w3 s3 H3;
      [|by apply sweeper_get_next_spec in H0 as (? & ? & _)..].
    apply reads_get_next in H3 as [L3 _].
    destruct (not_comb comb).
    - bind_cases H0 thr w4 s4 H4;
        [|apply reads_drain in H0; [reads_done|lia]..].
      apply reads_drain in H4 as [L4 _]; [|lia].
      apply reads_ret in H0. reads_done.
    - destruct comb as [c|]; [|apply reads_raise in H0; reads_done].
      destruct (available_hosts l1) as [|host rest];
        [apply reads_raise in H0; reads_done|].
      bind_cases H0 t w4 s4 H4; [|by apply start_spec in H0 as (? & _)..].
      apply reads_start in H4 as [L4 _].
      apply reads_ret in H0. reads_done. }
  destruct (a || _).
  - apply Hbody in H. reads_done.
  - apply reads_ret in H. reads_done.
Qed.

Lemma reads_dispatch_loop fuel l w s r w' s' :
  (length s < fuel)%nat →
  dispatch_loop ord options fuel l w s = (r, w', s') →
  (length s' ≤ length s)%nat ∧ (r = Blocked → s' = []).
Proof.
  revert l w s. induction fuel as [|fuel IH]; intros l w s Hf H; [lia|].
  cbn [dispatch_loop] in H.
  bind_cases H c w1 s1 H1;
    [|apply reads_dispatch in H; [reads_done|lia]..].
  apply reads_dispatch in H1 as (L1 & _ & Hlt); [|lia].
  destruct c as [l1|l1].
  - specialize (Hlt l1 eq_refl). apply IH in H; [|lia]. reads_done.
  - apply reads_ret in H. reads_done.
Qed.

Lemma reads_reserve_and_dispatch fuel dead w s r w' s' :
  (length s < fuel)%nat →
  reserve_and_dispatch ord options fuel dead w s = (r, w', s') →
  (length s' ≤ length s)%nat ∧ (r = Blocked → s' = []) ∧
  (∀ d, r = Ret (Continue d) → (length s' < length s)%nat).
Proof.
  intros Hf H. unfold reserve_and_dispatch in H.
  bind_cases H sw w1 s1 H1; [|done..].
  apply gets_ret_inv in H1 as (-> & -> & ->).
  case_bool_decide;
    [|apply ret_inv in H as (-> & -> & ->); reads_done].
  bind_cases H j w1 s1 H1; [|done..].
  apply gets_ret_inv in H1 as (-> & -> & ->).
  assert (reads (if oargrid_job_id w is None then make_reservation
                 else mret ())) as Hres.
  { destruct (oargrid_job_id w);
      [apply reads_ret|apply reads_make_reservation]. }
  bind_cases H u w1 s1 H1;
    [|apply Hres in H; reads_done..].
  apply Hres in H1 as [L1 _]. clear Hres.
  bind_cases H j w2 s2 H2; [|done..].
  apply gets_ret_inv in H2 as (-> & -> & ->).
  bind_cases H u2 w2 s2 H2;
    [|apply reads_call in H; reads_done..].
  apply call_ret_length in H2.
  bind_cases H u3 w3 s3 H3;
    [|apply reads_call in H; reads_done..].
  apply call_ret_length in H3.
  bind_cases H hosts w4 s4 H4;
    [|apply reads_call in H; reads_done..].
  apply call_ret_length in H4.
  case_bool_decide;
    [apply reads_ret in H; reads_done|].
  bind_cases H l w5 s5 Hl;
    [|apply reads_dispatch_loop in H; [reads_done|lia]..].
  apply reads_dispatch_loop in Hl as [L5 _]; [|lia].
  bind_cases H a w6 s6 Ha;
    [|apply reads_call in H; reads_done..].
  apply call_ret_length in Ha.
  assert (reads (if (if negb a then true else job_is_dead l)
                 then set_job_id None else mret ())) as Hset.
  { destruct (if negb a then true else job_is_dead l);
      [apply reads_set_job_id|apply reads_ret]. }
  bind_cases H u7 w7 s7 Hj;
    [|apply Hset in H; reads_done..].
  apply Hset in Hj as [L7 _].
  apply reads_ret in H. reads_done.
Qed.

Lemma reads_sweep_loop fuel dead w s r w' s' :
  (length s < fuel)%nat →
  sweep_loop ord options fuel dead w s = (r, w', s') →
  (length s' ≤ length s)%nat ∧ (r = Blocked → s' = []).
Proof.
  revert dead w s. induction fuel as [|fuel IH]; intros dead w s Hf H; [lia|].
  cbn [sweep_loop] in H.
  bind_cases H c w1 s1 H1;
    [|apply reads_reserve_and_dispatch in H; [reads_done|lia]..].
  apply reads_reserve_and_dispatch in H1 as (L1 & _ & Hlt); [|lia].
  destruct c as [d|d].
  - specialize (Hlt d eq_refl). apply IH in H; [|lia]. reads_done.
  - apply reads_ret in H. reads_done.
Qed.

(** With more fuel than the script has ticks, [run] is blocked only on a
    call that the script does not answer. *)
Lemma run_blocked_script_over parameters fuel s w' s' :
  (length s < fuel)%nat →
  run ord options parameters fuel init s = (Blocked, w', s') → s' = [].
Proof.
  intros Hf H. unfold run in H.
  bind_cases H u w1 s1 H1; [|by apply modify_inv in H as (? & _)].
  apply modify_inv in H1 as (_ & -> & ->).
  apply try_finally_inv in H as [[H _]|(r1 & w1 & s1 & r2 & H & Hr1 & Hfin & Hr)].
  - bind_cases H u1 w2 s2 H2; [|by apply modify_inv in H as (? & _)].
    apply modify_inv in H2 as (_ & -> & ->).
    apply reads_sweep_loop in H as [_ Hb]; [|done]. by apply Hb.
  - assert (r2 = Blocked) as -> by (by destruct r2, r1).
    assert (reads (release options)) as Hrel.
    { unfold release. apply reads_bind; [apply reads_gets|].
      intros [j|]; [|apply reads_ret].
      destruct (negb _); [apply reads_call|apply reads_ret]. }
    apply Hrel in Hfin as [_ Hb]. by apply Hb.
Qed.

End fuel.

(** ** Properties of the world that every step of [run] keeps *)

(** A property [I] of the world that the end of a workflow (for the
    reports [okf] that the script delivers), the record of a call, the
    assignment of the job, [get_next] and the start of a thread on a
    combination with entries all keep, holds wherever a run stands. *)
Section keeps.
Context (ord : Sweep.Order) (options : Options).
Context (I : World → Prop) (okf : nat * bool → Prop).
Context (I_finish : ∀ w f, okf f → I w → I (finish w f)).
Context (I_log : ∀ w l, I w → I (set_log l w)).
Context (I_job : ∀ w j, I w →
  I {| sweeper := sweeper w; pool := pool w; reports := reports w;
       oargrid_job_id := j; log := log w |}).
Context (I_next : ∀ w, I w →
  I (set_sweeper (Sweep.get_next ord (sweeper w)).2 w)).
Context (I_start : ∀ w c host, c ≠ ∅ → I w →
  I {| sweeper := sweeper w;
       pool := pool w ++ [{| t_comb := c; t_host := host; t_alive := true |}];
       reports := reports w; oargrid_job_id := oargrid_job_id w;
       log := log w |}).

Abbreviation reports_ok s := (Forall (λ t, Forall okf (finished t)) s).

Abbreviation keeps m :=
  (∀ w s r w' s', I w → reports_ok s → m w s = (r, w', s') →
     I w' ∧ reports_ok s').

Lemma keeps_finishes w fs : Forall okf fs → I w → I (foldl finish w fs).
Proof.
  revert w. induction fs as [|f fs IH]; intros w Hfs HI; simpl; [done|].
  apply Forall_cons in Hfs as [Hf Hfs]. apply IH; [done|]. by apply I_finish.
Qed.

Lemma keeps_ret {A} (a : A) : keeps (mret (M := M) a).
Proof. by intros w s r w' s' HI Hs (_ & -> & ->)%ret_inv. Qed.

Lemma keeps_gets {A} (f : World → A) : keeps (gets f).
Proof. by intros w s r w' s' HI Hs (_ & -> & ->)%gets_inv. Qed.

Lemma keeps_raise {A} : keeps (raise (A := A)).
Proof. intros w s r w' s' HI Hs H. by inversion H; subst. Qed.

Lemma keeps_blocked {A} : keeps (blocked (A := A)).
Proof. intros w s r w' s' HI Hs H. by inversion H; subst. Qed.

Lemma keeps_bind {A B} (m : M A) (k : A → M B) :
  keeps m → (∀ a, keeps (k a)) → keeps (m ≫= k).
Proof.
  intros Hm Hk w s r w' s' HI Hs H.
  apply bind_inv in H as [(a & w1 & s1 & H1 & H) | [[H _] | [H _]]].
  - destruct (Hm _ _ _ _ _ HI Hs H1) as [HI1 Hs1]. by eapply Hk.
  - by eapply Hm.
  - by eapply Hm.
Qed.

Lemma keeps_call {A} (answer : Tick → A) event : keeps (call answer event).
Proof.
  intros w s r w' s' HI Hs H.
  call_cases H t; [done|..]; apply Forall_cons in Hs as [Ht Hs];
    (split; [|done]); apply I_log; by apply keeps_finishes.
Qed.

Lemma keeps_set_job_id j : keeps (set_job_id j).
Proof.
  intros w s r w' s' HI Hs (_ & -> & ->)%modify_inv. split; [|done].
  by apply I_job.
Qed.

Lemma keeps_get_next : keeps (sweeper_get_next ord).
Proof.
  intros w s r w' s' HI Hs H. unfold sweeper_get_next in H.
  pose proof (I_next w HI) as Hn.
  destruct (Sweep.get_next ord (sweeper w)) as [c sw].
  injection H as <- <- <-. split; [|done]. by apply I_log.
Qed.

Lemma keeps_start c host : c ≠ ∅ → keeps (start c host).
Proof.
  intros Hc w s r w' s' HI Hs H. injection H as <- <- <-. split; [|done].
  apply I_log. by apply I_start.
Qed.

Lemma keeps_wait_for_hosts fuel thr av :
  keeps (wait_for_hosts options fuel thr av).
Proof.
  revert thr av. induction fuel as [|fuel IH]; intros thr av.
  { apply keeps_blocked. }
  cbn [wait_for_hosts]. case_bool_decide; [|apply keeps_ret].
  apply keeps_bind; [apply keeps_gets|]. intros p.
  destruct (reclaim _ _ _ _) as [thr1 av1].
  apply keeps_bind; [apply keeps_call|]. intros _.
  apply keeps_bind; [apply keeps_call|]. intros a.
  destruct (negb a); [apply keeps_ret|apply IH].
Qed.

Lemma keeps_drain fuel thr : keeps (drain fuel thr).
Proof.
  revert thr. induction fuel as [|fuel IH]; intros thr.
  { apply keeps_blocked. }
  cbn [drain]. case_bool_decide; [|apply keeps_ret].
  apply keeps_bind; [apply keeps_gets|]. intros p.
  apply keeps_bind; [apply keeps_call|]. intros _. apply IH.
Qed.

Lemma keeps_dispatch fuel l : keeps (dispatch ord options fuel l).
Proof.
  unfold dispatch. apply keeps_bind; [apply keeps_call|]. intros a.
  destruct (a || _); [|apply keeps_ret].
  apply keeps_bind; [apply keeps_wait_for_hosts|]. intros l1.
  destruct (job_is_dead l1); [apply keeps_ret|].
  apply keeps_bind; [apply keeps_get_next|]. intros comb.
  destruct (not_comb comb) eqn:Hc.
  - apply keeps_bind; [apply keeps_drain|]. intros thr. apply keeps_ret.
  - destruct comb as [c|]; [|apply keeps_raise].
    destruct (available_hosts l1) as [|host rest]; [apply keeps_raise|].
    apply keeps_bind; [|intros t; apply keeps_ret].
    apply keeps_start. intros ->. simpl in Hc. by rewrite bool_decide_eq_false in Hc.
Qed.

Lemma keeps_dispatch_loop fuel l : keeps (dispatch_loop ord options fuel l).
Proof.
  revert l. induction fuel as [|fuel IH]; intros l.
  { apply keeps_blocked. }
  cbn [dispatch_loop]. apply keeps_bind; [apply keeps_dispatch|].
  intros [l1|l1]; [apply IH|apply keeps_ret].
Qed.

Lemma keeps_reserve_and_dispatch fuel dead :
  keeps (reserve_and_dispatch ord options fuel dead).
Proof.
  unfold reserve_and_dispatch. apply keeps_bind; [apply keeps_gets|].
  intros sw. case_bool_decide; [|apply keeps_ret].
  apply keeps_bind; [apply keeps_gets|]. intros j.
  apply keeps_bind.
  { destruct j; [apply keeps_ret|]. unfold make_reservation.
    apply keeps_bind; [apply keeps_call|]. intros j.
    apply keeps_set_job_id. }
  intros _. apply keeps_bind; [apply keeps_gets|]. intros j'.
  apply keeps_bind; [apply keeps_call|]. intros _.
  apply keeps_bind; [apply keeps_call|]. intros _.
  apply keeps_bind; [apply keeps_call|]. intros hosts.
  case_bool_decide; [apply keeps_ret|].
  apply keeps_bind; [apply keeps_dispatch_loop|]. intros l.
  apply keeps_bind; [apply keeps_call|]. intros a.
  apply keeps_bind; [|intros _; apply keeps_ret].
  destruct (if negb a then _ else _);
    [apply keeps_set_job_id|apply keeps_ret].
Qed.

Lemma keeps_sweep_loop fuel dead : keeps (sweep_loop ord options fuel dead).
Proof.
  revert dead. induction fuel as [|fuel IH]; intros dead.
  { apply keeps_blocked. }
  cbn [sweep_loop]. apply keeps_bind; [apply keeps_reserve_and_dispatch|].
  intros [d|d]; [apply IH|apply keeps_ret].
Qed.

Lemma keeps_release : keeps (release options).
Proof.
  unfold release. apply keeps_bind; [apply keeps_gets|].
  intros [j|]; [|apply keeps_ret].
  destruct (negb _); [apply keeps_call|apply keeps_ret].
Qed.

Lemma keeps_try_finally {A} (body : M A) final :
  keeps body → keeps final → keeps (try_finally body final).
Proof.
  intros Hb Hf w s r w' s' HI Hs H. unfold try_finally in H.
  destruct (body w s) as [[r1 w1] s1] eqn:E1.
  destruct (Hb _ _ _ _ _ HI Hs E1) as [HI1 Hs1].
  assert (∀ r2 w2 s2, final w1 s1 = (r2, w2, s2) → I w2 ∧ reports_ok s2)
    as Hfin by (intros; by eapply Hf).
  destruct r1; [| |by injection H as <- <- <-];
    destruct (final w1 s1) as [[r2 w2] s2];
    destruct r2; injection H as <- <- <-; by eapply Hfin.
Qed.

(** The property holds in the world in which [run] ends or stands blocked,
    if it holds at the start and [define_parameters] keeps it. *)
Lemma keeps_run parameters fuel s :
  I init →
  (∀ w, I w → I (set_sweeper (Sweep.new (Sweep.sweep parameters)) w)) →
  reports_ok s →
  I (run ord options parameters fuel init s).1.2.
Proof.
  intros H0 Hd Hs.
  destruct (run ord options parameters fuel init s) as [[r w'] s'] eqn:H.
  simpl. unfold run in H.
  assert (keeps (try_finally
    (_ ← define_parameters parameters; sweep_loop ord options fuel false)
    (release options))) as Hk.
  { apply keeps_try_finally; [|apply keeps_release].
    apply keeps_bind; [|intros _; apply keeps_sweep_loop].
    intros w0 s0 r0 w1 s1 HI Hs0 (_ & -> & ->)%modify_inv. split; [|done].
    by apply Hd. }
  bind_cases H u w1 s1 H1; [|by apply modify_inv in H as (? & _)..].
  apply modify_inv in H1 as (_ & -> & ->).
  eapply Hk in H; [by destruct H| |done]. by apply I_job.
Qed.

End keeps.
(** ** The poll of the threads, as a filter *)

Lemma filter_ext_in {A} (P Q : A → Prop) `{!∀ x, Decision (P x)}
    `{!∀ x, Decision (Q x)} (l : list A) :
  (∀ x, x ∈ l → P x ↔ Q x) → filter P l = filter Q l.
Proof.
  induction l as [|x l IH]; intros HPQ; [done|].
  rewrite !filter_cons. rewrite IH by (intros y Hy; apply HPQ; by right).
  apply decide_ext, HPQ. by left.
Qed.

Lemma filter_all {A} (P : A → Prop) `{!∀ x, Decision (P x)} (l : list A) :
  (∀ x, x ∈ l → P x) → filter P l = l.
Proof.
  induction l as [|x l IH]; intros HP; [done|].
  rewrite filter_cons_True by (apply HP; by left).
  rewrite IH; [done|]. intros y Hy. apply HP. by right.
Qed.

Lemma reclaim_filter p tmp thr av :
  (reclaim p tmp thr av).1 = filter (λ y, y.1 ∉ (ended p tmp).*1) thr.
Proof.
  revert thr av. induction tmp as [|[t h] tmp IH]; intros thr av; simpl.
  { symmetry. apply filter_all. intros y _. apply not_elem_of_nil. }
  unfold ended. rewrite filter_cons. simpl.
  destruct (is_alive p t) eqn:Ht.
  - rewrite decide_False by done. apply IH.
  - rewrite decide_True by done. rewrite IH. unfold del.
    rewrite list_filter_filter. apply list_filter_iff. intros y. simpl.
    rewrite not_elem_of_cons. tauto.
Qed.

(** After the poll, [threads] holds the threads that run, in their order. *)
Lemma reclaim_alive p thr av :
  (reclaim p thr thr av).1 = filter (λ y, is_alive p y.1 = true) thr.
Proof.
  rewrite reclaim_filter. apply filter_ext_in. intros y Hy.
  unfold ended. rewrite list_elem_of_fmap. split.
  - intros Hn. destruct (is_alive p y.1) eqn:E; [done|].
    destruct Hn. exists y. split; [done|]. by apply list_elem_of_filter.
  - intros Ha (z & Hz & [Hd _]%list_elem_of_filter). congruence.
Qed.

(** The poll neither loses nor invents a slot. *)
Lemma reclaim_slots p thr av :
  (reclaim p thr thr av).2 ++ (reclaim p thr thr av).1.*2 ≡ₚ av ++ thr.*2.
Proof.
  rewrite reclaim_hosts, reclaim_alive. rewrite <-(assoc_L (++)).
  apply Permutation_app_head. rewrite <-fmap_app. apply fmap_Permutation.
  rewrite Permutation_app_comm. unfold ended.
  rewrite <-(filter_app_complement (λ y, is_alive p y.1 = true) thr) at 3.
  apply Permutation_app_head.
  erewrite (list_filter_iff (λ x, is_alive p x.1 = false)); [done|].
  intros y. simpl. by destruct (is_alive p y.1).
Qed.

Lemma forget_alive p thr :
  forget p thr thr = filter (λ y, is_alive p y.1 = true) thr.
Proof. rewrite (forget_reclaim _ _ _ []). apply reclaim_alive. Qed.

(** ** Steps that only poll *)

Lemma polls_refl w : polls w w.
Proof.
  repeat split. exists []. by rewrite app_nil_r.
Qed.

Lemma polls_trans w1 w2 w3 : polls w1 w2 → polls w2 w3 → polls w1 w3.
Proof.
  intros (Hp1 & Hr1 & tr1 & Hl1 & Ht1) (Hp2 & Hr2 & tr2 & Hl2 & Ht2).
  split; [congruence|]. split; [congruence|]. exists (tr1 ++ tr2).
  rewrite Hl2, Hl1, (assoc_L (++)). split; [done|]. by apply Forall_app.
Qed.

Lemma polls_call {A} (answer : Tick → A) (event : A → Event) w s r w' s' :
  (∀ a, is_poll (event a) = true) →
  (∀ a, is_poll (Raised (event a)) = true) →
  call answer event w s = (r, w', s') → polls w w'.
Proof.
  intros He Hr H. pose proof (call_spec _ _ _ _ _ _ _ H) as ([Hlen _] & _ & Hl).
  split; [done|]. split; [by eapply remaining_call|].
  destruct Hl as [(_ & _ & ->)|[(t & _ & _ & _ & ->)|(t & _ & _ & _ & ->)]].
  - exists []. by rewrite app_nil_r.
  - eexists. split; [done|]. by apply Forall_singleton.
  - eexists. split; [done|]. by apply Forall_singleton.
Qed.

Section more.
Context (ord : Sweep.Order) (options : Options).

(** ** The slots through the wait and through a turn *)

Lemma wait_for_hosts_slots fuel thr av w s l w' s' :
  wait_for_hosts options fuel thr av w s = (Ret l, w', s') →
  slots_of l ≡ₚ av ++ thr.*2.
Proof.
  revert thr av w s. induction fuel as [|fuel IH]; intros thr av w s H.
  { by inversion H. }
  cbn [wait_for_hosts] in H. case_bool_decide.
  - bind_cases H p w1 s1 H1.
    apply gets_ret_inv in H1 as (-> & -> & ->).
    pose proof (reclaim_slots (pool w) thr av) as Hs.
    destruct (reclaim _ _ _ _) as [thr1 av1]. simpl in Hs.
    bind_cases H u w2 s2 H2. bind_cases H a w3 s3 H3.
    destruct (negb a).
    + apply ret_inv in H as ([= E] & _); subst. exact Hs.
    + apply IH in H. by rewrite H.
  - apply ret_inv in H as ([= E] & _); by subst.
Qed.

Lemma dispatch_slots fuel l w s c w' s' :
  dispatch ord options fuel l w s = (Ret c, w', s') →
  match c with
  | Continue l' => slots_of l' ≡ₚ slots_of l
  | Break l' => slots_of l' ⊆+ slots_of l
  end.
Proof.
  intros H. unfold dispatch in H.
  bind_cases H a w1 s1 H1.
  destruct (a || _); [|apply ret_inv in H as ([= E] & _); by subst].
  bind_cases H l1 w2 s2 H2. apply wait_for_hosts_slots in H2.
  fold (slots_of l) in H2.
  destruct (job_is_dead l1).
  { apply ret_inv in H as ([= E] & _); subst. by rewrite H2. }
  bind_cases H comb w3 s3 H3.
  destruct (not_comb comb).
  - bind_cases H thr w4 s4 H4. apply ret_inv in H as ([= E] & _); subst.
    apply drain_spec in H4 as (_ & _ & (j & tl & _ & Hd & _) & _).
    inversion Hd; subst.
    rewrite <-H2. unfold slots_of. simpl. rewrite app_nil_r.
    by apply submseteq_inserts_r.
  - destruct comb as [c0|]; [|by inversion H].
    destruct (available_hosts l1) as [|host rest] eqn:Ha; [by inversion H|].
    bind_cases H t w4 s4 H4. apply ret_inv in H as ([= E] & _); subst.
    rewrite <-H2. unfold slots_of. simpl. rewrite Ha, fmap_app. simpl.
    rewrite (assoc_L (++)), <-Permutation_cons_append. done.
Qed.

(** ** With no thread listed and too few free hosts *)

Lemma wait_starved fuel av w s r w' s' :
  n_nodes options > Z.of_nat (length av) →
  wait_for_hosts options fuel [] av w s = (r, w', s') →
  polls w w' ∧
  ∀ l, r = Ret l →
       l = {| job_is_dead := true; threads := []; available_hosts := av |}.
Proof.
  intros Hn. revert w s. induction fuel as [|fuel IH]; intros w s H.
  { inversion H; subst. split; [apply polls_refl|done]. }
  cbn [wait_for_hosts] in H. rewrite bool_decide_true in H by done.
  bind_cases H p w1 s1 H1; [|done..].
  apply gets_ret_inv in H1 as (-> & -> & ->). simpl in H.
  bind_cases H u w2 s2 H2;
    [|eapply polls_call in H; [|done..]; by split..].
  eapply polls_call in H2; [|done..].
  bind_cases H a w3 s3 H3;
    [|eapply polls_call in H; [|done..]; split;
      [by eapply polls_trans|done]..].
  eapply polls_call in H3; [|done..].
  assert (polls w w3) as Hp by (by eapply polls_trans).
  destruct (negb a).
  - apply ret_inv in H as (-> & -> & _). split; [done|].
    by intros l [= <-].
  - apply IH in H as [Hp' Hl]. split; [|done]. by eapply polls_trans.
Qed.

Lemma dispatch_starved fuel l w s r w' s' :
  threads l = [] →
  n_nodes options > Z.of_nat (length (available_hosts l)) →
  dispatch ord options fuel l w s = (r, w', s') →
  polls w w' ∧
  ∀ c, r = Ret c →
    ∃ l', c = Break l' ∧ threads l' = [] ∧
          available_hosts l' = available_hosts l ∧
          (l' = l ∨ job_is_dead l' = true).
Proof.
  intros Ht Hn H. unfold dispatch in H.
  bind_cases H a w1 s1 H1; [|eapply polls_call in H; [|done..]; by split..].
  eapply polls_call in H1; [|done..].
  destruct (a || _).
  - rewrite Ht in H.
    bind_cases H l1 w2 s2 H2;
      [|apply wait_starved in H as [Hp _]; [|done]; split;
        [by eapply polls_trans|done]..].
    apply wait_starved in H2 as [Hp Hl]; [|done].
    rewrite (Hl l1 eq_refl) in H. simpl in H.
    apply ret_inv in H as (-> & -> & _). split; [by eapply polls_trans|].
    intros c [= <-]. eexists. split; [done|]. simpl. eauto.
  - apply ret_inv in H as (-> & -> & _). split; [done|].
    intros c [= <-]. exists l. eauto.
Qed.

(** ** How the outer loop ends *)

Lemma reserve_and_dispatch_break fuel dead d w s w' s' :
  reserve_and_dispatch ord options fuel dead w s = (Ret (Break d), w', s') →
  Sweep.remaining (sweeper w') = ∅ ∨ last (log w') = Some (Deploy []).
Proof.
  intros H. unfold reserve_and_dispatch in H.
  bind_cases H sw w1 s1 H1.
  apply gets_ret_inv in H1 as (-> & -> & ->).
  case_bool_decide as Hsz.
  - right.
    bind_cases H j w1 s1 H1. bind_cases H u w2 s2 H2.
    bind_cases H j' w3 s3 H3. bind_cases H u4 w4 s4 H4.
    bind_cases H u5 w5 s5 H5. bind_cases H hosts w6 s6 H6.
    case_bool_decide as Hh.
    + apply ret_inv in H as (_ & -> & _).
      apply call_ret in H6 as (_ & _ & -> & _).
      apply nil_length_inv in Hh. subst hosts. by rewrite last_snoc.
    + bind_cases H l w7 s7 H7. bind_cases H a w8 s8 H8.
      bind_cases H u9 w9 s9 H9. by apply ret_inv in H as ([=] & _).
  - left. apply ret_inv in H as (_ & -> & _).
    unfold Sweep.get_remaining in Hsz.
    apply leibniz_equiv, size_empty_inv. lia.
Qed.

Lemma sweep_loop_ret fuel dead w s w' s' :
  sweep_loop ord options fuel dead w s = (Ret tt, w', s') →
  Sweep.remaining (sweeper w') = ∅ ∨ last (log w') = Some (Deploy []).
Proof.
  revert dead w s. induction fuel as [|fuel IH]; intros dead w s H.
  { by inversion H. }
  cbn [sweep_loop] in H. bind_cases H c w1 s1 H1.
  destruct c as [d|d]; [by eapply IH|].
  apply ret_inv in H as (_ & -> & _). by eapply reserve_and_dispatch_break.
Qed.

End more.
(** ** The calls of the benchmark script *)

Module PrototypeFacts.
Import Prototype.

Ltac run_cases :=
  unfold mbind, Run_bind, ext, check, lift, throw, mret, Run_ret in *;
  repeat (simplify_eq/=;
          match goal with
          | H : context [match ?x with _ => _ end] |- _ =>
              let E := fresh "E" in destruct x eqn:E
          end);
  simplify_eq/=.

(** The reservations make calls, none of them [oardel]. *)
Lemma reservations_calls env calls0 r calls :
  reservations env calls0 = (r, calls) →
  ∃ tr, calls = calls0 ++ tr ∧ filter (λ c, is_oardel c = true) tr = [].
Proof.
  unfold reservations. intros H. run_cases.
  all: rewrite <-?(assoc_L (++)); eexists; split; [done|done].
Qed.

(** So does the body of the [try]. *)
Lemma benchmark_calls env sid hosts calls0 r calls :
  benchmark env sid hosts calls0 = (r, calls) →
  ∃ tr, calls = calls0 ++ tr ∧ filter (λ c, is_oardel c = true) tr = [].
Proof.
  unfold benchmark. intros H. run_cases.
  all: rewrite <-?(assoc_L (++)); eexists; split; [done|done].
Qed.

Lemma main_unfold env sid job hosts calls0 :
  reservations env [] = (Ok (sid, job, hosts), calls0) →
  main env [] =
    let '(r, calls) := benchmark env sid hosts calls0 in
    (match oardel_ok env with Some _ => r | None => Error CallError end,
     calls ++ [Oardel [(Some sid, storage_site); (job, distant_site)]]).
Proof.
  intros H. unfold main. unfold mbind at 1, Run_bind at 1. rewrite H.
  unfold try_finally, teardown, ext.
  destruct (benchmark env sid hosts calls0) as [r calls].
  by destruct (oardel_ok env).
Qed.

Lemma main_error env e calls0 :
  reservations env [] = (Error e, calls0) → main env [] = (Error e, calls0).
Proof.
  intros H. unfold main. unfold mbind at 1, Run_bind at 1. by rewrite H.
Qed.

End PrototypeFacts.
(** ** The slots and the threads that run *)

Lemma hosts_finishes w fs :
  t_host <$> pool (foldl finish w fs) = t_host <$> pool w.
Proof.
  revert w. induction fs as [|f fs IH]; intros w; simpl; [done|].
  rewrite IH. unfold finish.
  destruct (pool w !! f.1) as [th|] eqn:Ht; [|done].
  destruct (t_alive th); [|done]. simpl.
  rewrite list_fmap_insert. simpl. apply list_insert_id.
  by rewrite list_lookup_fmap, Ht.
Qed.

Lemma hosts_call {A} (answer : Tick → A) event w s r w' s' :
  call answer event w s = (r, w', s') →
  t_host <$> pool w' = t_host <$> pool w.
Proof. intros H. call_cases H t; [done|..]; simpl; apply hosts_finishes. Qed.

Lemma omap_ext_in {A B} (f g : A → option B) (l : list A) :
  (∀ x, x ∈ l → f x = g x) → omap f l = omap g l.
Proof.
  intros H. apply list_omap_ext, Forall_Forall2_diag, Forall_forall, H.
Qed.

Lemma omap_submseteq {A B} (f : A → option B) (l k : list A) :
  l ⊆+ k → omap f l ⊆+ omap f k.
Proof.
  induction 1 as [|x l k _ IH|x y l|x l k _ IH|l k m _ IH1 _ IH2]; csimpl.
  - done.
  - destruct (f x); [by apply submseteq_skip|done].
  - destruct (f x), (f y); try done. apply submseteq_swap.
  - destruct (f x); [by apply submseteq_cons|done].
  - by etrans.
Qed.

(** The pool seen by positions. *)
Lemma busy_positions p n0 :
  busy p n0 =
    omap (λ t, t_host <$> p !! t)
      (filter (λ t, is_alive p t = true) (seq n0 (length p - n0))).
Proof.
  unfold busy. induction p as [|th p IH] using rev_ind.
  { by rewrite drop_nil. }
  destruct (decide (n0 ≤ length p)%nat) as [Hle|Hgt].
  - rewrite drop_app_le by done. rewrite length_app. simpl.
    replace (length p + 1 - n0)%nat with (S (length p - n0)) by lia.
    rewrite seq_S, !filter_app, fmap_app, omap_app, IH.
    replace (n0 + (length p - n0))%nat with (length p) by lia.
    assert (∀ t, t ∈ seq n0 (length p - n0) →
                 (p ++ [th]) !! t = p !! t) as Hlk.
    { intros t [_ Ht]%elem_of_seq. apply lookup_app_l. lia. }
    f_equal.
    + rewrite (filter_ext_in (λ t, is_alive (p ++ [th]) t = true)
                 (λ t, is_alive p t = true)).
      2:{ intros t Ht. unfold is_alive. by rewrite Hlk. }
      apply omap_ext_in. intros t [_ Ht]%list_elem_of_filter.
      by rewrite Hlk.
    + rewrite !filter_cons, !filter_nil. unfold is_alive.
      rewrite list_lookup_middle by done.
      destruct (decide (t_alive th = true)); [|done]. simpl.
      by rewrite list_lookup_middle.
  - rewrite drop_ge by (rewrite length_app; simpl; lia).
    rewrite length_app. simpl.
    by replace (length p + 1 - n0)%nat with 0%nat by lia.
Qed.

(** What is listed accounts for what runs. *)
Lemma Listed_busy n0 cap thr av p :
  Listed n0 cap thr av p → busy p n0 ⊆+ cap.
Proof.
  intros [Hnd Hh Hr Hs Hp]. rewrite busy_positions.
  transitivity (thr.*2); [|etrans; [|exact Hs]; by apply submseteq_inserts_l].
  transitivity (omap (λ t, t_host <$> p !! t) thr.*1).
  - apply omap_submseteq. apply NoDup_submseteq.
    + apply NoDup_filter, NoDup_seq.
    + intros t [Ha [Hn _]%elem_of_seq]%list_elem_of_filter. by apply Hr.
  - assert (∀ y, y ∈ thr → t_host <$> p !! y.1 = Some y.2) as Hy.
    { intros [t h] Hin. simpl.
      destruct (Hh t h Hin) as (_ & th & Hl & <-). by rewrite Hl. }
    clear -Hy. induction thr as [|[t h] thr IH]; [done|]. csimpl.
    pose proof (Hy (t, h) ltac:(by left)) as Ht. simpl in Ht. rewrite Ht.
    apply submseteq_skip, IH. intros y Hin. apply Hy. by right.
Qed.

Lemma Listed_ages n0 cap thr av p p' :
  Listed n0 cap thr av p → pool_ends p p' →
  t_host <$> p' = t_host <$> p → Listed n0 cap thr av p'.
Proof.
  intros [Hnd Hh Hr Hs Hp] [Hlen Hal] Hhosts. split; [done| | |done|lia].
  - intros t h Hin. destruct (Hh t h Hin) as (Hn & th & Hl & Hth).
    split; [done|].
    assert ((t_host <$> p') !! t = Some h) as Hl'.
    { by rewrite Hhosts, list_lookup_fmap, Hl, <-Hth. }
    rewrite list_lookup_fmap in Hl'.
    destruct (p' !! t) as [th'|]; [|done]. injection Hl' as <-. by eexists.
  - intros t Hn Ha. apply Hr; [done|]. by apply Hal.
Qed.

Lemma Listed_call {A} (answer : Tick → A) event n0 cap thr av w s r w' s' :
  Listed n0 cap thr av (pool w) → call answer event w s = (r, w', s') →
  Listed n0 cap thr av (pool w').
Proof.
  intros HL H. eapply Listed_ages; [done|by eapply pool_ends_call|].
  by eapply hosts_call.
Qed.

Lemma Listed_reclaim n0 cap thr av p :
  Listed n0 cap thr av p →
  Listed n0 cap (reclaim p thr thr av).1 (reclaim p thr thr av).2 p.
Proof.
  intros [Hnd Hh Hr Hs Hp]. split; [| | | |done].
  - rewrite reclaim_alive. eapply sublist_NoDup; [done|].
    apply fmap_sublist, sublist_filter.
  - intros t h [Hin _]%reclaim_running. by apply Hh.
  - intros t Hn Ha. apply Hr in Ha as Hin; [|done].
    apply list_elem_of_fmap in Hin as ([t' h] & -> & Hin).
    apply list_elem_of_fmap. exists (t', h). split; [done|].
    by apply reclaim_running.
  - by rewrite reclaim_slots.
Qed.

Lemma Listed_forget n0 cap thr av p :
  Listed n0 cap thr av p → Listed n0 cap (forget p thr thr) av p.
Proof.
  intros HL. pose proof (Listed_reclaim _ _ _ _ _ HL) as [Hnd Hh Hr Hs Hp].
  rewrite (forget_reclaim _ _ _ av). split; [done..| |done].
  destruct HL as [_ _ _ Hs' _]. etrans; [|exact Hs'].
  apply submseteq_app; [done|]. apply sublist_submseteq.
  rewrite reclaim_alive. apply fmap_sublist, sublist_filter.
Qed.

Lemma Listed_start n0 cap thr host rest p c :
  Listed n0 cap thr (host :: rest) p →
  Listed n0 cap (thr ++ [(length p, host)]) rest
    (p ++ [{| t_comb := c; t_host := host; t_alive := true |}]).
Proof.
  intros [Hnd Hh Hr Hs Hp]. split.
  - rewrite fmap_app. apply NoDup_app. split; [done|]. split.
    + intros t Hin ->%list_elem_of_singleton.
      apply list_elem_of_fmap in Hin as ([t' h] & Ht & Hin). simpl in Ht.
      subst t'. destruct (Hh _ _ Hin) as (_ & th & Hl & _).
      apply lookup_lt_Some in Hl. lia.
    + apply NoDup_singleton.
  - intros t h [Hin|Hin%list_elem_of_singleton]%elem_of_app.
    + destruct (Hh _ _ Hin) as (Hn & th & Hl & Hth). split; [done|].
      exists th. split; [|done]. rewrite lookup_app_l; [done|].
      by eapply lookup_lt_Some.
    + injection Hin as -> ->. split; [done|]. eexists.
      split; [apply list_lookup_middle; done|done].
  - intros t Hn Ha. rewrite fmap_app, elem_of_app.
    destruct (decide (t < length p)%nat) as [Hlt|Hge].
    + left. apply Hr; [done|]. unfold is_alive in *.
      by rewrite lookup_app_l in Ha.
    + right. apply list_elem_of_singleton. simpl.
      unfold is_alive in Ha.
      destruct (_ !! t) as [th|] eqn:Hl; [|done].
      apply lookup_lt_Some in Hl. rewrite length_app in Hl. simpl in Hl. lia.
  - etrans; [|exact Hs]. rewrite fmap_app. simpl.
    rewrite (assoc_L (++)), <-Permutation_cons_append. done.
  - rewrite length_app. lia.
Qed.

Section capacity.
Context (ord : Sweep.Order) (options : Options).
Context (n0 : nat) (cap : list Host).

Lemma Listed_wait_for_hosts fuel thr av w s r w' s' :
  Listed n0 cap thr av (pool w) →
  wait_for_hosts options fuel thr av w s = (r, w', s') →
  ∃ thr' av', Listed n0 cap thr' av' (pool w') ∧
    ∀ l, r = Ret l → threads l = thr' ∧ available_hosts l = av'.
Proof.
  revert thr av w s. induction fuel as [|fuel IH]; intros thr av w s HL H.
  { inversion H; subst. by exists thr, av. }
  cbn [wait_for_hosts] in H. case_bool_decide.
  - bind_cases H p w1 s1 H1; [|done..].
    apply gets_ret_inv in H1 as (-> & -> & ->).
    apply Listed_reclaim in HL.
    destruct (reclaim _ _ _ _) as [thr1 av1]. simpl in HL.
    bind_cases H u w2 s2 H2;
      [|eapply Listed_call in H; [|done]; by exists thr1, av1..].
    eapply Listed_call in H2; [|done].
    bind_cases H a w3 s3 H3;
      [|eapply Listed_call in H; [|done]; by exists thr1, av1..].
    eapply Listed_call in H3; [|done].
    destruct (negb a).
    + apply ret_inv in H as (-> & -> & _). exists thr1, av1.
      split; [done|]. by intros l [= <-].
    + by eapply IH.
  - apply ret_inv in H as (-> & -> & _). exists thr, av.
    split; [done|]. by intros l [= <-].
Qed.

Lemma Listed_drain fuel thr av w s r w' s' :
  Listed n0 cap thr av (pool w) →
  drain fuel thr w s = (r, w', s') →
  ∃ thr', Listed n0 cap thr' av (pool w') ∧ ∀ x, r = Ret x → x = thr'.
Proof.
  revert thr w s. induction fuel as [|fuel IH]; intros thr w s HL H.
  { inversion H; subst. by exists thr. }
  cbn [drain] in H. case_bool_decide.
  - bind_cases H p w1 s1 H1; [|done..].
    apply gets_ret_inv in H1 as (-> & -> & ->).
    apply Listed_forget in HL.
    bind_cases H u w2 s2 H2;
      [|eapply Listed_call in H; [|done]; by eexists..].
    eapply Listed_call in H2; [|done]. by eapply IH.
  - apply ret_inv in H as (-> & -> & _). exists thr.
    split; [done|]. by intros l [= <-].
Qed.

Lemma Listed_dispatch fuel l w s r w' s' :
  Listed n0 cap (threads l) (available_hosts l) (pool w) →
  dispatch ord options fuel l w s = (r, w', s') →
  ∃ thr' av', Listed n0 cap thr' av' (pool w') ∧
    ∀ c, r = Ret c →
      match c with Continue l' | Break l' =>
        threads l' = thr' ∧ available_hosts l' = av'
      end.
Proof.
  intros HL H. unfold dispatch in H.
  bind_cases H a w1 s1 H1;
    [|eapply Listed_call in H; [|done]; by do 2 eexists..].
  eapply Listed_call in H1; [|done].
  destruct (a || _).
  2:{ apply ret_inv in H as (-> & -> & _). do 2 eexists.
      split; [done|]. by intros c [= <-]. }
  bind_cases H l1 w2 s2 H2;
    [|eapply Listed_wait_for_hosts in H as (thr' & av' & HL' & _); [|done];
      by exists thr', av'..].
  eapply Listed_wait_for_hosts in H2 as (thr' & av' & HL' & Hl1); [|done].
  destruct (Hl1 l1 eq_refl) as [<- <-]. clear Hl1.
  destruct (job_is_dead l1).
  { apply ret_inv in H as (-> & -> & _). do 2 eexists.
    split; [done|]. by intros c [= <-]. }
  assert (∀ r w3 s3, sweeper_get_next ord w2 s2 = (r, w3, s3) →
                     pool w3 = pool w2) as Hnext.
  { intros r0 w3 s3 Hn. by apply sweeper_get_next_spec in Hn as (? & _ & _ & -> & _). }
  bind_cases H comb w3 s3 H3;
    [|apply Hnext in H; rewrite <-H in HL'; by do 2 eexists..].
  apply Hnext in H3. rewrite <-H3 in HL'.
  destruct (not_comb comb).
  - bind_cases H thr w4 s4 H4;
      [|eapply Listed_drain in H as (thr' & HL4 & _); [|done];
        by do 2 eexists..].
    eapply Listed_drain in H4 as (thr' & HL4 & Hthr); [|done].
    rewrite (Hthr thr eq_refl) in H.
    apply ret_inv in H as (-> & -> & _). do 2 eexists.
    split; [done|]. by intros c [= <-].
  - destruct comb as [c0|]; [|inversion H; subst; by do 2 eexists].
    destruct (available_hosts l1) as [|host rest] eqn:Ha;
      [inversion H; subst; by do 2 eexists|].
    bind_cases H t w4 s4 H4; [|by apply start_spec in H as (? & _)..].
    apply start_spec in H4 as (Ht & _ & Hp & _). injection Ht as ->.
    apply ret_inv in H as (-> & -> & _).
    apply (Listed_start _ _ _ _ _ _ c0) in HL'. rewrite <-Hp in HL'.
    do 2 eexists. split; [done|]. by intros c [= <-].
Qed.

Lemma Listed_dispatch_loop fuel l w s r w' s' :
  Listed n0 cap (threads l) (available_hosts l) (pool w) →
  dispatch_loop ord options fuel l w s = (r, w', s') →
  ∃ thr' av', Listed n0 cap thr' av' (pool w') ∧
    ∀ l', r = Ret l' → threads l' = thr' ∧ available_hosts l' = av'.
Proof.
  revert l w s. induction fuel as [|fuel IH]; intros l w s HL H.
  { inversion H; subst. by do 2 eexists. }
  cbn [dispatch_loop] in H.
  bind_cases H c w1 s1 H1;
    [|eapply Listed_dispatch in H as (thr' & av' & HL' & _); [|done];
      by exists thr', av'..].
  eapply Listed_dispatch in H1 as (thr' & av' & HL' & Hc); [|done].
  specialize (Hc c eq_refl). destruct c as [l1|l1]; destruct Hc as [<- <-].
  - by eapply IH.
  - apply ret_inv in H as (-> & -> & _). do 2 eexists.
    split; [done|]. by intros l' [= <-].
Qed.

End capacity.
(** ** Facts on [replace] and [readlines] *)

Module StrFacts.
Import Str.

Lemma startswith_prefix p s : startswith p s = true ↔ p `prefix_of` s.
Proof.
  revert s. induction p as [|a p IH]; intros s; simpl.
  { split; [intros _; apply prefix_nil|done]. }
  destruct s as [|b s].
  { split; [done|]. by intros ?%prefix_nil_not. }
  rewrite andb_true_iff, bool_decide_eq_true, IH. split.
  - intros [-> H]. by apply prefix_cons.
  - intros H. split; [by eapply prefix_cons_inv_1|by eapply prefix_cons_inv_2].
Qed.


Lemma replace_from_skip k old new s :
  replace_from k old new s = replace_from 0 old new (drop k s).
Proof.
  revert k. induction s as [|c s IH]; intros [|k]; simpl; done.
Qed.

Lemma replace_nil old new : old ≠ [] → replace old new [] = [].
Proof. by destruct old. Qed.

(** The equations of [replace] for a non-empty [old]. *)
Lemma replace_cons old new c s :
  old ≠ [] →
  replace old new (c :: s) =
    if startswith old (c :: s)
    then new ++ replace old new (drop (length old) (c :: s))
    else c :: replace old new s.
Proof.
  destruct old as [|a old]; [done|]. intros _. unfold replace.
  cbn [replace_from]. destruct (startswith _ _); [|done].
  rewrite replace_from_skip. simpl. by rewrite Nat.sub_0_r.
Qed.

Lemma replace_absent old new s :
  old ≠ [] → contains old s = false → replace old new s = s.
Proof.
  intros Ho. induction s as [|c s IH]; intros H; [by apply replace_nil|].
  rewrite replace_cons by done. simpl in H.
  apply orb_false_iff in H as [-> H]. by rewrite IH.
Qed.


Lemma startswith_app_nl old l rest :
  nl ∉ old → startswith old (l ++ nl :: rest) = startswith old l.
Proof.
  revert l. induction old as [|a old IH]; intros l Hn; [done|].
  apply not_elem_of_cons in Hn as [Ha Hn].
  destruct l as [|b l]; simpl.
  - by rewrite bool_decide_false.
  - by rewrite IH.
Qed.

(** An occurrence of a word without ['\n'] does not reach across a
    ['\n']. *)
Lemma replace_app_nl old new l rest :
  old ≠ [] → nl ∉ old →
  replace old new (l ++ nl :: rest)
    = replace old new l ++ nl :: replace old new rest.
Proof.
  intros Ho Hn. remember (length l) as n eqn:Hl. revert l Hl.
  induction n as [n IH] using lt_wf_ind. intros l ->.
  destruct l as [|c l].
  { simpl. rewrite replace_cons, replace_nil by done.
    pose proof (startswith_app_nl old [] rest Hn) as E. simpl in E.
    rewrite E. by destruct old. }
  rewrite <-app_comm_cons, !replace_cons by done.
  rewrite app_comm_cons, startswith_app_nl by done.
  destruct (startswith old (c :: l)) eqn:Hs.
  - pose proof Hs as Hp. apply startswith_prefix, prefix_length in Hp.
    rewrite drop_app_le by done.
    rewrite (IH (length (drop (length old) (c :: l)))); [|..|done].
    + by rewrite (assoc_L (++)).
    + rewrite length_drop. destruct old; [done|]. simpl. lia.
  - rewrite <-app_comm_cons. f_equal. eapply IH; [|done]. simpl. lia.
Qed.

Lemma readlines_nl l rest :
  nl ∉ l → readlines (l ++ nl :: rest) = (l ++ [nl]) :: readlines rest.
Proof.
  induction l as [|c l IH]; intros Hn; simpl; [done|].
  apply not_elem_of_cons in Hn as [Hc Hn].
  rewrite bool_decide_false by done. by rewrite IH.
Qed.

Lemma readlines_no_nl s : nl ∉ s → s ≠ [] → readlines s = [s].
Proof.
  induction s as [|c s IH]; intros Hn Hs; [done|]. simpl.
  apply not_elem_of_cons in Hn as [Hc Hn].
  rewrite bool_decide_false by done.
  destruct s as [|c' s]; [done|]. by rewrite IH.
Qed.

Lemma mjoin_readlines s : mjoin (readlines s) = s.
Proof.
  induction s as [|c s IH]; [done|]. simpl. case_bool_decide.
  - simpl. by rewrite IH.
  - destruct (readlines s) as [|line lines]; simpl in *; by subst.
Qed.

(** Line by line or on the whole text, the replacement of a word without
    ['\n'] is the same. *)
Lemma replace_by_line old new s :
  old ≠ [] → nl ∉ old →
  mjoin (replace old new <$> readlines s) = replace old new s.
Proof.
  intros Ho Hn. remember (length s) as n eqn:Hl. revert s Hl.
  induction n as [n IH] using lt_wf_ind. intros s ->.
  destruct (decide (nl ∈ s)) as [Hin|Hin].
  - apply list_elem_of_split_l in Hin as (l & rest & -> & Hl).
    rewrite readlines_nl by done. simpl.
    rewrite (IH (length rest)); [|rewrite length_app; simpl; lia|done].
    rewrite (replace_app_nl old new l rest) by done.
    replace (l ++ [nl]) with (l ++ nl :: []) by done.
    rewrite replace_app_nl, replace_nil by done.
    by rewrite <-(assoc_L (++)).
  - destruct s as [|c s]; [by rewrite replace_nil|].
    rewrite readlines_no_nl by done. simpl. by rewrite app_nil_r.
Qed.

Lemma contains_split w s :
  contains w s = true → ∃ p q, s = p ++ w ++ q.
Proof.
  induction s as [|c s IH]; simpl.
  - rewrite orb_false_r. intros [k ->]%startswith_prefix. by exists [], k.
  - intros [[k ->]%startswith_prefix|H]%orb_true_iff; [by exists [], k|].
    destruct (IH H) as (p & q & ->). by exists (c :: p), q.
Qed.

(** A line holds no ['\n'], except at its end. *)
Lemma readlines_line s x :
  x ∈ readlines s → ∃ l, (nl ∉ l) ∧ (x = l ++ [nl] ∨ x = l).
Proof.
  revert x. induction s as [|c s IH]; intros x; simpl.
  { by intros ?%elem_of_nil. }
  case_bool_decide as Hc.
  - intros [->|Hx]%elem_of_cons; [|by apply IH].
    exists []. split; [apply not_elem_of_nil|left; by subst].
  - destruct (readlines s) as [|line lines].
    + intros ->%list_elem_of_singleton. exists [c]. split; [|by right].
      apply not_elem_of_cons. split; [done|apply not_elem_of_nil].
    + intros [->|Hx]%elem_of_cons.
      * destruct (IH line) as (l & Hl & Hx); [by left|].
        exists (c :: l). split; [apply not_elem_of_cons; by split|].
        destruct Hx as [->| ->]; [by left|by right].
      * apply IH. by right.
Qed.

(** A word with a ['\n'] before its last byte occurs in no line. *)
Lemma contains_line a b s x :
  b ≠ [] → x ∈ readlines s → contains (a ++ nl :: b) x = false.
Proof.
  intros Hb Hx. destruct (contains _ x) eqn:E; [|done]. exfalso.
  apply contains_split in E as (p & q & ->).
  apply readlines_line in Hx as (l & Hl & Hx). apply Hl.
  destruct Hx as [Hx|Hx].
  - destruct (b ++ q) as [|z r] eqn:Hbq using rev_ind.
    { by apply app_eq_nil in Hbq as [-> _]. }
    clear IHr. rewrite <-!(assoc_L (++)) in Hx. simpl in Hx.
    rewrite Hbq in Hx.
    replace (p ++ a ++ nl :: r ++ [z]) with ((p ++ a ++ nl :: r) ++ [z]) in Hx
      by (by rewrite <-!(assoc_L (++))).
    apply app_inj_tail in Hx as [<- _]. set_solver.
  - subst l. set_solver.
Qed.

End StrFacts.
(** ** Runs in a friendly environment *)

Lemma finish_kills w i ok : is_alive (pool (finish w (i, ok))) i = false.
Proof.
  unfold finish, is_alive. simpl.
  destruct (pool w !! i) as [th|] eqn:Hl; [|by rewrite Hl].
  destruct (t_alive th) eqn:Ha; simpl.
  - rewrite list_lookup_insert_eq; [done|]. by eapply lookup_lt_Some.
  - by rewrite Hl.
Qed.

Lemma finishes_kill w fs i ok :
  (i, ok) ∈ fs → is_alive (pool (foldl finish w fs)) i = false.
Proof.
  revert w. induction fs as [|f fs IH]; intros w Hin.
  { by apply elem_of_nil in Hin. }
  apply elem_of_cons in Hin as [<-|Hin]; simpl; [|by apply IH].
  eapply pool_ends_dead; [apply pool_ends_finishes|apply finish_kills].
Qed.

Section friendly.
Context (ord : Sweep.Order) (options : Options) (N : nat).

Abbreviation friendly_script s := (Forall (λ t, friendly options N t = true) s).

Lemma friendly_inv t :
  friendly options N t = true →
  raises t = false ∧ alive t = true ∧
  (∀ i, (i < N)%nat → ∃ ok, (i, ok) ∈ finished t) ∧
  n_nodes options ≤ Z.of_nat (length (slots (nodes t))).
Proof.
  unfold friendly. rewrite !andb_true_iff, !bool_decide_eq_true.
  rewrite negb_true_iff. intros [[[Hr Ha] Hf] Hn].
  repeat split; [done..| |done].
  intros i Hi. rewrite Forall_forall in Hf.
  assert (i ∈ (finished t).*1) as Hin by (apply Hf, elem_of_seq; lia).
  apply list_elem_of_fmap in Hin as ([i' ok] & -> & Hin). by exists ok.
Qed.

Lemma friendly_all_dead w t :
  friendly options N t = true → (length (pool w) ≤ N)%nat →
  all_dead (pool (foldl finish w (finished t))).
Proof.
  intros (_ & _ & Hf & _)%friendly_inv Hlen i.
  destruct (decide (i < length (pool w))%nat) as [Hi|Hi].
  - destruct (Hf i) as [ok Hin]; [lia|]. by eapply finishes_kill.
  - unfold is_alive. rewrite lookup_ge_None_2; [done|].
    destruct (pool_ends_finishes w (finished t)) as [-> _]. lia.
Qed.

(** A call in a friendly environment returns; no thread runs after it. *)
Lemma call_friendly {A} (answer : Tick → A) event w t s :
  friendly options N t = true → (length (pool w) ≤ N)%nat →
  ∃ w', call answer event w (t :: s) = (Ret (answer t), w', s) ∧
        all_dead (pool w') ∧ length (pool w') = length (pool w) ∧
        sweeper w' = sweeper (foldl finish w (finished t)) ∧
        Sweep.remaining (sweeper w') = Sweep.remaining (sweeper w) ∧
        oargrid_job_id w' = oargrid_job_id w.
Proof.
  intros Hf Hlen. pose proof (friendly_inv t Hf) as (Hr & _).
  eexists. split; [unfold call; by rewrite Hr|]. simpl.
  split; [by apply friendly_all_dead|].
  split; [apply pool_ends_finishes|]. split; [done|].
  split; [apply remaining_finishes|apply job_finishes].
Qed.

Lemma bind_ret {A B} (m : M A) (k : A → M B) w s a w1 s1 :
  m w s = (Ret a, w1, s1) → (m ≫= k) w s = k a w1 s1.
Proof. intros H. unfold mbind, M_bind. by rewrite H. Qed.

Lemma reclaim_all_dead p thr av :
  all_dead p → reclaim p thr thr av = ([], av ++ thr.*2).
Proof.
  intros Hd. rewrite (surjective_pairing (reclaim p thr thr av)).
  rewrite reclaim_alive, reclaim_hosts. f_equal.
  - induction thr as [|y thr IH]; [done|].
    by rewrite filter_cons_False by (by rewrite Hd).
  - do 2 f_equal. apply filter_all. intros y _. apply Hd.
Qed.

Lemma wait_for_hosts_ready fuel thr av w s :
  n_nodes options ≤ Z.of_nat (length av) →
  wait_for_hosts options (S fuel) thr av w s
    = (Ret {| job_is_dead := false; threads := thr;
              available_hosts := av |}, w, s).
Proof. intros Hn. cbn [wait_for_hosts]. by rewrite bool_decide_false by lia. Qed.

Lemma wait_for_hosts_S fuel thr av :
  wait_for_hosts options (S fuel) thr av =
    if bool_decide (n_nodes options > Z.of_nat (length av)) then
      p ← gets pool;
      let '(threads, available_hosts) := reclaim p thr thr av in
      _ ← sleep 5;
      a ← is_job_alive;
      if negb a then
        mret {| job_is_dead := true; threads := threads;
                available_hosts := available_hosts |}
      else wait_for_hosts options fuel threads available_hosts
    else
      mret {| job_is_dead := false; threads := thr; available_hosts := av |}.
Proof. done. Qed.

Lemma wait_friendly fuel thr av w s :
  friendly_script s → all_dead (pool w) → (length (pool w) ≤ N)%nat →
  n_nodes options ≤ Z.of_nat (length av + length thr) →
  (2 ≤ fuel)%nat → (2 ≤ length s)%nat →
  ∃ thr' av' w' s',
    wait_for_hosts options fuel thr av w s
      = (Ret {| job_is_dead := false; threads := thr';
                available_hosts := av' |}, w', s') ∧
    n_nodes options ≤ Z.of_nat (length av') ∧
    (length av' + length thr' = length av + length thr)%nat ∧
    all_dead (pool w') ∧ length (pool w') = length (pool w) ∧
    Sweep.remaining (sweeper w') = Sweep.remaining (sweeper w) ∧
    friendly_script s' ∧ (length s ≤ length s' + 2)%nat.
Proof.
  intros Hs Hd Hlen Hn Hfuel Hls.
  destruct fuel as [|[|fuel]]; [lia..|].
  destruct (decide (n_nodes options ≤ Z.of_nat (length av))) as [Hg|Hg].
  { exists thr, av, w, s. split; [by apply wait_for_hosts_ready|].
    repeat split; [lia|done..|lia]. }
  rewrite wait_for_hosts_S, bool_decide_true by lia.
  destruct s as [|t1 [|t2 s]]; [simpl in Hls; lia..|].
  apply Forall_cons in Hs as [Ht1 Hs]. apply Forall_cons in Hs as [Ht2 Hs].
  rewrite (bind_ret (gets pool) _ w _ (pool w) w _ eq_refl).
  rewrite reclaim_all_dead by done.
  destruct (call_friendly (λ _, tt) (λ _, Sleep 5) w t1 (t2 :: s) Ht1 Hlen)
    as (w1 & E1 & Hd1 & Hl1 & _ & Hr1 & _).
  unfold sleep. rewrite (bind_ret _ _ _ _ _ _ _ E1).
  destruct (call_friendly alive IsJobAlive w1 t2 s Ht2 ltac:(lia))
    as (w2 & E2 & Hd2 & Hl2 & _ & Hr2 & _).
  unfold is_job_alive. rewrite (bind_ret _ _ _ _ _ _ _ E2).
  apply friendly_inv in Ht2 as (_ & -> & _). cbn [negb].
  rewrite wait_for_hosts_ready
    by (rewrite length_app, length_fmap; lia).
  exists [], (av ++ thr.*2), w2, s. split; [done|].
  rewrite length_app, length_fmap. simpl.
  repeat split; [lia|lia|done|congruence|congruence|done|lia].
Qed.

Lemma drain_friendly fuel thr w s :
  friendly_script s → all_dead (pool w) → (length (pool w) ≤ N)%nat →
  (2 ≤ fuel)%nat → (1 ≤ length s)%nat →
  ∃ w' s',
    drain fuel thr w s = (Ret [], w', s') ∧
    all_dead (pool w') ∧ length (pool w') = length (pool w) ∧
    Sweep.remaining (sweeper w') = Sweep.remaining (sweeper w) ∧
    friendly_script s' ∧ (length s ≤ length s' + 1)%nat.
Proof.
  intros Hs Hd Hlen Hfuel Hls.
  destruct fuel as [|[|fuel]]; [lia..|].
  destruct thr as [|y thr].
  { exists w, s. split; [done|]. repeat split; [done..|lia]. }
  destruct s as [|t s]; [simpl in Hls; lia|].
  apply Forall_cons in Hs as [Ht Hs].
  pose proof (friendly_inv t Ht) as (Hr & _).
  rewrite drain_returns; [|done|intros; apply Hd|done].
  eexists _, s. split; [done|]. simpl.
  split; [by apply friendly_all_dead|].
  split; [apply pool_ends_finishes|].
  split; [apply remaining_finishes|]. split; [done|lia].
Qed.

Lemma dispatch_friendly fuel l w s :
  friendly_script s → 1 ≤ n_nodes options →
  (length (pool w) + size (Sweep.remaining (sweeper w)) ≤ N)%nat →
  ∅ ∉ Sweep.remaining (sweeper w) →
  n_nodes options
    ≤ Z.of_nat (length (available_hosts l) + length (threads l)) →
  (2 ≤ fuel)%nat → (4 ≤ length s)%nat →
  ∃ c w' s',
    dispatch ord options fuel l w s = (Ret c, w', s') ∧
    friendly_script s' ∧
    (length (pool w') + size (Sweep.remaining (sweeper w')) ≤ N)%nat ∧
    match c with
    | Continue l' =>
        S (size (Sweep.remaining (sweeper w')))
          = size (Sweep.remaining (sweeper w)) ∧
        (∅ ∉ Sweep.remaining (sweeper w')) ∧
        (length (available_hosts l') + length (threads l')
         = length (available_hosts l) + length (threads l))%nat ∧
        (length s ≤ length s' + 3)%nat
    | Break l' =>
        Sweep.remaining (sweeper w') = ∅ ∧ all_dead (pool w') ∧
        job_is_dead l' = false ∧ (length s ≤ length s' + 4)%nat
    end.
Proof.
  intros Hs Hn1 HN He Hn Hfuel Hls.
  destruct s as [|t s]; [simpl in Hls; lia|]. simpl in Hls.
  apply Forall_cons in Hs as [Ht Hs]. unfold dispatch.
  destruct (call_friendly alive IsJobAlive w t s Ht ltac:(lia))
    as (w1 & E1 & Hd1 & Hl1 & _ & Hr1 & _).
  unfold is_job_alive. rewrite (bind_ret _ _ _ _ _ _ _ E1).
  apply friendly_inv in Ht as (_ & -> & _). cbn [orb].
  destruct (wait_friendly fuel (threads l) (available_hosts l) w1 s)
    as (thr' & av' & w2 & s2 & E2 & Hav & Hsl & Hd2 & Hl2 & Hr2 & Hs2 & Hls2);
    [done|done|lia|done|done|lia|].
  rewrite (bind_ret _ _ _ _ _ _ _ E2). cbn [job_is_dead threads available_hosts].
  destruct (Sweep.pick ord (Sweep.remaining (sweeper w2))) as [c|] eqn:Hp.
  - assert (sweeper_get_next ord w2 s2 =
      (Ret (Some c),
       record (GetNext (Some c))
         (set_sweeper
            {| Sweep.remaining := Sweep.remaining (sweeper w2) ∖ {[c]};
               Sweep.inprogress := Sweep.inprogress (sweeper w2) ∪ {[c]};
               Sweep.completed := Sweep.completed (sweeper w2);
               Sweep.canceled := Sweep.canceled (sweeper w2) |} w2), s2))
      as E3 by (unfold sweeper_get_next, Sweep.get_next; by rewrite Hp).
    rewrite (bind_ret _ _ _ _ _ _ _ E3).
    apply Sweep.pick_elem in Hp.
    assert (c ≠ ∅) as Hc by (intros ->; apply He; congruence).
    cbn [not_comb]. rewrite bool_decide_false by done.
    destruct av' as [|host rest]; [simpl in Hav; lia|].
    unfold start at 1. unfold mbind at 1, M_bind at 1.
    eexists _, _, s2. split; [done|]. split; [done|].
    cbn [record set_log set_sweeper pool sweeper Sweep.remaining].
    assert (S (size (Sweep.remaining (sweeper w2) ∖ {[c]}))
            = size (Sweep.remaining (sweeper w2))) as Hsz.
    { rewrite size_difference by set_solver. rewrite size_singleton.
      assert (size (Sweep.remaining (sweeper w2)) ≠ 0)%nat; [|lia].
      apply size_non_empty_iff. set_solver. }
    assert (size (Sweep.remaining (sweeper w2))
            = size (Sweep.remaining (sweeper w))) as Hsz' by congruence.
    rewrite !length_app. simpl in *.
    split; [lia|]. split; [lia|]. split; [set_solver|].
    split; [rewrite ?length_app; simpl; lia|lia].
  - assert (sweeper_get_next ord w2 s2 =
      (Ret None, record (GetNext None) (set_sweeper (sweeper w2) w2), s2))
      as E3 by (unfold sweeper_get_next, Sweep.get_next; by rewrite Hp).
    rewrite (bind_ret _ _ _ _ _ _ _ E3).
    apply Sweep.pick_none in Hp. cbn [not_comb].
    destruct (drain_friendly fuel thr'
                (record (GetNext None) (set_sweeper (sweeper w2) w2)) s2)
      as (w4 & s4 & E4 & Hd4 & Hl4 & Hr4 & Hs4 & Hls4);
      [done|done|simpl; lia|done|lia|].
    rewrite (bind_ret _ _ _ _ _ _ _ E4).
    eexists _, w4, s4. split; [done|]. split; [done|].
    simpl in Hl4, Hr4. rewrite Hr4, Hp, Hl4, size_empty.
    split; [lia|]. repeat split; [done|simpl; lia].
Qed.

Lemma dispatch_loop_friendly fuel l w s :
  friendly_script s → 1 ≤ n_nodes options →
  (length (pool w) + size (Sweep.remaining (sweeper w)) ≤ N)%nat →
  ∅ ∉ Sweep.remaining (sweeper w) →
  n_nodes options
    ≤ Z.of_nat (length (available_hosts l) + length (threads l)) →
  (size (Sweep.remaining (sweeper w)) + 2 ≤ fuel)%nat →
  (3 * size (Sweep.remaining (sweeper w)) + 4 ≤ length s)%nat →
  ∃ l' w' s',
    dispatch_loop ord options fuel l w s = (Ret l', w', s') ∧
    friendly_script s' ∧ (length (pool w') ≤ N)%nat ∧
    Sweep.remaining (sweeper w') = ∅ ∧ all_dead (pool w') ∧
    job_is_dead l' = false ∧
    (length s ≤ length s' + 3 * size (Sweep.remaining (sweeper w)) + 4)%nat.
Proof.
  revert l w s. induction fuel as [|fuel IH]; intros l w s Hs Hn1 HN He Hn Hf Hls.
  { lia. }
  cbn [dispatch_loop].
  destruct (dispatch_friendly (S fuel) l w s)
    as (c & w1 & s1 & E1 & Hs1 & HN1 & Hc); [done..|lia|lia|].
  rewrite (bind_ret _ _ _ _ _ _ _ E1). destruct c as [l1|l1].
  - destruct Hc as (Hsz & He1 & Hsl & Hls1).
    destruct (IH l1 w1 s1) as (l' & w' & s' & E & Hs' & HN' & Hr' & Hd' & Hj' & Hls');
      [done|done|done|done|lia|lia|lia|].
    exists l', w', s'. split; [done|]. repeat split; [done..|lia].
  - destruct Hc as (Hr1 & Hd1 & Hj1 & Hls1).
    exists l1, w1, s1. split; [done|]. repeat split; [done|lia|done..|lia].
Qed.

Lemma reserve_done fuel dead w s :
  Sweep.remaining (sweeper w) = ∅ →
  reserve_and_dispatch ord options fuel dead w s = (Ret (Break dead), w, s).
Proof.
  intros Hr. unfold reserve_and_dispatch.
  rewrite (bind_ret (gets sweeper) _ w s (sweeper w) w s eq_refl).
  unfold Sweep.get_remaining. rewrite Hr, size_empty.
  by rewrite bool_decide_false by lia.
Qed.

Lemma reserve_friendly fuel dead w s :
  friendly_script s → 1 ≤ n_nodes options →
  (length (pool w) + size (Sweep.remaining (sweeper w)) ≤ N)%nat →
  ∅ ∉ Sweep.remaining (sweeper w) →
  (0 < size (Sweep.remaining (sweeper w)))%nat →
  (size (Sweep.remaining (sweeper w)) + 2 ≤ fuel)%nat →
  (3 * size (Sweep.remaining (sweeper w)) + 9 ≤ length s)%nat →
  ∃ w' s',
    reserve_and_dispatch ord options fuel dead w s
      = (Ret (Continue false), w', s') ∧
    friendly_script s' ∧ (length (pool w') ≤ N)%nat ∧
    Sweep.remaining (sweeper w') = ∅ ∧ all_dead (pool w') ∧
    (length s ≤ length s' + 3 * size (Sweep.remaining (sweeper w)) + 9)%nat.
Proof.
  intros Hs Hn1 HN He Hpos Hf Hls. unfold reserve_and_dispatch.
  rewrite (bind_ret (gets sweeper) _ w s (sweeper w) w s eq_refl).
  unfold Sweep.get_remaining. rewrite bool_decide_true by done.
  rewrite (bind_ret (gets oargrid_job_id) _ w s (oargrid_job_id w) w s eq_refl).
  assert (∃ w1 s1,
    (if oargrid_job_id w is None then make_reservation else mret ()) w s
      = (Ret tt, w1, s1) ∧
    length (pool w1) = length (pool w) ∧
    Sweep.remaining (sweeper w1) = Sweep.remaining (sweeper w) ∧
    friendly_script s1 ∧ (length s ≤ length s1 + 1)%nat)
    as (w1 & s1 & E1 & Hl1 & Hr1 & Hs1 & Hls1).
  { destruct (oargrid_job_id w).
    - exists w, s. split; [done|]. repeat split; [done|lia].
    - destruct s as [|t s]; [simpl in Hls; lia|].
      apply Forall_cons in Hs as [Ht Hs].
      destruct (call_friendly job Oargridsub w t s Ht ltac:(lia))
        as (w1 & E1 & _ & Hl1 & _ & Hr1 & _).
      unfold make_reservation, oargridsub.
      rewrite (bind_ret _ _ _ _ _ _ _ E1).
      eexists _, s. split; [done|]. simpl. repeat split; [done..|lia]. }
  rewrite (bind_ret _ _ _ _ _ _ _ E1).
  rewrite (bind_ret (gets oargrid_job_id) _ w1 s1 _ w1 s1 eq_refl).
  destruct s1 as [|t2 [|t3 [|t4 s4]]]; [simpl in Hls1; lia..|].
  apply Forall_cons in Hs1 as [Ht2 Hs1].
  apply Forall_cons in Hs1 as [Ht3 Hs1].
  apply Forall_cons in Hs1 as [Ht4 Hs4].
  destruct (call_friendly (λ _, tt)
              (λ _, WaitOargridJobStart (oargrid_job_id w1)) w1 t2
              (t3 :: t4 :: s4) Ht2 ltac:(lia))
    as (w2 & E2 & _ & Hl2 & _ & Hr2 & _).
  unfold wait_oargrid_job_start. rewrite (bind_ret _ _ _ _ _ _ _ E2).
  destruct (call_friendly (λ _, tt)
              (λ _, GetOargridJobNodes (oargrid_job_id w1)) w2 t3
              (t4 :: s4) Ht3 ltac:(lia))
    as (w3 & E3 & _ & Hl3 & _ & Hr3 & _).
  unfold get_oargrid_job_nodes. rewrite (bind_ret _ _ _ _ _ _ _ E3).
  destruct (call_friendly nodes (λ hs, Deploy hs.*1) w3 t4 s4 Ht4 ltac:(lia))
    as (w4 & E4 & _ & Hl4 & _ & Hr4 & _).
  unfold deploy. rewrite (bind_ret _ _ _ _ _ _ _ E4).
  apply friendly_inv in Ht4 as (_ & _ & _ & Hn4).
  rewrite bool_decide_false.
  2:{ intros Hz. apply nil_length_inv in Hz. rewrite Hz in Hn4.
      simpl in Hn4. lia. }
  assert (Sweep.remaining (sweeper w4) = Sweep.remaining (sweeper w)) as Hr
    by congruence.
  destruct (dispatch_loop_friendly fuel
              {| job_is_dead := dead; threads := [];
                 available_hosts := slots (nodes t4) |} w4 s4)
    as (l' & w5 & s5 & E5 & Hs5 & HN5 & Hr5 & Hd5 & Hj5 & Hls5);
    [done|done|rewrite Hr; lia|by rewrite Hr|simpl; lia|rewrite Hr; lia
    |rewrite Hr; simpl in *; lia|].
  rewrite (bind_ret _ _ _ _ _ _ _ E5).
  rewrite Hr in Hls5.
  destruct s5 as [|t6 s6]; [simpl in *; lia|].
  apply Forall_cons in Hs5 as [Ht6 Hs6].
  destruct (call_friendly alive IsJobAlive w5 t6 s6 Ht6 HN5)
    as (w6 & E6 & Hd6 & Hl6 & _ & Hr6 & _).
  unfold is_job_alive. rewrite (bind_ret _ _ _ _ _ _ _ E6).
  apply friendly_inv in Ht6 as (_ & -> & _). cbn [negb]. rewrite Hj5.
  exists w6, s6. split; [done|].
  repeat split; [done|lia|congruence|done|simpl in *; lia].
Qed.

Lemma sweep_friendly fuel dead w s :
  friendly_script s → 1 ≤ n_nodes options → all_dead (pool w) →
  (length (pool w) + size (Sweep.remaining (sweeper w)) ≤ N)%nat →
  ∅ ∉ Sweep.remaining (sweeper w) →
  (size (Sweep.remaining (sweeper w)) + 3 ≤ fuel)%nat →
  (3 * size (Sweep.remaining (sweeper w)) + 9 ≤ length s)%nat →
  ∃ w' s',
    sweep_loop ord options fuel dead w s = (Ret tt, w', s') ∧
    friendly_script s' ∧ (length (pool w') ≤ N)%nat ∧
    Sweep.remaining (sweeper w') = ∅ ∧ all_dead (pool w') ∧
    (length s ≤ length s' + 3 * size (Sweep.remaining (sweeper w)) + 9)%nat.
Proof.
  intros Hs Hn1 Hd HN He Hf Hls.
  destruct fuel as [|[|fuel]]; [lia..|]. cbn [sweep_loop].
  destruct (decide (size (Sweep.remaining (sweeper w)) = 0%nat)) as [Hz|Hnz].
  - apply size_empty_iff, leibniz_equiv in Hz as Hr.
    rewrite (bind_ret _ _ _ _ _ _ _ (reserve_done _ dead w s Hr)).
    exists w, s. split; [done|]. repeat split; [done|lia|done|done|lia].
  - destruct (reserve_friendly (S (S fuel)) dead w s)
      as (w1 & s1 & E1 & Hs1 & HN1 & Hr1 & Hd1 & Hls1);
      [done|done|done|done|lia|lia|lia|].
    rewrite (bind_ret _ _ _ _ _ _ _ E1).
    rewrite (bind_ret _ _ _ _ _ _ _ (reserve_done _ false w1 s1 Hr1)).
    exists w1, s1. split; [done|]. repeat split; done.
Qed.

Lemma run_friendly parameters fuel s :
  friendly_script s → 1 ≤ n_nodes options →
  ∅ ∉ Sweep.sweep parameters →
  (size (list_to_set (Sweep.sweep parameters) : gset Comb) ≤ N)%nat →
  (N + 3 ≤ fuel)%nat → (3 * N + 10 ≤ length s)%nat →
  ∃ w' s',
    run ord options parameters fuel init s = (Ret tt, w', s') ∧
    Sweep.remaining (sweeper w') = ∅ ∧ all_dead (pool w').
Proof.
  intros Hs Hn1 He HN Hf Hls. unfold run.
  rewrite (bind_ret (set_job_id (given_job options)) _ init s tt _ s eq_refl).
  unfold try_finally.
  rewrite (bind_ret (define_parameters parameters) _ _ s tt _ s eq_refl).
  destruct (sweep_friendly fuel false
    (set_sweeper (Sweep.new (Sweep.sweep parameters))
       {| sweeper := sweeper init; pool := pool init;
          reports := reports init; oargrid_job_id := given_job options;
          log := log init |}) s)
    as (w1 & s1 & E1 & Hs1 & HN1 & Hr1 & Hd1 & Hls1);
    [done|done|done|simpl; lia| |simpl; lia|simpl; lia|].
  { simpl. by rewrite elem_of_list_to_set. }
  rewrite E1. simpl in Hls1. unfold release.
  rewrite (bind_ret (gets oargrid_job_id) _ w1 s1 _ w1 s1 eq_refl).
  destruct (oargrid_job_id w1) as [j|]; [|by exists w1, s1].
  destruct (negb (keep_alive options)); [|by exists w1, s1].
  destruct s1 as [|t s2]; [simpl in *; lia|].
  apply Forall_cons in Hs1 as [Ht Hs2].
  destruct (call_friendly (λ _, tt) (λ _, Oargriddel j) w1 t s2 Ht HN1)
    as (w2 & E2 & Hd2 & _ & _ & Hr2 & _).
  unfold oargriddel. rewrite E2. exists w2, s2.
  split; [done|]. split; [congruence|done].
Qed.

End friendly.
(** ** The job held is the latest one *)

Lemma reserved_app l1 l2 : reserved (l1 ++ l2) = reserved l1 ++ reserved l2.
Proof. apply omap_app. Qed.

Lemma reserved_rounds k : reserved (rounds k) = [].
Proof. induction k as [|k IH]; [done|]. by rewrite rounds_S, reserved_app, IH. Qed.

Lemma reserved_sleeps j : reserved (replicate j (Sleep 20)) = [].
Proof. induction j as [|j IH]; [done|]. simpl. exact IH. Qed.

Lemma latest_job_same given l tr :
  reserved tr = [] → latest_job given (l ++ tr) = latest_job given l.
Proof. intros H. unfold latest_job. by rewrite reserved_app, H, app_nil_r. Qed.

Lemma latest_job_snoc given l j :
  latest_job given (l ++ [Oargridsub j]) = Some j.
Proof. unfold latest_job. rewrite reserved_app. simpl. by rewrite last_snoc. Qed.

Lemma holds_latest_same given w w' tr :
  (∀ j, oargrid_job_id w' = Some j → oargrid_job_id w = Some j) →
  log w' = log w ++ tr → reserved tr = [] →
  holds_latest given w → holds_latest given w'.
Proof.
  intros Hj Hl Hr H j Hj'. rewrite Hl, latest_job_same by done. auto.
Qed.

Lemma holds_latest_call {A} given (answer : Tick → A) (event : A → Event)
    w s r w' s' :
  (∀ a, reservation_of (event a) = None) →
  call answer event w s = (r, w', s') →
  holds_latest given w → holds_latest given w'.
Proof.
  intros He H. apply call_spec in H as (_ & Hj & [H|[H|H]]).
  - destruct H as (_ & _ & Hl). apply (holds_latest_same _ _ _ []);
      [by rewrite Hj|by rewrite app_nil_r|done].
  - destruct H as (t & _ & _ & _ & Hl).
    eapply holds_latest_same; [by rewrite Hj|done|done].
  - destruct H as (t & _ & _ & _ & Hl).
    eapply holds_latest_same; [by rewrite Hj|done|].
    unfold reserved. cbn -[reservation_of]. by rewrite He.
Qed.

Lemma holds_latest_make_reservation given w s r w' s' :
  make_reservation w s = (r, w', s') →
  oargrid_job_id w = None → holds_latest given w'.
Proof.
  intros H Hn. unfold make_reservation in H.
  bind_cases H j w1 s1 H1.
  - apply call_ret in H1 as (_ & Hj1 & Hl1 & _).
    apply modify_inv in H as (_ & -> & _).
    intros j' [= <-]. simpl. rewrite Hl1. apply latest_job_snoc.
  - apply call_spec in H as (_ & Hj & _). intros j. by rewrite Hj, Hn.
  - apply call_spec in H as (_ & Hj & _). intros j. by rewrite Hj, Hn.
Qed.

Section latest.
Context (ord : Sweep.Order) (options : Options).

Lemma turn_reserved l w w' r tr : turn options l w w' r tr → reserved tr = [].
Proof.
  intros H. inversion H; subst;
    repeat (rewrite ?reserved_app, ?reserved_rounds, ?reserved_sleeps; simpl);
    try done.
  - by destruct H0 as [->| ->].
  - by destruct H0 as [->|[b ->]].
Qed.

Lemma dispatch_loop_reserved fuel l w s r w' s' :
  dispatch_loop ord options fuel l w s = (r, w', s') →
  oargrid_job_id w' = oargrid_job_id w ∧
  ∃ tr, log w' = log w ++ tr ∧ reserved tr = [].
Proof.
  revert l w s. induction fuel as [|fuel IH]; intros l w s H.
  { inversion H; subst. split; [done|]. exists []. by rewrite app_nil_r. }
  cbn [dispatch_loop] in H.
  bind_cases H c w1 s1 H1.
  - apply dispatch_spec in H1 as (Hj1 & tr1 & Hl1 & Ht1).
    apply turn_reserved in Ht1. destruct c as [l1|l1].
    + apply IH in H as (Hj & tr2 & Hl2 & Hr2).
      split; [congruence|]. exists (tr1 ++ tr2).
      split; [by rewrite Hl2, Hl1, <- app_assoc|].
      by rewrite reserved_app, Ht1, Hr2.
    + apply ret_inv in H as (-> & -> & ->). split; [done|]. by exists tr1.
  - apply dispatch_spec in H as (Hj1 & tr1 & Hl1 & Ht1).
    apply turn_reserved in Ht1. split; [done|]. by exists tr1.
  - apply dispatch_spec in H as (Hj1 & tr1 & Hl1 & Ht1).
    apply turn_reserved in Ht1. split; [done|]. by exists tr1.
Qed.

Lemma holds_latest_dispatch_loop given fuel l w s r w' s' :
  dispatch_loop ord options fuel l w s = (r, w', s') →
  holds_latest given w → holds_latest given w'.
Proof.
  intros H. apply dispatch_loop_reserved in H as (Hj & tr & Hl & Hr).
  eapply holds_latest_same; [by rewrite Hj|done|done].
Qed.

Lemma holds_latest_reserve_and_dispatch given fuel dead w s r w' s' :
  reserve_and_dispatch ord options fuel dead w s = (r, w', s') →
  holds_latest given w → holds_latest given w'.
Proof.
  intros H I0. unfold reserve_and_dispatch in H.
  bind_cases H sw w1 s1 H1; [|done..].
  apply gets_ret_inv in H1 as (-> & -> & ->).
  case_bool_decide; [|by apply ret_inv in H as (_ & -> & _)].
  bind_cases H j w1 s1 H1; [|done..].
  apply gets_ret_inv in H1 as (-> & -> & ->).
  assert (∀ r w1 s1,
    (if oargrid_job_id w is None then make_reservation else mret ()) w s
      = (r, w1, s1) → holds_latest given w1) as Hres.
  { intros r0 w1 s1. destruct (oargrid_job_id w) eqn:Ej.
    - by intros (_ & -> & _)%ret_inv.
    - intros Hm. by eapply holds_latest_make_reservation. }
  bind_cases H u w1 s1 H1; [|by eapply Hres..].
  apply Hres in H1. clear Hres I0.
  bind_cases H j w2 s2 H2; [|done..].
  apply gets_ret_inv in H2 as (-> & -> & ->).
  bind_cases H u2 w2 s2 H2; [|by eapply holds_latest_call in H..].
  eapply holds_latest_call in H2; [|done..]. clear H1.
  bind_cases H u3 w3 s3 H3; [|by eapply holds_latest_call in H..].
  eapply holds_latest_call in H3; [|done..]. clear H2.
  bind_cases H hosts w4 s4 H4; [|by eapply holds_latest_call in H..].
  eapply holds_latest_call in H4; [|done..]. clear H3.
  case_bool_decide; [by apply ret_inv in H as (_ & -> & _)|].
  bind_cases H l w5 s5 Hl; [|by eapply holds_latest_dispatch_loop in H..].
  eapply holds_latest_dispatch_loop in Hl; [|done]. clear H4.
  bind_cases H a w6 s6 Ha; [|by eapply holds_latest_call in H..].
  eapply holds_latest_call in Ha; [|done..]. clear Hl.
  assert (∀ r w7 s7,
    (if (if negb a then true else job_is_dead l) then set_job_id None
     else mret ()) w6 s6 = (r, w7, s7) → holds_latest given w7) as Hset.
  { intros r0 w7 s7. destruct (if negb a then true else job_is_dead l).
    - intros (_ & -> & _)%modify_inv. by intros j.
    - by intros (_ & -> & _)%ret_inv. }
  bind_cases H u7 w7 s7 Hj; [|by eapply Hset..].
  apply ret_inv in H as (_ & -> & _). by eapply Hset.
Qed.

Lemma holds_latest_sweep_loop given fuel dead w s r w' s' :
  sweep_loop ord options fuel dead w s = (r, w', s') →
  holds_latest given w → holds_latest given w'.
Proof.
  revert dead w s. induction fuel as [|fuel IH]; intros dead w s H I0.
  { by inversion H; subst. }
  cbn [sweep_loop] in H.
  bind_cases H c w1 s1 H1;
    [|by eapply holds_latest_reserve_and_dispatch in H..].
  eapply holds_latest_reserve_and_dispatch in H1; [|done].
  destruct c as [d|d].
  - by eapply IH.
  - by apply ret_inv in H as (_ & -> & _).
Qed.

Lemma holds_latest_release given w s r w' s' :
  release options w s = (r, w', s') →
  holds_latest given w → holds_latest given w'.
Proof.
  intros H I0. unfold release in H.
  bind_cases H j w1 s1 H1; [|done..].
  apply gets_ret_inv in H1 as (-> & -> & ->).
  destruct (oargrid_job_id w) as [j|].
  - destruct (keep_alive options); simpl in H.
    + by apply ret_inv in H as (_ & -> & _).
    + by eapply holds_latest_call in H.
  - by apply ret_inv in H as (_ & -> & _).
Qed.

End latest.
(** ** One poll of the wait for free hosts *)

Lemma call_returns {A} (answer : Tick → A) (event : A → Event) w t s :
  raises t = false →
  call answer event w (t :: s)
    = (Ret (answer t), record (event (answer t)) (foldl finish w (finished t)), s).
Proof. intros Hr. unfold call. by rewrite Hr. Qed.

Lemma ended_alive_perm p thr :
  thr ≡ₚ filter (λ y, is_alive p y.1 = true) thr ++ ended p thr.
Proof.
  unfold ended.
  rewrite <-(filter_app_complement (λ y, is_alive p y.1 = true) thr) at 1.
  apply Permutation_app_head.
  erewrite (list_filter_iff (λ x, is_alive p x.1 = false)); [done|].
  intros y. simpl. by destruct (is_alive p y.1).
Qed.

Section poll.
Context (ord : Sweep.Order) (options : Options).

Lemma wait_for_hosts_poll fuel thr av w t1 t2 s :
  n_nodes options > Z.of_nat (length av) →
  raises t1 = false → raises t2 = false →
  (alive t2 = true →
   n_nodes options ≤ Z.of_nat (length av + length (ended (pool w) thr))) →
  wait_for_hosts options (S (S fuel)) thr av w (t1 :: t2 :: s) =
    (Ret {| job_is_dead := negb (alive t2);
            threads := filter (λ y, is_alive (pool w) y.1 = true) thr;
            available_hosts := av ++ (ended (pool w) thr).*2 |},
     polled t1 t2 w, s).
Proof.
  intros Hn Hr1 Hr2 Hen.
  rewrite wait_for_hosts_S, bool_decide_true by done.
  rewrite (bind_ret (gets pool) _ w _ (pool w) w _ eq_refl).
  rewrite (surjective_pairing (reclaim (pool w) thr thr av)).
  rewrite reclaim_alive, reclaim_hosts.
  unfold sleep. rewrite (bind_ret _ _ _ _ _ _ _ (call_returns _ _ _ _ _ Hr1)).
  unfold is_job_alive.
  rewrite (bind_ret _ _ _ _ _ _ _ (call_returns _ _ _ _ _ Hr2)).
  unfold polled. destruct (alive t2) eqn:Ea; [|done]. simpl negb. cbv iota.
  apply wait_for_hosts_ready.
  rewrite length_app, length_fmap. auto.
Qed.

Lemma wait_for_hosts_moves fuel thr av w s l' w' s' :
  wait_for_hosts options fuel thr av w s = (Ret l', w', s') →
  ∃ gone, thr ≡ₚ threads l' ++ gone ∧ available_hosts l' = av ++ gone.*2 ∧
          ∀ y, y ∈ gone → is_alive (pool w') y.1 = false.
Proof.
  revert thr av w s. induction fuel as [|fuel IH]; intros thr av w s H; [done|].
  rewrite wait_for_hosts_S in H. case_bool_decide.
  - bind_cases H p w1 s1 H1. apply gets_ret_inv in H1 as (-> & -> & ->).
    rewrite (surjective_pairing (reclaim (pool w) thr thr av)) in H.
    rewrite reclaim_alive, reclaim_hosts in H.
    bind_cases H u w2 s2 H2. bind_cases H a w3 s3 H3.
    apply call_ret in H2 as (Hp2 & _). apply call_ret in H3 as (Hp3 & _).
    assert (Hdead : ∀ w4, pool_ends (pool w3) (pool w4) →
              ∀ y, y ∈ ended (pool w) thr → is_alive (pool w4) y.1 = false).
    { intros w4 Hp4 y [Hy _]%list_elem_of_filter.
      destruct (is_alive (pool w4) y.1) eqn:E; [|done].
      apply Hp4, Hp3, Hp2 in E. congruence. }
    destruct (negb a).
    + apply ret_inv in H as ([= E] & Ew & Es). subst.
      exists (ended (pool w) thr). split; [apply ended_alive_perm|].
      split; [done|]. apply Hdead, pool_ends_refl.
    + pose proof H as H'. apply wait_for_hosts_spec in H' as (Hp4 & _).
      apply IH in H as (gone & Hperm & Hav & Hg).
      exists (ended (pool w) thr ++ gone).
      split; [|split].
      * rewrite (ended_alive_perm (pool w) thr) at 1. rewrite Hperm.
        rewrite <-!(assoc_L (++)). apply Permutation_app_head.
        apply Permutation_app_comm.
      * by rewrite Hav, fmap_app, (assoc_L (++)).
      * intros y [Hy|Hy]%elem_of_app; [by apply Hdead|by apply Hg].
  - apply ret_inv in H as ([= E] & Ew & Es). subst.
    exists []. simpl. rewrite !app_nil_r. split; [done|]. split; [done|].
    by intros y ?%elem_of_nil.
Qed.

Lemma remaining_polled t1 t2 w :
  Sweep.remaining (sweeper (polled t1 t2 w)) = Sweep.remaining (sweeper w).
Proof.
  unfold polled. cbn [record set_log sweeper]. rewrite remaining_finishes.
  cbn [record set_log sweeper]. apply remaining_finishes.
Qed.

Lemma length_pool_polled t1 t2 w : length (pool (polled t1 t2 w)) = length (pool w).
Proof.
  unfold polled. cbn [record set_log pool].
  rewrite (proj1 (pool_ends_finishes _ _)). cbn [record set_log pool].
  apply pool_ends_finishes.
Qed.

Lemma dispatch_poll fuel l w t0 t1 t2 s c :
  raises t0 = false → raises t1 = false → raises t2 = false →
  alive t0 = true ∨ threads l ≠ [] → alive t2 = true →
  n_nodes options > Z.of_nat (length (available_hosts l)) →
  n_nodes options ≤
    Z.of_nat (length (available_hosts l) +
              length (ended (pool (foldl finish w (finished t0))) (threads l))) →
  Sweep.pick ord (Sweep.remaining (sweeper w)) = Some c → c ≠ ∅ →
  ∃ host rest w',
    available_hosts l
      ++ (ended (pool (foldl finish w (finished t0))) (threads l)).*2
      = host :: rest ∧
    dispatch ord options (S (S fuel)) l w (t0 :: t1 :: t2 :: s) =
      (Ret (Continue
         {| job_is_dead := false;
            threads :=
              filter (λ y, is_alive (pool (foldl finish w (finished t0))) y.1
                           = true) (threads l)
              ++ [(length (pool w), host)];
            available_hosts := rest |}), w', s) ∧
    pool w' !! length (pool w)
      = Some {| t_comb := c; t_host := host; t_alive := true |} ∧
    last (log w') = Some (Start (length (pool w)) c host).
Proof.
  intros Hr0 Hr1 Hr2 Hal Ha2 Hn Hen Hp Hc.
  set (w1 := record (IsJobAlive (alive t0)) (foldl finish w (finished t0))).
  destruct (available_hosts l ++ (ended (pool w1) (threads l)).*2)
    as [|host rest] eqn:Eav.
  { apply (f_equal length) in Eav. rewrite length_app, length_fmap in Eav.
    simpl in Eav. cbn [w1 record set_log pool] in Eav. lia. }
  exists host, rest.
  destruct (dispatch ord options (S (S fuel)) l w (t0 :: t1 :: t2 :: s))
    as [[r w'] s'] eqn:E.
  unfold dispatch, is_job_alive in E.
  rewrite (bind_ret _ _ _ _ _ _ _ (call_returns alive IsJobAlive w t0 _ Hr0))
    in E.
  assert (alive t0 || bool_decide (0 < length (threads l))%nat = true) as Ho.
  { destruct Hal as [->|Hl]; [done|]. apply orb_true_iff. right.
    apply bool_decide_eq_true. destruct (threads l); [done|simpl; lia]. }
  rewrite Ho in E. fold w1 in E.
  rewrite (bind_ret _ _ _ _ _ _ _
             (wait_for_hosts_poll fuel _ _ w1 t1 t2 s Hn Hr1 Hr2 (λ _, Hen)))
    in E.
  cbn [job_is_dead] in E. rewrite Ha2 in E. simpl negb in E. cbv iota in E.
  bind_cases E comb w4 s4 E4;
    [|by apply sweeper_get_next_spec in E as (? & [=] & _)..].
  assert (comb = Some c) as ->.
  { unfold sweeper_get_next, Sweep.get_next in E4.
    rewrite remaining_polled in E4. cbn [w1 record set_log sweeper] in E4.
    rewrite remaining_finishes, Hp in E4. by injection E4 as <- _ _. }
  apply sweeper_get_next_spec in E4 as (? & _ & -> & Hp4 & _ & Hl4 & _).
  assert (Hlen : length (pool w4) = length (pool w)).
  { rewrite Hp4, length_pool_polled. cbn [w1 record set_log pool].
    apply pool_ends_finishes. }
  cbn [not_comb] in E. rewrite bool_decide_false in E by done.
  cbn [available_hosts threads] in E. rewrite Eav in E.
  bind_cases E t w5 s5 E5; [|by apply start_spec in E as ([=] & _)..].
  apply start_spec in E5 as ([= ->] & -> & Hp5 & _ & Hl5).
  apply ret_inv in E as ([= E] & Ew & Es). subst.
  rewrite Hlen in Hl5 |- *.
  eexists. split; [done|]. split; [done|].
  split; [|rewrite Hl5; apply last_snoc].
  rewrite Hp5, lookup_app_r by lia. by rewrite Hlen, Nat.sub_diag.
Qed.

Lemma is_alive_app_l p q t :
  (t < length p)%nat → is_alive (p ++ q) t = is_alive p t.
Proof. intros Ht. unfold is_alive. by rewrite lookup_app_l. Qed.

Lemma dispatch_moves fuel l w s l' w' s' :
  dispatch ord options fuel l w s = (Ret (Continue l'), w', s') →
  (∀ y, y ∈ threads l → (y.1 < length (pool w))%nat) →
  ∃ c host kept gone,
    threads l ≡ₚ kept ++ gone ∧
    (∀ y, y ∈ gone → is_alive (pool w') y.1 = false) ∧
    available_hosts l ++ gone.*2 = host :: available_hosts l' ∧
    threads l' = kept ++ [(length (pool w), host)] ∧
    pool w' !! length (pool w)
      = Some {| t_comb := c; t_host := host; t_alive := true |} ∧
    last (log w') = Some (Start (length (pool w)) c host).
Proof.
  intros H Hin. unfold dispatch in H.
  bind_cases H a w1 s1 H1.
  apply call_ret in H1 as ([Hlen1 _] & _).
  destruct (a || _); [|by apply ret_inv in H as ([=] & _)].
  bind_cases H l1 w2 s2 H2.
  pose proof H2 as H2'. apply wait_for_hosts_spec in H2' as ([Hlen2 _] & _).
  apply wait_for_hosts_moves in H2 as (gone & Hperm & Hav & Hgone).
  destruct (job_is_dead l1); [by apply ret_inv in H as ([=] & _)|].
  bind_cases H comb w3 s3 H3.
  apply sweeper_get_next_spec in H3 as (? & _ & -> & Hp3 & _ & Hl3 & _).
  destruct (not_comb comb).
  { bind_cases H thr w4 s4 H4. by apply ret_inv in H as ([=] & _). }
  destruct comb as [c|]; [|done].
  destruct (available_hosts l1) as [|host rest] eqn:Eav; [done|].
  bind_cases H t w4 s4 H4.
  apply start_spec in H4 as ([= ->] & -> & Hp4 & _ & Hl4).
  apply ret_inv in H as ([= E] & Ew & Es). subst. cbn [threads available_hosts].
  assert (Hlen : length (pool w3) = length (pool w)) by congruence.
  exists c, host, (threads l1), gone. rewrite Hlen in *.
  split; [done|]. split; [|split; [by rewrite <-Hav|]].
  - intros y Hy. rewrite Hp4, is_alive_app_l, Hp3; [by apply Hgone|].
    rewrite Hlen. apply Hin. rewrite Hperm, elem_of_app. by right.
  - split; [done|]. split; [|rewrite Hl4; apply last_snoc].
    rewrite Hp4, lookup_app_r by lia. by rewrite Hlen, Nat.sub_diag.
Qed.

Lemma dispatch_head fuel l w t s c host rest :
  raises t = false → alive t = true ∨ threads l ≠ [] →
  n_nodes options ≤ Z.of_nat (length (available_hosts l)) →
  available_hosts l = host :: rest →
  Sweep.pick ord (Sweep.remaining (sweeper w)) = Some c → c ≠ ∅ →
  ∃ w',
    dispatch ord options (S fuel) l w (t :: s) =
      (Ret (Continue {| job_is_dead := false;
                        threads := threads l ++ [(length (pool w), host)];
                        available_hosts := rest |}), w', s) ∧
    pool w' !! length (pool w)
      = Some {| t_comb := c; t_host := host; t_alive := true |} ∧
    last (log w') = Some (Start (length (pool w)) c host).
Proof.
  intros Hr Hal Hn Eav Hp Hc.
  set (w1 := record (IsJobAlive (alive t)) (foldl finish w (finished t))).
  destruct (dispatch ord options (S fuel) l w (t :: s)) as [[r w'] s'] eqn:E.
  unfold dispatch, is_job_alive in E.
  rewrite (bind_ret _ _ _ _ _ _ _ (call_returns alive IsJobAlive w t _ Hr))
    in E.
  assert (alive t || bool_decide (0 < length (threads l))%nat = true) as Ho.
  { destruct Hal as [->|Hl]; [done|]. apply orb_true_iff. right.
    apply bool_decide_eq_true. destruct (threads l); [done|simpl; lia]. }
  rewrite Ho in E. fold w1 in E.
  rewrite (bind_ret _ _ _ _ _ _ _
             (wait_for_hosts_ready options fuel _ _ w1 s Hn)) in E.
  cbn [job_is_dead] in E.
  bind_cases E comb w4 s4 E4;
    [|by apply sweeper_get_next_spec in E as (? & [=] & _)..].
  assert (comb = Some c) as ->.
  { unfold sweeper_get_next, Sweep.get_next in E4.
    cbn [w1 record set_log sweeper] in E4.
    rewrite remaining_finishes, Hp in E4. by injection E4 as <- _ _. }
  apply sweeper_get_next_spec in E4 as (? & _ & -> & Hp4 & _ & Hl4 & _).
  assert (Hlen : length (pool w4) = length (pool w)).
  { rewrite Hp4. cbn [w1 record set_log pool]. apply pool_ends_finishes. }
  cbn [not_comb] in E. rewrite bool_decide_false in E by done.
  cbn [available_hosts threads] in E. rewrite Eav in E.
  bind_cases E t' w5 s5 E5; [|by apply start_spec in E as ([=] & _)..].
  apply start_spec in E5 as ([= ->] & -> & Hp5 & _ & Hl5).
  apply ret_inv in E as ([= E] & Ew & Es). subst.
  rewrite Hlen in Hl5 |- *.
  eexists. split; [done|].
  split; [|rewrite Hl5; apply last_snoc].
  rewrite Hp5, lookup_app_r by lia. by rewrite Hlen, Nat.sub_diag.
Qed.

End poll.
(** * The claims *)

Import Sweep SweepSpec SweepFacts.

(** C1. Wherever a run of the engine stands (whatever the environment does
    and however many calls were made), every combination generated from the
    parameter ranges is in exactly one of the sets remaining, in progress,
    completed and canceled, and the union of the four sets is the full
    Cartesian product of the ranges, hence constant. *)
Theorem C1_partition ord options parameters fuel script :
  let w := (run ord options parameters fuel init script).1.2 in
  (∀ c, c ∈ sweep parameters → in_exactly_one c (sweeper w)) ∧
  remaining (sweeper w) ∪ inprogress (sweeper w) ∪ completed (sweeper w)
    ∪ canceled (sweeper w) = list_to_set (sweep parameters).
Proof.
  destruct (run ord options parameters fuel init script) as [[r w'] s'] eqn:E.
  simpl. apply Inv_run in E. pose proof (inv_wf E) as Hwf. split.
  - intros c Hc. eapply wf_in_exactly_one; [exact Hwf|].
    by apply elem_of_list_to_set.
  - apply Hwf.
Qed.

Lemma C1_partition_witness :
  in_exactly_one (Scenario.comb 1 2) (sweeper Scenario.full_run.1.2).
Proof.
  apply (C1_partition first_order (Scenario.opts 1 false) Scenario.two_params
           100 (replicate 40 Scenario.all_end)).
  apply (bool_decide_unpack _). vm_compute. exact I.
Defined.

(** C2. In a run, [get_next] never hands out a combination twice: the
    combinations returned by its calls are pairwise distinct, so a
    combination that is in progress is not returned by another call; no two
    running threads hold the same combination; and from the state where the
    run stands, one more call would not return a combination in progress. *)
Theorem C2_no_double_dispatch ord options parameters fuel script :
  let w := (run ord options parameters fuel init script).1.2 in
  NoDup (pulled (log w)) ∧
  NoDup (t_comb <$> filter (λ th, t_alive th = true) (pool w)) ∧
  (∀ th, th ∈ pool w → t_alive th = true → t_comb th ∈ inprogress (sweeper w)) ∧
  (∀ c, c ∈ inprogress (sweeper w) → (get_next ord (sweeper w)).1 ≠ Some c).
Proof.
  destruct (run ord options parameters fuel init script) as [[r w'] s'] eqn:E.
  simpl. apply Inv_run in E. split; [apply E|]. split; [|split].
  - eapply sublist_NoDup; [exact (inv_nodup E)|].
    apply fmap_sublist, sublist_filter.
  - intros th Hth Hal. apply list_elem_of_lookup in Hth as [t Ht].
    by eapply (inv_alive E).
  - intros c Hc Hnext.
    destruct (get_next ord (sweeper w')) as [c' sw] eqn:En. simpl in Hnext.
    subst c'. apply get_next_some in En as [Hrem _].
    destruct (inv_wf E) as (_ & Hd & _). by eapply Hd.
Qed.

Lemma C2_no_double_dispatch_witness :
  (get_next first_order (sweeper Scenario.job_dies_run.1.2)).1
    ≠ Some (Scenario.comb 1 2).
Proof.
  apply (C2_no_double_dispatch first_order (Scenario.opts 2 false)
           Scenario.two_params 10 Scenario.job_dies_script).
  apply (bool_decide_unpack _). vm_compute. exact I.
Defined.

(** C3, counterexample.  The claim says that, once the job is reported not
    alive, the control loop returns only after every thread it started has
    reported.  Here two hosts are free and [-n] is 2: a first combination is
    started on node-1, the loop waits for a second free host, sleeps, finds
    the job dead and returns at once: thread 0 still runs and five
    combinations remain. *)
Lemma C3_counterexample :
  Scenario.job_dies.1.1 =
    Ret {| job_is_dead := true; threads := [(0%nat, "node-1")];
           available_hosts := ["node-2"] |} ∧
  is_alive (pool Scenario.job_dies.1.2) 0 = true ∧
  Scenario.job_dies.2 = [] ∧
  size (remaining (sweeper Scenario.job_dies.1.2)) = 5%nat.
Proof. vm_compute. repeat split. Qed.

(** C3, amended.  If [is_job_alive()] answers false at the check that
    follows the five-second sleep of the wait for free hosts, this is the
    last call the control loop makes: it hands out no further combination,
    starts no thread, does not wait for the threads it started, and returns
    with [job_is_dead] set. *)
Theorem C3_death_stops_dispatch ord options fuel l w s pre post :
  let out := dispatch_loop ord options fuel l w s in
  log out.1.2 = log w ++ pre ++ death ++ post →
  post = [] ∧ ∃ l', out.1.1 = Ret l' ∧ job_is_dead l' = true.
Proof.
  destruct (dispatch_loop ord options fuel l w s) as [[r w'] s'] eqn:H.
  cbn [fst snd]. intros Hlog.
  apply dispatch_loop_spec in H as (_ & tr & Hl & _ & Hs).
  rewrite Hl in Hlog. apply app_inv_head in Hlog. subst tr.
  destruct Hs as [Hq|(q & l' & E & Hq & -> & Hd)].
  - by rewrite quiet_occurs in Hq.
  - split; [|by exists l']. symmetry in E. by eapply death_is_last.
Qed.

Lemma C3_death_stops_dispatch_witness :
  ([] : list Event) = [] ∧
  ∃ l', Scenario.job_dies.1.1 = Ret l' ∧ job_is_dead l' = true.
Proof.
  apply (C3_death_stops_dispatch first_order (Scenario.opts 2 false) 10
           (Scenario.fresh ["node-1"; "node-2"])
           (Scenario.defined Scenario.two_params)
           [Scenario.tick [] true; Scenario.tick [] true;
            Scenario.tick [] true; Scenario.tick [] false]
           [IsJobAlive true; GetNext (Some (Scenario.comb 1 2));
            Start 0 (Scenario.comb 1 2) "node-1"; IsJobAlive true]
           []).
  apply (bool_decide_unpack _). vm_compute. exact I.
Defined.

(** A note on line 208.  The test [self.is_job_alive() or
    len(threads.keys()) > 0] lets a turn begin when the job is dead and a
    thread is still listed; if enough hosts are free, the turn does not
    check the job again before it calls [get_next].  Here the job is dead at
    the second test and a second combination is started all the same. *)
Example pull_after_death :
  log Scenario.dead_at_the_test.1.2 =
    [IsJobAlive true; GetNext (Some (Scenario.comb 1 2));
     Start 0 (Scenario.comb 1 2) "node-1";
     IsJobAlive false; GetNext (Some (Scenario.comb 0 2));
     Start 1 (Scenario.comb 0 2) "node-2"].
Proof. apply (bool_decide_unpack _). by vm_compute. Qed.

(** C4, counterexample.  The claim says that every acquired reservation is
    released exactly once on every exit path.  In [run], job 42 is acquired,
    found dead and replaced by job 43: [run] ends having released job 43
    only.  In [prototype.py], the storage job 4242 and the node job 77 are
    acquired and [get_oar_job_nodes] raises (line 31, before the [try]): the
    script ends there, without a call to [oardel]. *)
Lemma C4_counterexample :
  (Scenario.job_replaced.1.1 = Ret tt ∧
   log Scenario.job_replaced.1.2 =
     [Oargridsub 42; WaitOargridJobStart (Some 42);
      GetOargridJobNodes (Some 42); Deploy ["node-1"; "node-2"];
      IsJobAlive false; IsJobAlive false;
      Oargridsub 43; WaitOargridJobStart (Some 43);
      GetOargridJobNodes (Some 43); Deploy []; Oargriddel 43] ∧
   reserved (log Scenario.job_replaced.1.2) = [42; 43] ∧
   releases (log Scenario.job_replaced.1.2) = [43]) ∧
  (Prototype.main Bench.nodes_unknown [] =
     (Prototype.Error Prototype.CallError,
      [Prototype.SshProcess Prototype.chunk_size_cmd "rennes";
       Prototype.SshProcess "storage5k -a add -l chunks=5,walltime=2:00:00"
         "rennes";
       Prototype.Oarsub "nancy";
       Prototype.GetOarJobNodes (Some 77) "nancy"]) ∧
   filter (λ c, Prototype.is_oardel c = true)
     (Prototype.main Bench.nodes_unknown []).2 = []).
Proof. vm_compute. repeat split. Qed.

Lemma release_spec options w s r w' s' :
  release options w s = (r, w', s') → r ≠ Blocked →
  oargrid_job_id w' = oargrid_job_id w ∧
  ∃ tr, log w' = log w ++ tr ∧
    releases tr = if keep_alive options then []
                  else option_list (oargrid_job_id w).
Proof.
  intros H Hr. unfold release in H.
  bind_cases H j w1 s1 H1; [|done..].
  apply gets_ret_inv in H1 as (-> & -> & ->).
  destruct (oargrid_job_id w) as [j|] eqn:Ej.
  - destruct (keep_alive options); simpl in H.
    + apply ret_inv in H as (_ & -> & _). split; [done|].
      exists []. by rewrite app_nil_r.
    + apply call_spec in H as (_ & Hj & [H|[H|H]]).
      * by destruct H as (_ & -> & _).
      * destruct H as (t & _ & _ & _ & Hl). split; [congruence|]. eauto.
      * destruct H as (t & _ & _ & _ & Hl). split; [congruence|]. eauto.
  - apply ret_inv in H as (_ & -> & _). split; [done|].
    exists []. rewrite app_nil_r. by destruct (keep_alive options).
Qed.

(** C4, amended.  On every exit path of [run] (the sweep is over, no host
    was deployed, or an exception was raised in the body or by [oargriddel]
    itself), [oargriddel] has been invoked at most once: exactly once, on
    the job held at that point, when [-k] is not given and a job is held;
    not at all with [-k] or when no job is held, which is the case after
    the job was found dead.  The job held is the one that the last
    [oargridsub] returned or, when [oargridsub] never returned, the one
    given with [-j].  In [prototype.py], once the two reservations are made
    and line 35 is passed, [oardel] is invoked exactly once, as the last
    call of the script, on the storage job and on the node job, however the
    body of the [try] ends. *)
Theorem C4_release_on_exit ord options parameters fuel script
    env sid job hosts calls0 :
  let out := run ord options parameters fuel init script in
  let script_out := Prototype.main env [] in
  let del := Prototype.Oardel [(Some sid, Prototype.storage_site);
                               (job, Prototype.distant_site)] in
  out.1.1 ≠ Blocked →
  Prototype.reservations env [] = (Prototype.Ok (sid, job, hosts), calls0) →
  (releases (log out.1.2) =
     (if keep_alive options then []
      else option_list (oargrid_job_id out.1.2)) ∧
   ∀ j, oargrid_job_id out.1.2 = Some j →
        latest_job (given_job options) (log out.1.2) = Some j) ∧
  (filter (λ c, Prototype.is_oardel c = true) script_out.2 = [del] ∧
   last script_out.2 = Some del).
Proof.
  destruct (run ord options parameters fuel init script) as [[r w'] s'] eqn:H.
  cbn zeta. cbn [fst snd]. intros Hr Hres. split.
  - unfold run in H.
    bind_cases H u w1 s1 H1; [|done..].
    apply modify_inv in H1 as (_ & -> & ->).
    apply try_finally_inv in H
      as [[_ ->]|(r1 & w1 & s1 & r2 & H & _ & Hf & ->)]; [done|].
    bind_cases H u1 w2 s2 H2; [|done..].
    apply modify_inv in H2 as (_ & -> & ->).
    pose proof H as HL.
    apply (holds_latest_sweep_loop _ _ (given_job options)) in HL;
      [|by intros j].
    apply (holds_latest_release _ (given_job options)) in Hf as HL'; [|done].
    apply body_step_sweep_loop in H as (tr & Hl & Hrel & Hjob). simpl in *.
    apply release_spec in Hf as (Hj & tr' & Hl' & Hrel');
      [|by intros ->; destruct r1].
    split; [|exact HL'].
    by rewrite Hl', Hl, releases_app, Hrel, Hrel', Hj.
  - rewrite (PrototypeFacts.main_unfold _ _ _ _ _ Hres).
    apply PrototypeFacts.reservations_calls in Hres as (tr0 & -> & H0).
    destruct (Prototype.benchmark env sid hosts ([] ++ tr0))
      as [rb calls] eqn:Hb.
    apply PrototypeFacts.benchmark_calls in Hb as (tr & -> & Ht).
    cbn [fst snd]. by rewrite !filter_app, H0, Ht, last_snoc.
Qed.

Lemma C4_release_on_exit_witness :
  (releases (log Scenario.full_run.1.2) =
     option_list (oargrid_job_id Scenario.full_run.1.2) ∧
   ∀ j, oargrid_job_id Scenario.full_run.1.2 = Some j →
        latest_job (given_job (Scenario.opts 1 false))
          (log Scenario.full_run.1.2) = Some j) ∧
  (filter (λ c, Prototype.is_oardel c = true)
     (Prototype.main Bench.none_deployed []).2
     = [Prototype.Oardel [(Some 4242, Prototype.storage_site);
                          (Some 77, Prototype.distant_site)]] ∧
   last (Prototype.main Bench.none_deployed []).2
     = Some (Prototype.Oardel [(Some 4242, Prototype.storage_site);
                               (Some 77, Prototype.distant_site)])).
Proof.
  apply (C4_release_on_exit first_order (Scenario.opts 1 false)
           Scenario.two_params 100 (replicate 40 Scenario.all_end)
           Bench.none_deployed 4242 (Some 77)
           ["graphene-1.nancy.grid5000.fr"]
           [Prototype.SshProcess Prototype.chunk_size_cmd "rennes";
            Prototype.SshProcess
              "storage5k -a add -l chunks=5,walltime=2:00:00" "rennes";
            Prototype.Oarsub "nancy";
            Prototype.GetOarJobNodes (Some 77) "nancy"]).
  - apply (bool_decide_unpack _). vm_compute. exact I.
  - apply (bool_decide_unpack _). vm_compute. exact I.
Defined.

(** C5, counterexample.  The claim says that the slot of every worker
    whose workflow fails returns to the pool and serves a combination that
    remains.  With [-n 0] and one slot, the first combination is started on
    node-1 and its workflow fails: the combination is canceled.  The next
    turn does not enter the wait (0 > 0 is false), so the poll of lines
    211-215 does not run and node-1 stays out of [available_hosts]; the
    turn pulls the next combination and line 235 raises [IndexError]: the
    combination is in progress with no thread, five remain to be served and
    node-1 is idle. *)
Lemma C5_counterexample :
  Edge.slot_lost.1.1 = Raise ∧
  log Edge.slot_lost.1.2 =
    [IsJobAlive true; GetNext (Some (Scenario.comb 1 2));
     Start 0 (Scenario.comb 1 2) "node-1";
     IsJobAlive true; GetNext (Some (Scenario.comb 0 2))] ∧
  reports Edge.slot_lost.1.2 = [(0%nat, false)] ∧
  pool Edge.slot_lost.1.2 =
    [{| t_comb := Scenario.comb 1 2; t_host := "node-1"; t_alive := false |}] ∧
  canceled (sweeper Edge.slot_lost.1.2) = {[ Scenario.comb 1 2 ]} ∧
  inprogress (sweeper Edge.slot_lost.1.2) = {[ Scenario.comb 0 2 ]} ∧
  size (remaining (sweeper Edge.slot_lost.1.2)) = 4%nat.
Proof. repeat split; apply (bool_decide_unpack _); by vm_compute. Qed.



(** C6. For two parameters with ranges {0,1} and {0,1,2}, [sweep] produces
    six distinct combinations, the Cartesian product; [define_parameters]
    hands them to the sweeper once, before the loops.  Every run that ends
    normally with nothing remaining has started exactly one thread on each
    of the six, whatever the workflows report; and there is such a run, at
    the end of which the six combinations are completed or canceled. *)
Theorem C6_six_combinations :
  sweep Scenario.two_params =
    [Scenario.comb 0 0; Scenario.comb 0 1; Scenario.comb 0 2;
     Scenario.comb 1 0; Scenario.comb 1 1; Scenario.comb 1 2] ∧
  length (sweep Scenario.two_params) = 6%nat ∧
  NoDup (sweep Scenario.two_params) ∧
  (∀ ord options fuel script c,
     let out := run ord options Scenario.two_params fuel init script in
     out.1.1 = Ret tt → remaining (sweeper out.1.2) = ∅ →
     c ∈ sweep Scenario.two_params →
     length (filter (λ th, t_comb th = c) (pool out.1.2)) = 1%nat) ∧
  (Scenario.full_run.1.1 = Ret tt ∧
   remaining (sweeper Scenario.full_run.1.2) = ∅ ∧
   completed (sweeper Scenario.full_run.1.2)
     ∪ canceled (sweeper Scenario.full_run.1.2)
     = list_to_set (sweep Scenario.two_params) ∧
   t_comb <$> pool Scenario.full_run.1.2 ≡ₚ sweep Scenario.two_params).
Proof.
  split; [apply (bool_decide_unpack _); by vm_compute|].
  split; [apply (bool_decide_unpack _); by vm_compute|].
  split; [apply (bool_decide_unpack _); by vm_compute|].
  split.
  - intros ord options fuel script c.
    destruct (run ord options Scenario.two_params fuel init script)
      as [[r w'] s'] eqn:H.
    simpl. intros -> Hrem Hc.
    eapply run_once; [done..|].
    intros ->. revert Hc. apply (bool_decide_unpack _). by vm_compute.
  - repeat split; apply (bool_decide_unpack _); by vm_compute.
Qed.

Lemma C6_six_combinations_witness :
  length (filter (λ th, t_comb th = Scenario.comb 0 0)
            (pool Scenario.full_run.1.2)) = 1%nat.
Proof.
  destruct C6_six_combinations as (_ & _ & _ & H & _).
  apply (H first_order (Scenario.opts 1 false) 100%nat
           (replicate 40 Scenario.all_end)).
  - apply (bool_decide_unpack _). vm_compute. exact I.
  - apply (bool_decide_unpack _). vm_compute. exact I.
  - apply (bool_decide_unpack _). vm_compute. exact I.
Defined.

(** C7, counterexample.  The claim says that a combination is pulled only
    when fewer slots are busy than the configured limit.  With [-n 2] and
    four free slots (two hosts of two slots) the loop pulls and starts
    three combinations without waiting: when the third is pulled, threads 0
    and 1 both run, so two slots are busy, which is not below the limit of
    two. *)
Lemma C7_counterexample :
  n_nodes (Scenario.opts 2 false) = 2 ∧
  log Scenario.four_slots.1.2 =
    [IsJobAlive true; GetNext (Some (Scenario.comb 1 2));
     Start 0 (Scenario.comb 1 2) "node-1";
     IsJobAlive true; GetNext (Some (Scenario.comb 0 2));
     Start 1 (Scenario.comb 0 2) "node-1";
     IsJobAlive true; GetNext (Some (Scenario.comb 1 1));
     Start 2 (Scenario.comb 1 1) "node-2"] ∧
  t_alive <$> pool Scenario.four_slots.1.2 = [true; true; true].
Proof. repeat split; apply (bool_decide_unpack _); by vm_compute. Qed.

(** C7, amended.  A turn of the control loop calls [get_next] only after
    the wait for free hosts, that is when at least [n_nodes] slots are
    free: the test of line 210 compares [n_nodes] with the number of free
    slots, not with the number of busy ones.  When fewer were free at the
    start of the turn, the loop slept five seconds, once before each check
    of the job, at least once.  (Whether the job is alive at the time of
    the call is not part of this statement.) *)
Theorem C7_pull_when_hosts_free ord options fuel l w s c comb :
  let out := dispatch ord options fuel l w s in
  out.1.1 = Ret c →
  GetNext comb ∈ drop (length (log w)) (log out.1.2) →
  n_nodes options ≤ Z.of_nat (hosts_at_pull c) ∧
  ∃ a k rest,
    log out.1.2 = log w ++ [IsJobAlive a] ++ rounds k ++ [GetNext comb] ++ rest ∧
    (n_nodes options > Z.of_nat (length (available_hosts l)) → (0 < k)%nat).
Proof.
  destruct (dispatch ord options fuel l w s) as [[r w'] s'] eqn:H.
  cbn [fst snd]. intros -> Hin.
  apply dispatch_spec in H as (_ & tr & Hl & Ht).
  rewrite Hl, drop_app_length in Hin.
  destruct (turn_pulled _ _ _ _ _ _ _ Ht Hin) as [(a & k & rest & -> & Hk) Hn].
  split; [done|]. exists a, k, rest. by rewrite Hl.
Qed.

Lemma C7_pull_when_hosts_free_witness :
  n_nodes (Scenario.opts 2 false) ≤ Z.of_nat (hosts_at_pull
    (Continue {| job_is_dead := false; threads := [(0%nat, "node-1")];
                 available_hosts := ["node-1"; "node-2"; "node-2"] |})) ∧
  ∃ a k rest,
    log Scenario.one_turn.1.2 =
      log (Scenario.defined Scenario.two_params) ++ [IsJobAlive a] ++ rounds k
        ++ [GetNext (Some (Scenario.comb 1 2))] ++ rest ∧
    (n_nodes (Scenario.opts 2 false) >
       Z.of_nat (length (available_hosts
         (Scenario.fresh ["node-1"; "node-1"; "node-2"; "node-2"]))) →
     (0 < k)%nat).
Proof.
  apply (C7_pull_when_hosts_free first_order (Scenario.opts 2 false) 10
           (Scenario.fresh ["node-1"; "node-1"; "node-2"; "node-2"])
           (Scenario.defined Scenario.two_params) [Scenario.tick [] true]).
  - apply (bool_decide_unpack _). vm_compute. exact I.
  - apply (bool_decide_unpack _). vm_compute. exact I.
Defined.



(** C9, counterexample.  The claim says that, once nothing remains, the
    control loop returns only after every thread in progress has reported.
    With a single combination, two free hosts and [-n 2], the combination is
    started, nothing remains, the loop waits for a second free host, finds
    the job dead after its sleep and returns: thread 0 still runs. *)
Lemma C9_counterexample :
  Scenario.job_dies_at_the_end.1.1 =
    Ret {| job_is_dead := true; threads := [(0%nat, "node-1")];
           available_hosts := ["node-2"] |} ∧
  remaining (sweeper Scenario.job_dies_at_the_end.1.2) = ∅ ∧
  is_alive (pool Scenario.job_dies_at_the_end.1.2) 0 = true.
Proof. repeat split; apply (bool_decide_unpack _); by vm_compute. Qed.

(** C9, amended.  A turn of the control loop in which [get_next] is called
    and which leaves the loop found nothing to hand out (when [get_next]
    returned none, nothing remains); it returns with an empty [threads],
    every thread that [threads] held at the start of the turn has ended,
    and after [get_next] the loop only slept, twenty seconds at a time.
    Once all the threads of [threads] have ended, the drain loop forgets
    them, sleeps once and returns.  (The loop reaches [get_next] only if it
    did not find the job dead while waiting for a free host.) *)
Theorem C9_drain ord options fuel l w s l' comb :
  let out := dispatch ord options fuel l w s in
  out.1.1 = Ret (Break l') →
  GetNext comb ∈ drop (length (log w)) (log out.1.2) →
  (not_comb comb = true ∧
   (comb = None → remaining (sweeper out.1.2) = ∅) ∧
   threads l' = [] ∧
   (∀ y, y ∈ threads l → is_alive (pool out.1.2) y.1 = false) ∧
   ∃ a k j, log out.1.2 = log w ++ [IsJobAlive a] ++ rounds k
                            ++ [GetNext comb] ++ replicate j (Sleep 20)) ∧
  (∀ fuel' thr w0 t s0,
     thr ≠ [] → (∀ y, y ∈ thr → is_alive (pool w0) y.1 = false) →
     raises t = false →
     drain (S (S fuel')) thr w0 (t :: s0)
       = (Ret [], record (Sleep 20) (foldl finish w0 (finished t)), s0)).
Proof.
  destruct (dispatch ord options fuel l w s) as [[r w'] s'] eqn:H.
  cbn [fst snd]. intros -> Hin. split; [|intros; by apply drain_returns].
  apply dispatch_spec in H as (_ & tr & Hl & Ht).
  rewrite Hl, drop_app_length in Hin.
  inversion Ht; subst.
  - apply list_elem_of_singleton in Hin. done.
  - exfalso. rewrite !elem_of_app in Hin. destruct Hin as [Hin|[Hin|Hin]].
    + apply list_elem_of_singleton in Hin. done.
    + by apply get_next_not_in_rounds in Hin.
    + unfold death in Hin. rewrite !elem_of_cons in Hin.
      destruct Hin as [?|[?|Hin]]; [done..|]. by apply elem_of_nil in Hin.
  - rewrite !elem_of_app in Hin. destruct Hin as [Hin|[Hin|[Hin|Hin]]].
    + apply list_elem_of_singleton in Hin. done.
    + by apply get_next_not_in_rounds in Hin.
    + apply list_elem_of_singleton in Hin. injection Hin as ->.
      repeat (split; [done|]). exists a, k, j. by rewrite Hl.
    + apply elem_of_replicate in Hin as [? _]. done.
Qed.

Lemma C9_drain_witness :
  (not_comb None = true ∧
   ((None : option Comb) = None →
      remaining (sweeper Scenario.draining.1.2) = ∅) ∧
   ([] : Threads) = [] ∧
   (∀ y, y ∈ [(0%nat, "node-1")] →
         is_alive (pool Scenario.draining.1.2) y.1 = false) ∧
   ∃ a k j, log Scenario.draining.1.2 = [] ++ [IsJobAlive a] ++ rounds k
              ++ [GetNext None] ++ replicate j (Sleep 20)) ∧
  (∀ fuel' thr w0 t s0,
     thr ≠ [] → (∀ y, y ∈ thr → is_alive (pool w0) y.1 = false) →
     raises t = false →
     drain (S (S fuel')) thr w0 (t :: s0)
       = (Ret [], record (Sleep 20) (foldl finish w0 (finished t)), s0)).
Proof.
  apply (C9_drain first_order (Scenario.opts 1 false) 10
           {| job_is_dead := false; threads := [(0%nat, "node-1")];
              available_hosts := ["node-2"] |}
           {| sweeper := {| remaining := ∅;
                            inprogress := {[ Scenario.comb 0 0 ]};
                            completed := ∅; canceled := ∅ |};
              pool := [{| t_comb := Scenario.comb 0 0; t_host := "node-1";
                          t_alive := true |}];
              reports := []; oargrid_job_id := Some 42; log := [] |}
           [Scenario.tick [] true; Scenario.tick [] true;
            Scenario.tick [(0%nat, false)] true; Scenario.tick [] true]
           {| job_is_dead := false; threads := [];
              available_hosts := ["node-2"] |} None).
  - apply (bool_decide_unpack _). vm_compute. exact I.
  - apply (bool_decide_unpack _). vm_compute. exact I.
Defined.

(** C10. In the storage benchmark the number of chunks requested is the
    floor of 50 divided by the chunk size reported by the storage site
    (which must not be zero, or the division raises): the command sent
    carries that number, which is the integer [n] with
    [n * chunk_size <= 50 < (n + 1) * chunk_size] for a positive size; for
    every size above 50 it is 0, and the command asks for [chunks=0]. *)
Theorem C10_number_of_chunks (chunk_size : Z) :
  chunk_size ≠ 0 →
  ∃ n, Benchmark.number chunk_size = Some n ∧
       n = 50 `div` chunk_size ∧
       Benchmark.get_storage chunk_size
         = Some ("storage5k -a add -l chunks=" +:+ pretty n
                 +:+ ",walltime=2:00:00") ∧
       (0 < chunk_size → n * chunk_size ≤ 50 < (n + 1) * chunk_size) ∧
       (chunk_size < 0 → (n + 1) * chunk_size < 50 ≤ n * chunk_size) ∧
       (50 < chunk_size →
          n = 0 ∧
          Benchmark.get_storage chunk_size
            = Some "storage5k -a add -l chunks=0,walltime=2:00:00").
Proof.
  intros Hne. exists (50 `div` chunk_size).
  assert (Hnum : Benchmark.number chunk_size = Some (50 `div` chunk_size)).
  { unfold Benchmark.number. by rewrite bool_decide_false. }
  assert (Hcmd : Benchmark.get_storage chunk_size
            = Some ("storage5k -a add -l chunks="
                    +:+ pretty (50 `div` chunk_size) +:+ ",walltime=2:00:00")).
  { unfold Benchmark.get_storage. by rewrite Hnum. }
  split; [done|]. split; [done|]. split; [done|]. split; [|split].
  - intros Hpos. pose proof (Z.div_mod 50 chunk_size Hne).
    pose proof (Z.mod_pos_bound 50 chunk_size Hpos). nia.
  - intros Hneg. pose proof (Z.div_mod 50 chunk_size Hne).
    pose proof (Z.mod_neg_bound 50 chunk_size Hneg). nia.
  - intros Hbig. assert (50 `div` chunk_size = 0) as E
      by (apply Z.div_small; lia).
    split; [done|]. by rewrite Hcmd, E.
Qed.

Lemma C10_number_of_chunks_witness :
  ∃ n, Benchmark.number 64 = Some n ∧
       n = 50 `div` 64 ∧
       Benchmark.get_storage 64
         = Some ("storage5k -a add -l chunks=" +:+ pretty n
                 +:+ ",walltime=2:00:00") ∧
       (0 < 64 → n * 64 ≤ 50 < (n + 1) * 64) ∧
       (64 < 0 → (n + 1) * 64 < 50 ≤ n * 64) ∧
       (50 < 64 →
          n = 0 ∧
          Benchmark.get_storage 64
            = Some "storage5k -a add -l chunks=0,walltime=2:00:00").
Proof. apply (C10_number_of_chunks 64). lia. Defined.

(** * Further properties of the engine *)

(** X1. Lines 203-204: [available_hosts] lists each deployed host once per
    hardware thread ([smt_size]), the hosts in the order of the
    deployment: its length is the sum of the sizes, and a host is in it
    exactly when it was deployed with a size that is not zero. *)
Theorem slots_spec (hosts hosts' : list (Host * nat)) :
  length (slots hosts) = sum_list (hosts.*2) ∧
  (∀ h, h ∈ slots hosts ↔ ∃ n, (h, n) ∈ hosts ∧ (0 < n)%nat) ∧
  slots (hosts ++ hosts') = slots hosts ++ slots hosts'.
Proof.
  split; [|split].
  - unfold slots. induction hosts as [|[h n] hosts IH]; [done|].
    rewrite bind_cons, length_app, length_replicate, IH. done.
  - intros h. unfold slots. rewrite list_elem_of_bind. split.
    + intros ([h0 n] & [-> Hn]%elem_of_replicate & Hin). simpl in *.
      exists n. split; [done|lia].
    + intros (n & Hin & Hn). exists (h, n). split; [|done].
      apply elem_of_replicate. simpl. split; [done|lia].
  - apply bind_app.
Qed.

(** X2. The poll of lines 211-215 leaves in [threads] exactly the threads
    that still run, in their order, and neither loses nor invents a slot:
    the free hosts together with the hosts of the threads listed are the
    same before and after, up to their order.  The poll of the drain loop
    (lines 228-230) drops the same threads. *)
Theorem poll_keeps_running (p : list Thread) (thr : Threads)
    (av : list Host) :
  let out := reclaim p thr thr av in
  out.1 = filter (λ y, is_alive p y.1 = true) thr ∧
  out.2 ++ out.1.*2 ≡ₚ av ++ thr.*2 ∧
  forget p thr thr = out.1.
Proof.
  cbn zeta. split; [apply reclaim_alive|]. split; [apply reclaim_slots|].
  by rewrite forget_alive, reclaim_alive.
Qed.

(** X3. A turn of the control loop that goes on hands one free slot to the
    thread it starts and loses none: the free hosts and the hosts of the
    threads listed are, together, the same as before the turn, up to their
    order.  A turn that leaves the loop returns no more slots than it was
    given (the drain loop forgets the hosts of the threads it drops). *)
Theorem turn_keeps_slots ord options fuel l w s c :
  let out := dispatch ord options fuel l w s in
  out.1.1 = Ret c →
  match c with
  | Continue l' => slots_of l' ≡ₚ slots_of l
  | Break l' => slots_of l' ⊆+ slots_of l
  end.
Proof.
  destruct (dispatch ord options fuel l w s) as [[r w'] s'] eqn:H.
  cbn [fst snd]. intros ->. by eapply dispatch_slots.
Qed.

Lemma turn_keeps_slots_witness :
  slots_of {| job_is_dead := false; threads := [(0%nat, "node-1")];
              available_hosts := ["node-1"; "node-2"; "node-2"] |}
    ≡ₚ slots_of (Scenario.fresh ["node-1"; "node-1"; "node-2"; "node-2"]).
Proof.
  apply (turn_keeps_slots first_order (Scenario.opts 2 false) 10
           (Scenario.fresh ["node-1"; "node-1"; "node-2"; "node-2"])
           (Scenario.defined Scenario.two_params) [Scenario.tick [] true]
           (Continue {| job_is_dead := false; threads := [(0%nat, "node-1")];
              available_hosts := ["node-1"; "node-2"; "node-2"] |})).
  apply (bool_decide_unpack _). vm_compute. exact I.
Defined.

(** X4. When the control loop is entered with no thread listed and fewer
    free slots than [-n] asks for (a deployment that brought fewer slots
    than [n_nodes], for one), it never calls [get_next] and starts no
    thread: the wait of lines 210-219 has nothing to reclaim, so the loop
    only sleeps and asks after the job, until the job is reported dead.
    The locals it returns hold the same free hosts and no thread. *)
Theorem too_few_slots_never_dispatch ord options fuel l w s :
  threads l = [] →
  n_nodes options > Z.of_nat (length (available_hosts l)) →
  let out := dispatch_loop ord options fuel l w s in
  polls w out.1.2 ∧
  ∀ l', out.1.1 = Ret l' →
    threads l' = [] ∧ available_hosts l' = available_hosts l ∧
    (l' = l ∨ job_is_dead l' = true).
Proof.
  intros Ht Hn.
  destruct (dispatch_loop ord options fuel l w s) as [[r w'] s'] eqn:H.
  cbn [fst snd]. destruct fuel as [|fuel].
  { inversion H; subst. split; [apply polls_refl|done]. }
  cbn [dispatch_loop] in H.
  bind_cases H c w1 s1 H1;
    [|by apply dispatch_starved in H as [Hp _]..].
  apply dispatch_starved in H1 as [Hp Hc]; [|done..].
  destruct (Hc c eq_refl) as (l1 & -> & Ht1 & Ha1 & Hl1).
  apply ret_inv in H as (-> & -> & _). split; [done|].
  by intros l' [= <-].
Qed.

Lemma too_few_slots_never_dispatch_witness :
  polls (Scenario.defined Scenario.two_params) Edge.starved.1.2 ∧
  ∀ l', Edge.starved.1.1 = Ret l' →
    threads l' = [] ∧
    available_hosts l' = available_hosts (Scenario.fresh ["node-1"]) ∧
    (l' = Scenario.fresh ["node-1"] ∨ job_is_dead l' = true).
Proof.
  apply (too_few_slots_never_dispatch first_order (Scenario.opts 2 false) 10
           (Scenario.fresh ["node-1"])
           (Scenario.defined Scenario.two_params)).
  - reflexivity.
  - simpl. lia.
Defined.

(** X5. With [-n] at least 1, a turn of the control loop raises only when
    one of the calls it makes raises: line 235, [available_hosts[0]], is
    reached after the wait of line 210 with at least [n_nodes] free hosts
    and cannot raise [IndexError]. *)
Theorem turn_raises_with_a_call ord options fuel l w s :
  1 ≤ n_nodes options →
  let out := dispatch ord options fuel l w s in
  out.1.1 = Raise → ∃ e, last (log out.1.2) = Some (Raised e).
Proof.
  intros Hn.
  destruct (dispatch ord options fuel l w s) as [[r w'] s'] eqn:H.
  cbn [fst snd]. intros ->.
  apply dispatch_spec in H as (_ & tr & Hl & Ht). rewrite Hl.
  inversion Ht; subst.
  - eexists. apply last_snoc.
  - match goal with Htl : _ ∨ _ |- _ => destruct Htl as [->|[b ->]] end.
    + eexists. rewrite !(assoc_L (++)). apply last_snoc.
    + eexists.
      replace [Sleep 5; Raised (IsJobAlive b)]
        with ([Sleep 5] ++ [Raised (IsJobAlive b)]) by done.
      rewrite !(assoc_L (++)). apply last_snoc.
  - eexists. rewrite !(assoc_L (++)). apply last_snoc.
  - lia.
Qed.

Lemma turn_raises_with_a_call_witness :
  ∃ e, last (log Edge.call_raises.1.2) = Some (Raised e).
Proof.
  apply (turn_raises_with_a_call first_order (Scenario.opts 2 false) 10
           (Scenario.fresh ["node-1"; "node-2"])
           (Scenario.defined Scenario.two_params) [Edge.failing]).
  - simpl. lia.
  - apply (bool_decide_unpack _). vm_compute. exact I.
Defined.

(** X6. With [-n 0] (or a negative [-n]) the wait of line 210 never holds
    the loop back.  A turn that finds no free host and is handed a
    combination then raises at line 235, [available_hosts[0]], after
    [get_next]: the combination has left the remaining set, it is in
    progress, and no thread was started for it. *)
Theorem no_limit_index_error ord options fuel l w t s c :
  n_nodes options ≤ 0 → available_hosts l = [] →
  raises t = false → alive t = true ∨ threads l ≠ [] →
  pick ord (remaining (sweeper w)) = Some c → c ≠ ∅ →
  let out := dispatch ord options (S fuel) l w (t :: s) in
  out.1.1 = Raise ∧ out.2 = s ∧
  last (log out.1.2) = Some (GetNext (Some c)) ∧
  (c ∈ inprogress (sweeper out.1.2)) ∧
  length (pool out.1.2) = length (pool w).
Proof.
  intros Hn Ha Hr Hal Hp Hc.
  assert (∃ w', dispatch ord options (S fuel) l w (t :: s) = (Raise, w', s) ∧
    last (log w') = Some (GetNext (Some c)) ∧
    (c ∈ inprogress (sweeper w')) ∧
    length (pool w') = length (pool w)) as (w' & -> & H).
  2:{ cbn zeta. cbn [fst snd]. tauto. }
  eexists. split.
  - unfold dispatch, is_job_alive.
    unfold mbind at 1, M_bind at 1. cbn [call]. rewrite Hr.
    assert (alive t || bool_decide (0 < length (threads l))%nat = true) as ->.
    { destruct Hal as [->|Hl]; [done|]. apply orb_true_iff. right.
      apply bool_decide_eq_true. destruct (threads l); [done|simpl; lia]. }
    cbn [wait_for_hosts].
    rewrite bool_decide_false by (rewrite Ha; simpl; lia).
    unfold mbind at 1, M_bind at 1. unfold mret at 1, M_ret at 1.
    cbn [job_is_dead].
    unfold mbind at 1, M_bind at 1. unfold sweeper_get_next, get_next.
    cbn [record set_log sweeper]. rewrite remaining_finishes, Hp.
    cbn [not_comb]. rewrite bool_decide_false by done.
    cbn [available_hosts]. rewrite Ha. unfold raise. reflexivity.
  - cbn [record set_log set_sweeper sweeper inprogress pool log].
    split; [apply last_snoc|]. split; [set_solver|].
    apply pool_ends_finishes.
Qed.

Lemma no_limit_index_error_witness :
  Edge.no_limit.1.1 = Raise ∧ Edge.no_limit.2 = [] ∧
  last (log Edge.no_limit.1.2) = Some (GetNext (Some (Scenario.comb 1 2))) ∧
  (Scenario.comb 1 2 ∈ inprogress (sweeper Edge.no_limit.1.2)) ∧
  length (pool Edge.no_limit.1.2)
    = length (pool (Scenario.defined Scenario.two_params)).
Proof.
  apply (no_limit_index_error first_order (Scenario.opts 0 false) 0
           (Scenario.fresh []) (Scenario.defined Scenario.two_params)
           (Scenario.tick [] true) [] (Scenario.comb 1 2)).
  - simpl. lia.
  - reflexivity.
  - reflexivity.
  - left. reflexivity.
  - apply (bool_decide_unpack _). vm_compute. exact I.
  - apply (bool_decide_unpack _). vm_compute. exact I.
Defined.

(** X7. [run] returns normally in two cases only: nothing remains in the
    sweep (the test of line 184), or the last deployment brought no host
    (the [break] of line 200); in the second case the only call made after
    [deploy] is the [oargriddel] of the [finally] clause, if any. *)
Theorem run_ends_when ord options parameters fuel script :
  let out := run ord options parameters fuel init script in
  out.1.1 = Ret tt →
  remaining (sweeper out.1.2) = ∅ ∨
  ∃ pre post, log out.1.2 = pre ++ [Deploy []] ++ post ∧
              (post = [] ∨ ∃ j, post = [Oargriddel j]).
Proof.
  destruct (run ord options parameters fuel init script) as [[r w'] s'] eqn:H.
  cbn [fst snd]. intros ->. unfold run in H.
  bind_cases H u w1 s1 H1.
  apply modify_inv in H1 as (_ & -> & ->).
  apply try_finally_inv in H as [[_ [=]]|(r1 & w1 & s1 & r2 & H & _ & Hf & Hr)].
  assert (r1 = Ret tt) as -> by (by destruct r2, r1 as [[]| |]).
  bind_cases H u1 w2 s2 H2.
  apply sweep_loop_ret in H.
  unfold release in Hf.
  bind_cases Hf j w3 s3 H3; [|done..].
  apply gets_ret_inv in H3 as (-> & -> & ->).
  assert (∀ w0, last (log w0) = Some (Deploy []) →
                ∃ pre, log w0 = pre ++ [Deploy []]) as Hlast.
  { intros w0 Hl. destruct (log w0) as [|e tr] using rev_ind; [done|].
    rewrite last_snoc in Hl. injection Hl as ->. by eexists. }
  destruct (oargrid_job_id w1) as [j|].
  - destruct (negb (keep_alive options)).
    + destruct H as [H|H].
      * left. by rewrite (remaining_call _ _ _ _ _ _ _ Hf).
      * right. destruct (Hlast _ H) as [pre Hpre].
        apply call_spec in Hf as (_ & _ & Hl).
        destruct Hl as [(_ & -> & _)|[(t & _ & _ & -> & _)|(t & _ & _ & _ & Hl)]];
          [done..|].
        exists pre, [Oargriddel j]. rewrite Hl, Hpre, <-(assoc_L (++)).
        split; [done|]. right. by eexists.
    + apply ret_inv in Hf as (_ & -> & _). destruct H as [H|H]; [by left|].
      right. destruct (Hlast _ H) as [pre Hpre]. exists pre, [].
      split; [done|by left].
  - apply ret_inv in Hf as (_ & -> & _). destruct H as [H|H]; [by left|].
    right. destruct (Hlast _ H) as [pre Hpre]. exists pre, [].
    split; [done|by left].
Qed.

Lemma run_ends_when_witness :
  remaining (sweeper Scenario.kept_alive.1.2) = ∅ ∨
  ∃ pre post, log Scenario.kept_alive.1.2 = pre ++ [Deploy []] ++ post ∧
              (post = [] ∨ ∃ j, post = [Oargriddel j]).
Proof.
  apply (run_ends_when first_order (Scenario.opts 2 true) Scenario.two_params
           10 [Scenario.tick [] true; Scenario.tick [] true;
               Scenario.tick [] true; Scenario.no_host]).
  apply (bool_decide_unpack _). vm_compute. exact I.
Defined.

(** X8. Line 225 takes a combination without entries for no combination:
    wherever a run stands, no thread was started on the empty dictionary,
    and the empty dictionary is neither completed nor canceled. *)
Theorem empty_combination_never_started ord options parameters fuel script :
  let w := (run ord options parameters fuel init script).1.2 in
  (∀ th, th ∈ pool w → t_comb th ≠ ∅) ∧
  (∅ ∉ completed (sweeper w)) ∧ (∅ ∉ canceled (sweeper w)).
Proof.
  cbn zeta.
  apply (keeps_run ord options
    (λ w, (∀ th, th ∈ pool w → t_comb th ≠ ∅) ∧
          (∅ ∉ completed (sweeper w)) ∧ (∅ ∉ canceled (sweeper w)))
    (λ _, True)).
  - intros w f _ (Hp & Hc & Hk). unfold finish.
    destruct (pool w !! f.1) as [th|] eqn:Hth; [|done].
    destruct (t_alive th); [|done]. cbn [pool sweeper].
    assert (t_comb th ≠ ∅) as Hne.
    { apply Hp. by eapply list_elem_of_lookup_2. }
    split.
    + intros th' [i Hi]%list_elem_of_lookup.
      destruct (decide (i = f.1)) as [->|Hneq].
      * rewrite list_lookup_insert_eq in Hi
          by (by eapply lookup_lt_Some).
        by injection Hi as <-.
      * rewrite list_lookup_insert_ne in Hi by done.
        apply Hp. by eapply list_elem_of_lookup_2.
    + unfold workflow, done, cancel.
      destruct f.2; case_decide; simpl; set_solver.
  - done.
  - done.
  - intros w (Hp & Hc & Hk). unfold get_next.
    destruct (pick ord _); done.
  - intros w c host Hc (Hp & H1 & H2). split; [|done].
    intros th [Hin| ->%list_elem_of_singleton]%elem_of_app; [by apply Hp|done].
  - split; [|set_solver]. by intros th Hin%elem_of_nil.
  - intros w (Hp & _). split; [done|]. simpl. set_solver.
  - apply Forall_forall. intros t _. by apply Forall_forall.
Qed.

Lemma empty_combination_never_started_witness :
  t_comb {| t_comb := Scenario.comb 1 2; t_host := "node-1";
            t_alive := true |} ≠ ∅.
Proof.
  apply (proj1 (empty_combination_never_started first_order
                  (Scenario.opts 2 false) Scenario.two_params 10
                  Scenario.job_dies_script)).
  apply (bool_decide_unpack _). vm_compute. exact I.
Defined.

(** X9. As the file stands, the body of [workflow] never reaches line 157:
    if [Put] returns at line 101, line 103 raises [NameError] on [ET],
    which nothing binds.  So [comb_ok] is false when the [finally] clause
    is entered, whatever the environment does: [workflow] calls
    [sweeper.cancel], never [sweeper.done], and leaves the completed set as
    it was. *)
Theorem workflow_never_done env comb sw :
  Workflow.body Workflow.namespace env comb =
    (if Workflow.fails env 101 then Workflow.Exc (Workflow.Failed 101)
     else Workflow.Exc (Workflow.NameError "ET")) ∧
  Workflow.comb_ok (Workflow.body Workflow.namespace env comb) = false ∧
  Workflow.run_workflow Workflow.namespace env comb sw
    = default sw (cancel sw comb) ∧
  completed (Workflow.run_workflow Workflow.namespace env comb sw)
    = completed sw.
Proof.
  assert (Workflow.body Workflow.namespace env comb =
    (if Workflow.fails env 101 then Workflow.Exc (Workflow.Failed 101)
     else Workflow.Exc (Workflow.NameError "ET"))) as Hb.
  { unfold Workflow.body, Workflow.external.
    destruct (Workflow.fails env 101); reflexivity. }
  split; [done|]. unfold Workflow.run_workflow. rewrite Hb.
  assert (Workflow.comb_ok
    (if Workflow.fails env 101 then Workflow.Exc (Workflow.Failed 101)
     else Workflow.Exc (Workflow.NameError "ET")) = false) as ->
    by (by destruct (Workflow.fails env 101)).
  split; [done|]. split; [done|].
  unfold workflow, cancel. by case_decide.
Qed.

(** X10. The eight names of [Workflow.missing] are all that keeps the body
    from its end: were they bound, a body in which no call raises and
    every file is retrieved would set [comb_ok] at line 157, and
    [workflow] would call [sweeper.done]. *)
Theorem workflow_done_with_names env comb sw :
  (∀ line, Workflow.fails env line = false) →
  forallb id (Workflow.get_ok env) = true →
  Workflow.body (Workflow.namespace ++ Workflow.missing) env comb
    = Workflow.Done true ∧
  Workflow.run_workflow (Workflow.namespace ++ Workflow.missing) env comb sw
    = default sw (done sw comb).
Proof.
  intros Hf Hg.
  assert (Workflow.body (Workflow.namespace ++ Workflow.missing) env comb
    = Workflow.Done true) as Hb.
  { unfold Workflow.body, Workflow.external. rewrite !Hf, Hg.
    destruct (Workflow.mkdir_fails env), (bool_decide (comb = ∅));
      reflexivity. }
  split; [done|]. unfold Workflow.run_workflow. by rewrite Hb.
Qed.

Lemma workflow_done_with_names_witness :
  Workflow.body (Workflow.namespace ++ Workflow.missing) Edge.all_well
    (Scenario.comb 0 0) = Workflow.Done true ∧
  Workflow.run_workflow (Workflow.namespace ++ Workflow.missing)
    Edge.all_well (Scenario.comb 0 0) (new [Scenario.comb 0 0])
    = default (new [Scenario.comb 0 0])
        (done (new [Scenario.comb 0 0]) (Scenario.comb 0 0)).
Proof.
  apply (workflow_done_with_names Edge.all_well (Scenario.comb 0 0)
           (new [Scenario.comb 0 0])).
  - intros line. reflexivity.
  - reflexivity.
Defined.

(** X11. In a run whose workflows end as the body has them, with [comb_ok]
    false, no combination is ever completed. *)
Theorem nothing_is_completed ord options parameters fuel script :
  Forall (λ t, Forall (λ f, f.2 = false) (finished t)) script →
  completed (sweeper (run ord options parameters fuel init script).1.2) = ∅.
Proof.
  intros Hs.
  apply (keeps_run ord options (λ w, completed (sweeper w) = ∅)
           (λ f, f.2 = false)); [..|done].
  - intros w f Hf Hc. unfold finish.
    destruct (pool w !! f.1) as [th|]; [|done].
    destruct (t_alive th); [|done]. cbn [sweeper].
    rewrite Hf. unfold workflow, cancel. by case_decide.
  - done.
  - done.
  - intros w Hc. unfold get_next. by destruct (pick ord _).
  - done.
  - done.
  - done.
Qed.

Lemma nothing_is_completed_witness :
  completed (sweeper Scenario.full_run.1.2) = ∅.
Proof.
  apply (nothing_is_completed first_order (Scenario.opts 1 false)
           Scenario.two_params 100 (replicate 40 Scenario.all_end)).
  apply (bool_decide_unpack _). vm_compute. exact I.
Defined.

(** * [replaceWord] *)

(** X12. For a word [word1] that is not empty and holds no ['\n'],
    [replaceWord(src, dst, word1, word2)] with [dst] another file than
    [src] leaves in [dst] the whole text of [src] with every occurrence of
    [word1], read from the left, replaced by [word2]: working line by line
    changes nothing.  [src] and every other file are left as they were. *)
Theorem replaceWord_whole_text src dst word1 word2 fs content :
  fs !! src = Some content → src ≠ dst →
  word1 ≠ [] → Str.nl ∉ word1 →
  replaceWord src dst word1 word2 fs
    = Some (<[dst := Str.replace word1 word2 content]> fs).
Proof.
  intros Hs Hd Hw Hn. unfold replaceWord. rewrite Hs. cbn zeta.
  rewrite lookup_insert_ne, Hs by done. simpl.
  rewrite StrFacts.replace_by_line by done.
  by rewrite insert_insert_eq.
Qed.

Lemma replaceWord_whole_text_witness :
  replaceWord "sgcb_ntier_1.conf.tmp" "sgcb_ntier_1.conf" Conf.word
    Conf.trace Conf.files
  = Some (<["sgcb_ntier_1.conf" :=
            Str.replace Conf.word Conf.trace Conf.template]> Conf.files).
Proof.
  apply (replaceWord_whole_text "sgcb_ntier_1.conf.tmp" "sgcb_ntier_1.conf"
           Conf.word Conf.trace Conf.files Conf.template).
  - apply (bool_decide_unpack _). vm_compute. exact I.
  - apply (bool_decide_unpack _). vm_compute. exact I.
  - apply (bool_decide_unpack _). vm_compute. exact I.
  - apply (bool_decide_unpack _). vm_compute. exact I.
Defined.

(** X13. A word that holds a ['\n'] before its last byte is never
    replaced: [replaceWord] reads the text line by line, so an occurrence
    that begins on a line and goes on after its end is not found, and [dst]
    receives the text of [src] as it is. *)
Theorem replaceWord_not_across_lines src dst a b word2 fs content :
  fs !! src = Some content → src ≠ dst → b ≠ [] →
  replaceWord src dst (a ++ Str.nl :: b) word2 fs
    = Some (<[dst := content]> fs).
Proof.
  intros Hs Hd Hb. unfold replaceWord. rewrite Hs. cbn zeta.
  rewrite lookup_insert_ne, Hs by done. simpl.
  rewrite insert_insert_eq. do 2 f_equal.
  transitivity (mjoin (Str.readlines content));
    [|apply StrFacts.mjoin_readlines].
  f_equal. rewrite <-(list_fmap_id (Str.readlines content)) at 2.
  apply list_fmap_ext. intros i x Hx. simpl.
  apply StrFacts.replace_absent; [by destruct a|].
  eapply StrFacts.contains_line; [done|]. by eapply list_elem_of_lookup_2.
Qed.

Lemma replaceWord_not_across_lines_witness :
  replaceWord "sgcb_ntier_1.conf.tmp" "sgcb_ntier_1.conf"
    (Str.of_string "TRACE_FILE" ++ Str.nl :: Str.of_string "xml")
    Conf.trace Conf.files
  = Some (<["sgcb_ntier_1.conf" := Conf.template]> Conf.files).
Proof.
  apply (replaceWord_not_across_lines "sgcb_ntier_1.conf.tmp"
           "sgcb_ntier_1.conf" (Str.of_string "TRACE_FILE")
           (Str.of_string "xml") Conf.trace Conf.files Conf.template).
  - apply (bool_decide_unpack _). vm_compute. exact I.
  - apply (bool_decide_unpack _). vm_compute. exact I.
  - apply (bool_decide_unpack _). vm_compute. exact I.
Defined.

(** The text of [Conf.template] does hold the word of the example above:
    [str.replace] on the whole text replaces it. *)
Example replace_across_lines :
  Str.replace Conf.two_lines Conf.trace Conf.template ≠ Conf.template.
Proof. apply (bool_decide_unpack _). vm_compute. exact I. Qed.

(** X14. [replaceWord(src, src, ...)] empties the file: it is opened for
    writing, hence truncated, before its lines are read. *)
Theorem replaceWord_same_file src word1 word2 fs content :
  fs !! src = Some content →
  replaceWord src src word1 word2 fs = Some (<[src := []]> fs).
Proof.
  intros Hs. unfold replaceWord. rewrite Hs. cbn zeta.
  rewrite lookup_insert_eq. simpl. by rewrite insert_insert_eq.
Qed.

Lemma replaceWord_same_file_witness :
  replaceWord "sgcb_ntier_1.conf.tmp" "sgcb_ntier_1.conf.tmp" Conf.word
    Conf.trace Conf.files
  = Some (<["sgcb_ntier_1.conf.tmp" := []]> Conf.files).
Proof.
  apply (replaceWord_same_file "sgcb_ntier_1.conf.tmp" Conf.word Conf.trace
           Conf.files Conf.template).
  apply (bool_decide_unpack _). vm_compute. exact I.
Defined.




(** * The storage benchmark *)

(** X16. Once the two reservations are made and line 35 is passed,
    [oardel] is called exactly once, as the last call of the script, on the
    storage job and on the node job, however the body of the [try] ends: at
    its last line, with [exit()] when no host was deployed, or with an
    exception.  The script then ends as the body did, unless [oardel]
    itself raises. *)
Theorem oardel_once env sid job hosts calls0 :
  Prototype.reservations env [] = (Prototype.Ok (sid, job, hosts), calls0) →
  let out := Prototype.main env [] in
  let del := Prototype.Oardel [(Some sid, Prototype.storage_site);
                               (job, Prototype.distant_site)] in
  filter (λ c, Prototype.is_oardel c = true) out.2 = [del] ∧
  last out.2 = Some del ∧
  out.1 = match Prototype.oardel_ok env with
          | Some _ => (Prototype.benchmark env sid hosts calls0).1
          | None => Prototype.Error Prototype.CallError
          end.
Proof.
  intros H. cbn zeta. rewrite (PrototypeFacts.main_unfold _ _ _ _ _ H).
  apply PrototypeFacts.reservations_calls in H as (tr0 & -> & H0).
  destruct (Prototype.benchmark env sid hosts ([] ++ tr0)) as [r calls] eqn:Hb.
  apply PrototypeFacts.benchmark_calls in Hb as (tr & -> & Ht).
  cbn [fst snd]. rewrite !filter_app, H0, Ht, last_snoc. done.
Qed.

Lemma oardel_once_witness :
  let out := Prototype.main Bench.none_deployed [] in
  let del := Prototype.Oardel [(Some 4242, Prototype.storage_site);
                               (Some 77, Prototype.distant_site)] in
  filter (λ c, Prototype.is_oardel c = true) out.2 = [del] ∧
  last out.2 = Some del ∧
  out.1 = match Prototype.oardel_ok Bench.none_deployed with
          | Some _ =>
              (Prototype.benchmark Bench.none_deployed 4242
                 ["graphene-1.nancy.grid5000.fr"]
                 [Prototype.SshProcess Prototype.chunk_size_cmd "rennes";
                  Prototype.SshProcess
                    "storage5k -a add -l chunks=5,walltime=2:00:00" "rennes";
                  Prototype.Oarsub "nancy";
                  Prototype.GetOarJobNodes (Some 77) "nancy"]).1
          | None => Prototype.Error Prototype.CallError
          end.
Proof.
  apply (oardel_once Bench.none_deployed 4242 (Some 77)
           ["graphene-1.nancy.grid5000.fr"]).
  apply (bool_decide_unpack _). vm_compute. exact I.
Defined.

(** X17. An exception before the [try] (lines 14-35) ends the script at
    once: the [finally] clause is not reached and [oardel] is not called,
    whatever was reserved by then. *)
Theorem error_before_try_releases_nothing env e calls0 :
  Prototype.reservations env [] = (Prototype.Error e, calls0) →
  Prototype.main env [] = (Prototype.Error e, calls0) ∧
  filter (λ c, Prototype.is_oardel c = true) calls0 = [].
Proof.
  intros H. split; [by apply PrototypeFacts.main_error|].
  by apply PrototypeFacts.reservations_calls in H as (tr0 & -> & H0).
Qed.

Lemma error_before_try_releases_nothing_witness :
  Prototype.main Bench.refused [] =
    (Prototype.Error Prototype.NameError,
     [Prototype.SshProcess Prototype.chunk_size_cmd "rennes";
      Prototype.SshProcess "storage5k -a add -l chunks=5,walltime=2:00:00"
        "rennes"]) ∧
  filter (λ c, Prototype.is_oardel c = true)
    [Prototype.SshProcess Prototype.chunk_size_cmd "rennes";
     Prototype.SshProcess "storage5k -a add -l chunks=5,walltime=2:00:00"
       "rennes"] = [].
Proof.
  apply (error_before_try_releases_nothing Bench.refused).
  apply (bool_decide_unpack _). vm_compute. exact I.
Defined.

(** X18. When the node job comes without a node ([get_oar_job_nodes]
    answers an empty list), line 35, [hosts[0]], raises [IndexError] before
    the [try]: the storage request and [oarsub] were sent, and neither job
    is deleted. *)
Theorem no_node_releases_nothing env job :
  Prototype.GetOarJobNodes job Prototype.distant_site
    ∈ (Prototype.main env []).2 →
  Prototype.job_nodes env = Some [] →
  ∃ chunk_size cmd,
    Benchmark.get_storage chunk_size = Some cmd ∧
    Prototype.main env [] =
      (Prototype.Error Prototype.IndexError,
       [Prototype.SshProcess Prototype.chunk_size_cmd Prototype.storage_site;
        Prototype.SshProcess cmd Prototype.storage_site;
        Prototype.Oarsub Prototype.distant_site;
        Prototype.GetOarJobNodes job Prototype.distant_site]).
Proof.
  intros Hin Hn.
  destruct (Prototype.reservations env []) as [r calls0] eqn:H.
  assert (∃ chunk_size cmd,
    Benchmark.get_storage chunk_size = Some cmd ∧
    r = Prototype.Error Prototype.IndexError ∧
    calls0 =
      [Prototype.SshProcess Prototype.chunk_size_cmd Prototype.storage_site;
       Prototype.SshProcess cmd Prototype.storage_site;
       Prototype.Oarsub Prototype.distant_site;
       Prototype.GetOarJobNodes job Prototype.distant_site])
    as (cs & cmd & Hc & -> & ->).
  { destruct r as [[[sid job'] hosts]|e].
    - exfalso. pose proof H as H'. unfold Prototype.reservations in H'.
      rewrite Hn in H'. PrototypeFacts.run_cases.
    - pose proof (PrototypeFacts.main_error _ _ _ H) as Hm.
      rewrite Hm in Hin. simpl in Hin.
      unfold Prototype.reservations in H. rewrite Hn in H.
      PrototypeFacts.run_cases; set_solver. }
  exists cs, cmd. split; [done|]. by apply PrototypeFacts.main_error.
Qed.

Lemma no_node_releases_nothing_witness :
  ∃ chunk_size cmd,
    Benchmark.get_storage chunk_size = Some cmd ∧
    Prototype.main Bench.no_node [] =
      (Prototype.Error Prototype.IndexError,
       [Prototype.SshProcess Prototype.chunk_size_cmd Prototype.storage_site;
        Prototype.SshProcess cmd Prototype.storage_site;
        Prototype.Oarsub Prototype.distant_site;
        Prototype.GetOarJobNodes None Prototype.distant_site]).
Proof.
  apply (no_node_releases_nothing Bench.no_node None).
  - apply (bool_decide_unpack _). vm_compute. exact I.
  - reflexivity.
Defined.

(** X19. The storage job is read from the first line of the answer that
    holds [OAR_JOB_ID], whatever the lines after it hold: the text between
    the first and the second [=] of that line, as an integer
    ([IndexError] without [=], [ValueError] when it is not a number). *)
Theorem job_id_from_first_line pre s rest :
  (∀ x, x ∈ pre → Str.contains (Str.of_string "OAR_JOB_ID") x = false) →
  Str.contains (Str.of_string "OAR_JOB_ID") s = true →
  Prototype.find_job_id (pre ++ s :: rest) =
    match Prototype.job_id_of s with
    | Prototype.Ok z => Prototype.Ok (Some z)
    | Prototype.Error e => Prototype.Error e
    end.
Proof.
  intros Hpre Hs.
  induction pre as [|x pre IH]; cbn [app Prototype.find_job_id].
  - by rewrite Hs.
  - rewrite Hpre by (by left). apply IH. intros y Hy. apply Hpre. by right.
Qed.

Lemma job_id_from_first_line_witness :
  Prototype.find_job_id
    ([Str.of_string "[ADMISSION RULE] Modify resource description"]
     ++ Str.of_string "OAR_JOB_ID=4242=x"
     :: [Str.of_string "OAR_JOB_ID=1"; []]) =
    match Prototype.job_id_of (Str.of_string "OAR_JOB_ID=4242=x") with
    | Prototype.Ok z => Prototype.Ok (Some z)
    | Prototype.Error e => Prototype.Error e
    end.
Proof.
  apply (job_id_from_first_line
           [Str.of_string "[ADMISSION RULE] Modify resource description"]
           (Str.of_string "OAR_JOB_ID=4242=x")
           [Str.of_string "OAR_JOB_ID=1"; []]).
  - intros x Hx. apply list_elem_of_singleton in Hx. subst x. reflexivity.
  - reflexivity.
Defined.

(** X20. When no line of the answer to the storage request holds
    [OAR_JOB_ID], [storage_job_id] is never bound and line 23 raises
    [NameError]: the script ends having sent the request, without a node
    reservation and without [oardel]. *)
Theorem no_job_id_line env out1 chunk_size cmd out2 :
  Prototype.chunk_size_out env = Some out1 →
  Str.int (drop 1 out1) = Some chunk_size →
  Benchmark.get_storage chunk_size = Some cmd →
  Prototype.get_storage_out env = Some out2 →
  (∀ x, x ∈ Str.split Str.nl out2 →
        Str.contains (Str.of_string "OAR_JOB_ID") x = false) →
  Prototype.main env [] =
    (Prototype.Error Prototype.NameError,
     [Prototype.SshProcess Prototype.chunk_size_cmd Prototype.storage_site;
      Prototype.SshProcess cmd Prototype.storage_site]).
Proof.
  intros H1 Hi Hc H2 Hl.
  assert (Prototype.find_job_id (Str.split Str.nl out2) = Prototype.Ok None)
    as Hf.
  { induction (Str.split Str.nl out2) as [|x l IH]; [done|].
    cbn [Prototype.find_job_id].
    rewrite Hl by (by left). apply IH. intros y Hy. apply Hl. by right. }
  unfold Prototype.main, Prototype.reservations.
  unfold mbind, Prototype.Run_bind, Prototype.ext, Prototype.check,
    Prototype.lift.
  rewrite H1. simpl. rewrite Hi, Hc, H2, Hf. done.
Qed.

Lemma no_job_id_line_witness :
  Prototype.main Bench.refused [] =
    (Prototype.Error Prototype.NameError,
     [Prototype.SshProcess Prototype.chunk_size_cmd Prototype.storage_site;
      Prototype.SshProcess "storage5k -a add -l chunks=5,walltime=2:00:00"
        Prototype.storage_site]).
Proof.
  apply (no_job_id_line Bench.refused (Str.of_string "=10
") 10 "storage5k -a add -l chunks=5,walltime=2:00:00"
    (Str.of_string "[ADMISSION RULE] Modify resource description
There are not enough resources for your request
")).
  - reflexivity.
  - reflexivity.
  - reflexivity.
  - reflexivity.
  - apply Forall_forall. apply (bool_decide_unpack _). vm_compute. exact I.
Defined.

(** X21. When what follows the first byte of the answer to
    [storage5k -a chunk_size] is not an integer, line 16 raises
    [ValueError]; when it is zero, line 17 raises [ZeroDivisionError].  In
    both cases the script ends there: nothing was reserved. *)
Theorem unusable_chunk_size env out1 :
  Prototype.chunk_size_out env = Some out1 →
  Str.int (drop 1 out1) = None ∨ Str.int (drop 1 out1) = Some 0 →
  Prototype.main env [] =
    (Prototype.Error (if Str.int (drop 1 out1) is Some _
                      then Prototype.ZeroDivisionError
                      else Prototype.ValueError),
     [Prototype.SshProcess Prototype.chunk_size_cmd Prototype.storage_site]).
Proof.
  intros H1 Hi.
  unfold Prototype.main, Prototype.reservations.
  unfold mbind, Prototype.Run_bind, Prototype.ext, Prototype.check.
  rewrite H1. simpl. by destruct Hi as [-> | ->].
Qed.

Lemma unusable_chunk_size_witness :
  Prototype.main Bench.zero_size [] =
    (Prototype.Error (if Str.int (drop 1 (Str.of_string "=0
")) is Some _
                      then Prototype.ZeroDivisionError
                      else Prototype.ValueError),
     [Prototype.SshProcess Prototype.chunk_size_cmd Prototype.storage_site]).
Proof.
  apply (unusable_chunk_size Bench.zero_size (Str.of_string "=0
")).
  - reflexivity.
  - right. reflexivity.
Defined.

(** X22. When the deployment leaves no host, the script calls [exit()]
    (line 43): it runs no command on a node, the [finally] clause deletes
    the two jobs, and the script ends with [SystemExit] (or with what
    [oardel] raises). *)
Theorem no_host_deployed env sid job hosts calls0 :
  Prototype.reservations env [] = (Prototype.Ok (sid, job, hosts), calls0) →
  Prototype.deployed env = Some [] →
  Prototype.main env [] =
    (Prototype.Error (if Prototype.oardel_ok env is Some _
                      then Prototype.SystemExit else Prototype.CallError),
     calls0 ++ [Prototype.DeployNodes hosts;
                Prototype.Oardel [(Some sid, Prototype.storage_site);
                                  (job, Prototype.distant_site)]]).
Proof.
  intros H Hd. rewrite (PrototypeFacts.main_unfold _ _ _ _ _ H).
  unfold Prototype.benchmark.
  unfold mbind, Prototype.Run_bind, Prototype.ext. rewrite Hd. simpl.
  rewrite <-(assoc_L (++)). by destruct (Prototype.oardel_ok env).
Qed.

Lemma no_host_deployed_witness :
  Prototype.main Bench.none_deployed [] =
    (Prototype.Error (if Prototype.oardel_ok Bench.none_deployed is Some _
                      then Prototype.SystemExit else Prototype.CallError),
     [Prototype.SshProcess Prototype.chunk_size_cmd "rennes";
      Prototype.SshProcess "storage5k -a add -l chunks=5,walltime=2:00:00"
        "rennes";
      Prototype.Oarsub "nancy";
      Prototype.GetOarJobNodes (Some 77) "nancy"]
     ++ [Prototype.DeployNodes ["graphene-1.nancy.grid5000.fr"];
         Prototype.Oardel [(Some 4242, Prototype.storage_site);
                           (Some 77, Prototype.distant_site)]]).
Proof.
  apply (no_host_deployed Bench.none_deployed 4242 (Some 77)
           ["graphene-1.nancy.grid5000.fr"]).
  - apply (bool_decide_unpack _). vm_compute. exact I.
  - reflexivity.
Defined.

(** X23. When every call answers and the two reports of [dd] have an
    eighth word on their last line, the script runs the mount, the write
    test and the read test, in this order, on the first host deployed, with
    the storage job in the mount point, deletes the two jobs and ends
    normally. *)
Theorem benchmark_runs env sid job hosts calls0 host others m w r :
  Prototype.reservations env [] = (Prototype.Ok (sid, job, hosts), calls0) →
  Prototype.deployed env = Some (host :: others) →
  Prototype.mount_out env = Some m →
  Prototype.bench_write_out env = Some w →
  is_Some (Prototype.throughput w) →
  Prototype.bench_read_out env = Some r →
  is_Some (Prototype.throughput r) →
  Prototype.oardel_ok env = Some tt →
  Prototype.main env [] =
    (Prototype.Ok tt,
     calls0 ++
     [Prototype.DeployNodes hosts;
      Prototype.SshProcess
        (Prototype.mount_cmd (Prototype.user env) sid) host;
      Prototype.SshProcess Prototype.dd_write host;
      Prototype.SshProcess Prototype.dd_read host;
      Prototype.Oardel [(Some sid, Prototype.storage_site);
                        (job, Prototype.distant_site)]]).
Proof.
  intros H Hd Hm Hw [tw Htw] Hr [tr Htr] Ho.
  rewrite (PrototypeFacts.main_unfold _ _ _ _ _ H).
  unfold Prototype.benchmark.
  unfold mbind, Prototype.Run_bind, Prototype.ext, Prototype.check.
  rewrite Hd, Hm, Hw, Htw, Hr, Htr, Ho. simpl.
  by rewrite <-!(assoc_L (++)).
Qed.

Lemma benchmark_runs_witness :
  Prototype.main Bench.well [] =
    (Prototype.Ok tt,
     [Prototype.SshProcess Prototype.chunk_size_cmd "rennes";
      Prototype.SshProcess "storage5k -a add -l chunks=5,walltime=2:00:00"
        "rennes";
      Prototype.Oarsub "nancy";
      Prototype.GetOarJobNodes (Some 77) "nancy"] ++
     [Prototype.DeployNodes ["graphene-1.nancy.grid5000.fr"];
      Prototype.SshProcess
        (Prototype.mount_cmd (Prototype.user Bench.well) 4242)
        "graphene-1.nancy.grid5000.fr";
      Prototype.SshProcess Prototype.dd_write "graphene-1.nancy.grid5000.fr";
      Prototype.SshProcess Prototype.dd_read "graphene-1.nancy.grid5000.fr";
      Prototype.Oardel [(Some 4242, Prototype.storage_site);
                        (Some 77, Prototype.distant_site)]]).
Proof.
  apply (benchmark_runs Bench.well 4242 (Some 77)
           ["graphene-1.nancy.grid5000.fr"] _
           "graphene-1.nancy.grid5000.fr" [] [] Bench.dd_summary
           Bench.dd_summary).
  - apply (bool_decide_unpack _). vm_compute. exact I.
  - reflexivity.
  - reflexivity.
  - reflexivity.
  - eexists. reflexivity.
  - reflexivity.
  - eexists. reflexivity.
  - reflexivity.
Defined.

(** X24. The control loop never has more workflows running on a host than
    the slots it was given for it: entered with no thread listed, wherever
    it stands (blocked, ended or interrupted by an exception), the hosts of
    the threads it started that still run are, counted with repetition,
    among the hosts of [available_hosts] at its start.  When it returns,
    its [threads] lists each thread once, under the host the thread was
    started on, and the free hosts together with the hosts listed are
    among the initial ones. *)
Theorem no_slot_carries_two ord options fuel l w s :
  threads l = [] →
  let out := dispatch_loop ord options fuel l w s in
  busy (pool out.1.2) (length (pool w)) ⊆+ available_hosts l ∧
  ∀ l', out.1.1 = Ret l' →
    NoDup (threads l').*1 ∧
    (∀ t h, (t, h) ∈ threads l' →
       ∃ th, pool out.1.2 !! t = Some th ∧ t_host th = h) ∧
    available_hosts l' ++ (threads l').*2 ⊆+ available_hosts l.
Proof.
  intros Ht.
  destruct (dispatch_loop ord options fuel l w s) as [[r w'] s'] eqn:H.
  cbn [fst snd].
  eapply (Listed_dispatch_loop _ _ (length (pool w)) (available_hosts l))
    in H as (thr' & av' & HL & Hl).
  - split; [by eapply Listed_busy|]. intros l' ->.
    destruct (Hl l' eq_refl) as [-> ->].
    destruct HL as [Hnd Hh Hr Hs Hp]. split; [done|]. split; [|done].
    intros t h Hin. by destruct (Hh t h Hin) as [_ ?].
  - rewrite Ht. split.
    + apply NoDup_nil_2.
    + by intros t h ?%elem_of_nil.
    + intros t Hn Ha. unfold is_alive in Ha.
      rewrite lookup_ge_None_2 in Ha by done. done.
    + by rewrite app_nil_r.
    + done.
Qed.

Lemma no_slot_carries_two_witness :
  busy (pool Scenario.four_slots.1.2)
    (length (pool (Scenario.defined Scenario.two_params)))
    ⊆+ ["node-1"; "node-1"; "node-2"; "node-2"] ∧
  ∀ l', Scenario.four_slots.1.1 = Ret l' →
    NoDup (threads l').*1 ∧
    (∀ t h, (t, h) ∈ threads l' →
       ∃ th, pool Scenario.four_slots.1.2 !! t = Some th ∧ t_host th = h) ∧
    available_hosts l' ++ (threads l').*2
      ⊆+ ["node-1"; "node-1"; "node-2"; "node-2"].
Proof.
  apply (no_slot_carries_two first_order (Scenario.opts 2 false) 10
           (Scenario.fresh ["node-1"; "node-1"; "node-2"; "node-2"])
           (Scenario.defined Scenario.two_params)
           [Scenario.tick [] true; Scenario.tick [] true;
            Scenario.tick [] true]).
  reflexivity.
Defined.

(** X25. A turn of the outer loop that goes on never calls [oargriddel].
    When it found the job dead (in the control loop or at the check of line
    244) it forgets the job (line 248), which is thus never deleted, and the
    next turn reserves anew; otherwise its last call is the check of line
    244, answered true, and the job is kept. *)
Theorem dead_job_is_dropped ord options fuel dead w s d :
  let out := reserve_and_dispatch ord options fuel dead w s in
  out.1.1 = Ret (Continue d) →
  releases (drop (length (log w)) (log out.1.2)) = [] ∧
  if d then oargrid_job_id out.1.2 = None
  else is_Some (oargrid_job_id out.1.2) ∧
       last (log out.1.2) = Some (IsJobAlive true).
Proof.
  destruct (reserve_and_dispatch ord options fuel dead w s)
    as [[r w'] s'] eqn:H.
  cbn [fst snd]. intros ->. split.
  { apply body_step_reserve_and_dispatch in H as (tr & -> & Hr & _).
    by rewrite drop_app_length. }
  unfold reserve_and_dispatch in H.
  bind_cases H sw w1 s1 H1.
  apply gets_ret_inv in H1 as (-> & -> & ->).
  case_bool_decide; [|by apply ret_inv in H as ([=] & _)].
  bind_cases H j w1 s1 H1.
  apply gets_ret_inv in H1 as (-> & -> & ->).
  bind_cases H u w2 s2 H2.
  assert (is_Some (oargrid_job_id w2)) as Hj.
  { destruct (oargrid_job_id w) as [j|] eqn:Ej.
    - apply ret_inv in H2 as (_ & -> & _). by rewrite Ej.
    - unfold make_reservation in H2. bind_cases H2 j w3 s3 H3.
      apply modify_inv in H2 as (_ & -> & _). by eexists. }
  bind_cases H j' w3 s3 H3.
  apply gets_ret_inv in H3 as (-> & -> & ->).
  bind_cases H u4 w4 s4 H4. apply call_ret in H4 as (_ & Hj4 & _).
  bind_cases H u5 w5 s5 H5. apply call_ret in H5 as (_ & Hj5 & _).
  bind_cases H hosts w6 s6 H6. apply call_ret in H6 as (_ & Hj6 & _).
  case_bool_decide; [by apply ret_inv in H as ([=] & _)|].
  bind_cases H l w7 s7 H7. apply dispatch_loop_spec in H7 as (Hj7 & _).
  bind_cases H a w8 s8 H8. apply call_ret in H8 as (_ & Hj8 & Hl8 & _).
  bind_cases H u9 w9 s9 H9.
  apply ret_inv in H as ([= Ed] & -> & _). rewrite <-Ed in H9.
  destruct d.
  - by apply modify_inv in H9 as (_ & -> & _).
  - apply ret_inv in H9 as (_ & -> & _).
    destruct a; [|done]. split.
    + congruence.
    + rewrite Hl8. apply last_snoc.
Qed.

Lemma dead_job_is_dropped_witness :
  releases (drop (length (log (Scenario.defined Scenario.two_params)))
              (log Edge.job_lost.1.2)) = [] ∧
  oargrid_job_id Edge.job_lost.1.2 = None.
Proof.
  apply (dead_job_is_dropped first_order (Scenario.opts 2 false) 10 false
           (Scenario.defined Scenario.two_params)
           [Scenario.tick [] true; Scenario.tick [] true;
            Scenario.tick [] true; Scenario.tick [] true;
            Scenario.tick [] false; Scenario.tick [] false] true).
  apply (bool_decide_unpack _). vm_compute. exact I.
Defined.

(** X26. In an environment where nothing goes wrong (no call raises, the
    job stays alive, every workflow has come to its end by the next call,
    and a deployment brings at least [n_nodes] slots, [n_nodes] being at
    least 1), [run] returns normally after at most [3 * N + 10] calls, [N]
    bounding the number of combinations: nothing remains, nothing is in
    progress, no thread runs, and every combination of the sweep is
    completed or canceled. *)
Theorem run_completes ord options parameters N fuel script :
  1 ≤ n_nodes options →
  ∅ ∉ sweep parameters →
  (size (list_to_set (sweep parameters) : gset Comb) ≤ N)%nat →
  Forall (λ t, friendly options N t = true) script →
  (3 * N + 10 ≤ length script)%nat → (N + 3 ≤ fuel)%nat →
  let out := run ord options parameters fuel init script in
  out.1.1 = Ret tt ∧
  remaining (sweeper out.1.2) = ∅ ∧
  inprogress (sweeper out.1.2) = ∅ ∧
  all_dead (pool out.1.2) ∧
  ∀ c, c ∈ sweep parameters →
       c ∈ completed (sweeper out.1.2) ∪ canceled (sweeper out.1.2).
Proof.
  intros Hn He HN Hs Hls Hf.
  destruct (run_friendly ord options N parameters fuel script)
    as (w' & s' & E & Hr & Hd); [done..|].
  assert (∀ t th, pool w' !! t = Some th → t_alive th = false →
                  ∃ ok, (t, ok) ∈ reports w') as Hrep.
  { pose proof (keeps_run ord options
      (λ w, ∀ t th, pool w !! t = Some th → t_alive th = false →
                    ∃ ok, (t, ok) ∈ reports w) (λ _, True)) as Hk.
    specialize Hk with (parameters := parameters) (fuel := fuel)
      (s := script).
    rewrite E in Hk. apply Hk; clear Hk.
    - intros w f _ HIw t0 th0. unfold finish.
      destruct (pool w !! f.1) as [th1|] eqn:Hl1; [|apply HIw].
      destruct (t_alive th1) eqn:Ha1; [|apply HIw]. cbn [pool reports].
      destruct (decide (t0 = f.1)) as [->|Hneq].
      + intros _ _. exists f.2. apply elem_of_app. right.
        apply list_elem_of_singleton. by destruct f.
      + rewrite list_lookup_insert_ne by done. intros Hl0 Ha0.
        destruct (HIw _ _ Hl0 Ha0) as [ok Hok]. exists ok.
        apply elem_of_app. by left.
    - done.
    - done.
    - done.
    - intros w c0 host _ HIw t0 th0. cbn [pool reports].
      intros [Hl0|[_ Hl0]]%lookup_app_Some Ha0; [by eapply HIw|].
      destruct (t0 - length (pool w))%nat; [|done]. simpl in Hl0.
      injection Hl0 as <-. done.
    - by intros t0 th0 ?.
    - done.
    - apply Forall_forall. intros ? _. by apply Forall_forall. }
  pose proof (Inv_run _ _ _ _ _ _ _ _ E) as HI.
  pose proof (all_started_run _ _ _ _ _ _ _ E) as Hst.
  cbn zeta. rewrite E. cbn [fst snd].
  assert (∀ c, c ∈ sweep parameters →
               c ∈ completed (sweeper w') ∪ canceled (sweeper w')) as Hall.
  { intros c Hc.
    assert (c ≠ ∅) as Hne by (by intros ->).
    assert (c ∈ t_comb <$> pool w') as Hin.
    { apply Hst; [by apply elem_of_list_to_set|by rewrite Hr|done]. }
    apply list_elem_of_fmap in Hin as (th & -> & Hth).
    apply list_elem_of_lookup in Hth as [t Hth].
    assert (t_alive th = false) as Ha.
    { specialize (Hd t). unfold is_alive in Hd. by rewrite Hth in Hd. }
    destruct (Hrep t th Hth Ha) as [ok Hok].
    destruct (inv_reports HI t ok Hok) as (th' & Hth' & _ & Hset).
    rewrite Hth in Hth'. injection Hth' as <-.
    apply elem_of_union. destruct ok; [by left|by right]. }
  split; [done|]. split; [done|]. split; [|done].
  apply leibniz_equiv. apply set_equiv. intros c. split; [|set_solver].
  intros Hc. exfalso.
  destruct (inv_wf HI) as (HU & _ & _ & _ & H4 & H5 & _).
  assert (c ∈ sweep parameters) as Hin.
  { apply (elem_of_list_to_set (C := gset Comb)). rewrite <-HU. set_solver. }
  apply Hall in Hin. set_solver.
Qed.

Lemma run_completes_witness :
  Scenario.full_run.1.1 = Ret tt ∧
  remaining (sweeper Scenario.full_run.1.2) = ∅ ∧
  inprogress (sweeper Scenario.full_run.1.2) = ∅ ∧
  all_dead (pool Scenario.full_run.1.2) ∧
  ∀ c, c ∈ sweep Scenario.two_params →
       c ∈ completed (sweeper Scenario.full_run.1.2)
           ∪ canceled (sweeper Scenario.full_run.1.2).
Proof.
  apply (run_completes first_order (Scenario.opts 1 false)
           Scenario.two_params 6 100 (replicate 40 Scenario.all_end)).
  - simpl. lia.
  - apply (bool_decide_unpack _). vm_compute. exact I.
  - apply (bool_decide_unpack _). vm_compute. exact I.
  - apply (bool_decide_unpack _). vm_compute. exact I.
  - simpl. lia.
  - lia.
Defined.
